(** * ydb-nodejs-sdk: credentials, sessions and the session pool

    A shallow embedding of [credentials.ts] (the IAM token service) and of
    [table.ts] (Session, SessionPool) and the properties of their
    specification.

    Asynchronous code is embedded as explicit state passing.  An [async]
    method is cut at its [await]s: the part that runs in the calling turn is
    one function, the part that runs when the awaited operation completes is
    another, and the completion itself is an event delivered by the
    environment.  Objects that are shared by reference (sessions) live in a
    store and are named by their reference. *)

From Stdlib Require Import ZArith String Ascii DecimalString Lia.
From stdpp Require Import gmap strings list.

Open Scope Z_scope.

(** ** Template-literal interpolation of an integral JS number

    A JS number is a double.  Up to 2^53 every integer is a double and is
    printed with all its digits; beyond, the value is the nearest double,
    printed with the fewest digits that read back as it, padded with zeros
    below 10^21 and in exponent notation from 10^21 on; what rounds to
    2^1024 is Infinity. *)

(** The IEEE 754 double nearest to a non-negative integer, ties to even;
    the result 2^1024 stands for the overflow to Infinity. *)
Definition to_double (x : Z) : Z :=
  let bits := Z.log2 x + 1 in
  if bool_decide (bits <= 53) then x
  else
    let sh := bits - 53 in
    let q := Z.shiftr x sh in
    let r := x - Z.shiftl q sh in
    let half := Z.shiftl 1 (sh - 1) in
    let q' := if bool_decide (half < r) || (bool_decide (r = half) && Z.odd q)
              then q + 1 else q in
    Z.shiftl q' sh.

Definition decimal (x : Z) : string := NilZero.string_of_int (Z.to_int x).

(** The decimal numeral with the fewest significant digits that reads back
    as the double [v] (the closest one, the even one on a tie), searched
    from [k] significant digits upwards; [nd] is the number of digits of [v]. *)
Fixpoint shortest_decimal (fuel : nat) (k : Z) (v nd : Z) : Z :=
  match fuel with
  | O => v
  | S fuel' =>
      if bool_decide (nd <= k) then v
      else
        let p := 10 ^ (nd - k) in
        let lo := (v / p) * p in
        let hi := lo + p in
        let oklo := bool_decide (to_double lo = v) in
        let okhi := bool_decide (to_double hi = v) in
        if oklo && okhi then
          if bool_decide (v - lo < hi - v) then lo
          else if bool_decide (hi - v < v - lo) then hi
          else if Z.even (v / p) then lo else hi
        else if oklo then lo
        else if okhi then hi
        else shortest_decimal fuel' (k + 1) v nd
  end.

Fixpoint strip_zeros (rev_digits : list Ascii.ascii) : list Ascii.ascii :=
  match rev_digits with
  | c :: l => if Ascii.eqb c "0"%char then strip_zeros l else rev_digits
  | [] => []
  end.

(** Number::toString of a positive integer-valued double [v]. *)
Definition double_to_string (v : Z) : string :=
  let x := shortest_decimal 17 1 v (Z.of_nat (String.length (decimal v))) in
  let ds := decimal x in
  let n := Z.of_nat (String.length ds) in
  if bool_decide (n <= 21) then ds
  else
    match List.rev (strip_zeros (List.rev (list_ascii_of_string ds))) with
    | [] => ds
    | [c] => (String c "e+" +:+ decimal (n - 1))%string
    | c :: frac =>
        (String c ("." +:+ string_of_list_ascii frac) +:+ "e+"
           +:+ decimal (n - 1))%string
    end.

Definition number_to_string (z : Z) : string :=
  if bool_decide (Z.abs z <= 2 ^ 53) then decimal z
  else
    ((if bool_decide (z < 0) then "-" else "")
       +:+ (if bool_decide (2 ^ 1024 <= to_double (Z.abs z)) then "Infinity"
            else double_to_string (to_double (Z.abs z))))%string.

(* ===================================================================== *)
(** * credentials.ts *)
(* ===================================================================== *)

Module Credentials.

(** grpc [Metadata] as the list of the pairs added to it, in order. *)
Definition Metadata := list (string * string).

Definition makeCredentialsMetadata (token dbName : string) : Metadata :=
  [("x-ydb-auth-ticket", token); ("x-ydb-database", dbName)]%string.

Record IIAmCredentials := mkIamCredentials {
  serviceAccountId : string;
  accessKeyId : string;
  privateKey : string;
  iamEndpoint : string
}.

(** The instance fields of [IamAuthService].  The three timeouts are
    initialised in the class body and never assigned again. *)
Definition jwtExpirationTimeout : Z := 3600 * 1000.
Definition tokenExpirationTimeout : Z := 120 * 1000.
Definition tokenRequestTimeout : Z := 10 * 1000.

Record IamAuthService := mkIamAuthService {
  token : string;
  dbName : string;
  tokenTimestamp : option Z;          (* DateTime|null, in epoch milliseconds *)
  iamCredentials : IIAmCredentials
}.

Definition new_IamAuthService (creds : IIAmCredentials) (db : string)
  : IamAuthService :=
  {| token := ""; dbName := db; tokenTimestamp := None;
     iamCredentials := creds |}.

(** [Math.round(dt.toSeconds())] for a DateTime of [ms] epoch milliseconds:
    the nearest integer to [ms / 1000], halves going up. *)
Definition round_seconds (ms : Z) : Z := (ms + 500) / 1000.

Record JwtPayload := mkJwtPayload {
  iss : string; aud : string; iat : Z; exp : Z
}.

Record SignOptions := mkSignOptions {
  algorithm : string; keyid : string
}.

(** The three arguments handed to [jwt.sign]. *)
Record JwtSignCall := mkJwtSignCall {
  jwt_payload : JwtPayload;
  jwt_key : string;
  jwt_options : SignOptions
}.

Definition getJwtRequest (svc : IamAuthService) (now : Z) : JwtSignCall :=
  let expires := now + jwtExpirationTimeout in
  {| jwt_payload :=
       {| iss := serviceAccountId (iamCredentials svc);
          aud := "https://iam.api.cloud.yandex.net/iam/v1/tokens";
          iat := round_seconds now;
          exp := round_seconds expires |};
     jwt_key := privateKey (iamCredentials svc);
     jwt_options :=
       {| algorithm := "PS256";
          keyid := accessKeyId (iamCredentials svc) |} |}.

(** [get expired]: [now] is the value of [DateTime.utc()] at the read. *)
Definition expired (svc : IamAuthService) (now : Z) : bool :=
  match tokenTimestamp svc with
  | None => true
  | Some ts => bool_decide (tokenExpirationTimeout < now - ts)
  end.

(** [sendTokenRequest]: the [create] call on the IAM stub, raced against a
    timer by [withTimeout]. *)
Record TokenRequest := mkTokenRequest {
  req_jwt : JwtSignCall;
  req_timeout : Z
}.

Definition sendTokenRequest (svc : IamAuthService) (now : Z) : TokenRequest :=
  {| req_jwt := getJwtRequest svc now; req_timeout := tokenRequestTimeout |}.

(** What the awaited [sendTokenRequest()] settles to: a response whose
    [iamToken] field may be missing, or a rejection (transport error,
    [TimeoutExpired]). *)
Inductive TokenResponse :=
| Response (iamToken : option string)
| RequestFailed (err : string).

(** JS truthiness of [iamToken]: neither undefined nor the empty string. *)
Definition truthy_token (t : option string) : option string :=
  match t with
  | Some s => if decide (s = ""%string) then None else Some s
  | None => None
  end.

(** [updateToken], after the await: [now] is [DateTime.utc()] at that time. *)
Definition updateToken_resume (svc : IamAuthService) (resp : TokenResponse)
    (now : Z) : IamAuthService * option string :=
  match resp with
  | Response t =>
      match truthy_token t with
      | Some tok =>
          ({| token := tok; dbName := dbName svc; tokenTimestamp := Some now;
              iamCredentials := iamCredentials svc |}, None)
      | None => (svc, Some "Received empty token from IAM!"%string)
      end
  | RequestFailed e => (svc, Some e)
  end.

(** A call of [getAuthMetadata] either returns in its first turn or is
    suspended on the token request it has sent. *)
Inductive AuthCall :=
| Returned (m : Metadata)
| Suspended (rq : TokenRequest).

Definition getAuthMetadata_start (svc : IamAuthService) (now : Z) : AuthCall :=
  if expired svc now then Suspended (sendTokenRequest svc now)
  else Returned (makeCredentialsMetadata (token svc) (dbName svc)).

(** The rest of a suspended call, run when the token request settles. *)
Definition getAuthMetadata_resume (svc : IamAuthService) (resp : TokenResponse)
    (now : Z) : IamAuthService * (Metadata + string) :=
  match updateToken_resume svc resp now with
  | (svc', None) =>
      (svc', inl (makeCredentialsMetadata (token svc') (dbName svc')))
  | (svc', Some e) => (svc', inr e)
  end.

(** A call run to completion with no other call interleaved: the clock reads
    [now] at the call and [now'] when the response arrives.  The result is
    the new service state, the token requests sent, and the outcome. *)
Definition getAuthMetadata (svc : IamAuthService) (now : Z)
    (resp : TokenResponse) (now' : Z)
  : IamAuthService * list TokenRequest * (Metadata + string) :=
  match getAuthMetadata_start svc now with
  | Returned m => (svc, [], inl m)
  | Suspended rq =>
      let '(svc', out) := getAuthMetadata_resume svc resp now' in
      (svc', [rq], out)
  end.

(** Interleaved calls.  The service object is shared; every call in flight
    is waiting for its own token request. *)
Record AuthWorld := mkAuthWorld {
  service : IamAuthService;
  sent : list TokenRequest;             (* IAM RPCs issued so far *)
  returned : list (Metadata + string);  (* outcomes of the finished calls *)
  resuming : nat    (* calls whose updateToken() has returned and whose own
                       continuation has not run yet *)
}.

Inductive AuthEvent :=
| Call (now : Z)                                (* a caller enters getAuthMetadata *)
| Settle (resp : TokenResponse) (now : Z)       (* a suspended call runs to its end *)
| SettleToken (resp : TokenResponse) (now : Z)  (* updateToken resumes *)
| Resume.                                       (* getAuthMetadata resumes *)

(** [Settle] is the schedule in which the continuation of [updateToken] and
    that of [getAuthMetadata] run back to back.  They are two turns of the
    job queue: [SettleToken] is the first alone, [Resume] the second, which
    reads [this.token] as it is by then. *)
Definition auth_step (w : AuthWorld) (ev : AuthEvent) : AuthWorld :=
  match ev with
  | Call now =>
      match getAuthMetadata_start (service w) now with
      | Returned m =>
          {| service := service w; sent := sent w;
             returned := returned w ++ [inl m]; resuming := resuming w |}
      | Suspended rq =>
          {| service := service w; sent := sent w ++ [rq];
             returned := returned w; resuming := resuming w |}
      end
  | Settle resp now =>
      let '(svc', out) := getAuthMetadata_resume (service w) resp now in
      {| service := svc'; sent := sent w; returned := returned w ++ [out];
         resuming := resuming w |}
  | SettleToken resp now =>
      match updateToken_resume (service w) resp now with
      | (svc', None) =>
          {| service := svc'; sent := sent w; returned := returned w;
             resuming := S (resuming w) |}
      | (svc', Some e) =>
          {| service := svc'; sent := sent w;
             returned := returned w ++ [inr e]; resuming := resuming w |}
      end
  | Resume =>
      match resuming w with
      | O => w
      | S n =>
          {| service := service w; sent := sent w;
             returned :=
               returned w ++
                 [inl (makeCredentialsMetadata (token (service w))
                         (dbName (service w)))];
             resuming := n |}
      end
  end.

Definition auth_run (w : AuthWorld) (evs : list AuthEvent) : AuthWorld :=
  foldl auth_step w evs.

Definition auth_world (svc : IamAuthService) : AuthWorld :=
  {| service := svc; sent := []; returned := []; resuming := 0 |}.

(** ** MetadataAuthService *)

Definition MAX_TRIES : Z := 5.
Definition TRIES_INTERVAL : Z := 2000.

(** The token service collaborator: [getToken k] is what the call number
    [k] of [getToken()] returns (numbered from 0); [initialize] is absent,
    or present and then resolves ([Some None]) or rejects with an error. *)
Record ITokenService := mkTokenService {
  getToken : nat -> option string;
  initialize : option (option string)
}.

(** What a call of [getAuthMetadata] does to its collaborators, in order. *)
Inductive TokenAction :=
| DoGetToken
| DoInitialize
| DoSleep (ms : Z).

(** The loop [while (!token && tries < MAX_TRIES)]: [calls] counts the
    calls of [getToken] made so far.  [None] when [fuel] iterations were
    not enough to leave the loop. *)
Fixpoint poll_token (ts : ITokenService) (fuel : nat) (token : option string)
    (tries : Z) (calls : nat) (trace : list TokenAction)
  : option (option string * nat * list TokenAction) :=
  if bool_decide (truthy_token token = None) && bool_decide (tries < MAX_TRIES)
  then
    match fuel with
    | O => None
    | S fuel' =>
        poll_token ts fuel' (getToken ts calls) (tries + 1) (S calls)
          (trace ++ [DoSleep TRIES_INTERVAL; DoGetToken])
    end
  else Some (token, calls, trace).

Definition MetadataAuthService_getAuthMetadata_fuel (dbName : string)
    (ts : ITokenService) (fuel : nat)
  : option ((Metadata + string) * list TokenAction) :=
  let first := getToken ts 0 in
  let after_init : (option string * nat * list TokenAction) + string :=
    match truthy_token first, initialize ts with
    | None, Some (Some err) => inr err
    | None, Some None =>
        inl (getToken ts 1, 2%nat, [DoGetToken; DoInitialize; DoGetToken])
    | _, _ => inl (first, 1%nat, [DoGetToken])
    end in
  match after_init with
  | inr err => Some (inr err, [DoGetToken; DoInitialize])
  | inl (token, calls, trace) =>
      match poll_token ts fuel token 0 calls trace with
      | None => None
      | Some (token', _, trace') =>
          match truthy_token token' with
          | Some t => Some (inl (makeCredentialsMetadata t dbName), trace')
          | None =>
              Some (inr ("Failed to fetch access token via metadata service in "
                           +:+ number_to_string MAX_TRIES +:+ " tries!")%string,
                    trace')
          end
      end
  end.

Definition MetadataAuthService_getAuthMetadata (dbName : string)
    (ts : ITokenService)
  : option ((Metadata + string) * list TokenAction) :=
  MetadataAuthService_getAuthMetadata_fuel dbName ts (Z.to_nat MAX_TRIES).

End Credentials.

(* ===================================================================== *)
(** * table.ts *)
(* ===================================================================== *)

Module Table.

(** Modelled from the spec: the Endpoint type is declared in ./discovery,
    which is not among the sources at hand; these are the fields the spec
    gives it that a session reads. *)
Record Endpoint := mkEndpoint {
  host : string;
  port : Z;
  database : string
}.

(** ** Session *)

Record Session := mkSession {
  sessionId : string;
  endpoint : Endpoint;
  beingDeleted : bool;
  free : bool
}.

Definition new_Session (ep : Endpoint) (sid : string) : Session :=
  {| sessionId := sid; endpoint := ep; beingDeleted := false; free := true |}.

Definition Session_acquire (s : Session) : Session :=
  {| sessionId := sessionId s; endpoint := endpoint s;
     beingDeleted := beingDeleted s; free := false |}.

(** [release] also emits SESSION_RELEASE; the listener is the pool's, see
    [on_SESSION_RELEASE] below. *)
Definition Session_release (s : Session) : Session :=
  {| sessionId := sessionId s; endpoint := endpoint s;
     beingDeleted := beingDeleted s; free := true |}.

Definition Session_isDeleted (s : Session) : bool := beingDeleted s.

Definition Session_isFree (s : Session) : bool :=
  free s && negb (Session_isDeleted s).

(** Requests a session sends on its stub. *)
Inductive Rpc :=
| DeleteSessionRpc (sid : string)
| KeepAliveRpc (sid : string).

(** [delete], up to its await: either it returns a resolved promise at
    once, or it has marked the session and sent DeleteSession. *)
Inductive DeleteCall :=
| DeleteNoop
| DeleteIssued (rq : Rpc).

Definition Session_delete (s : Session) : Session * DeleteCall :=
  if Session_isDeleted s then (s, DeleteNoop)
  else ({| sessionId := sessionId s; endpoint := endpoint s;
           beingDeleted := true; free := free s |},
        DeleteIssued (DeleteSessionRpc (sessionId s))).

(** [keepAlive], up to its await: the request of one attempt. *)
Definition Session_keepAlive (s : Session) : Rpc := KeepAliveRpc (sessionId s).

(** Modelled from the spec: [keepAlive] is decorated with [@retryable()]
    from ./retries, which is not among the sources; by the spec an attempt
    that fails with a retryable status is followed, within the retry
    budget, by another run of the body, which sends the request again.
    The requests of a call whose first [n] attempts failed that way: *)
Definition Session_keepAlive_retried (s : Session) (n : nat) : list Rpc :=
  replicate (S n) (Session_keepAlive s).

(** The requests sent by a run of calls of [delete] on the same session. *)
Definition rpcs_of (c : DeleteCall) : list Rpc :=
  match c with DeleteNoop => [] | DeleteIssued rq => [rq] end.

Fixpoint Session_delete_times (n : nat) (s : Session) : Session * list Rpc :=
  match n with
  | O => (s, [])
  | S n' =>
      let '(s1, c) := Session_delete s in
      let '(s2, rs) := Session_delete_times n' s1 in
      (s2, rpcs_of c ++ rs)
  end.

(** The methods that touch the two flags, as a caller may invoke them. *)
Inductive SessionOp := OpAcquire | OpRelease | OpDelete | OpKeepAlive.

Definition Session_apply (s : Session) (op : SessionOp) : Session :=
  match op with
  | OpAcquire => Session_acquire s
  | OpRelease => Session_release s
  | OpDelete => (Session_delete s).1
  | OpKeepAlive => s
  end.

(** ** executeQuery *)

(** The oneof of Ydb.Table.ITransactionSettings (generated from the proto
    bundle, which is not among the sources at hand). *)
Inductive ITransactionSettings :=
| serializableReadWrite
| onlineReadOnly (allowInconsistentReads : bool)
| staleReadOnly.

Inductive TxControl :=
| IExistingTransaction (txId : string)
| INewTransaction (beginTx : ITransactionSettings) (commitTx : bool).

Definition AUTO_TX : TxControl := INewTransaction serializableReadWrite true.

(** The [query] argument: YQL text or a prepared query. *)
Inductive QueryArg :=
| QueryText (yqlText : string)
| QueryPrepared (queryId : string).

Inductive IQuery :=
| IQuery_yqlText (yqlText : string)
| IQuery_id (id : string).

Section ExecuteQuery.

(** Ydb.ITypedValue, the operation response and its decoded result are
    generated types; [getOperationPayload] lives in ./utils. *)
Variable TypedValue : Type.
Variables OperationResponse Payload ExecuteQueryResult : Type.
Variable getOperationPayload : OperationResponse -> Payload + string.
Variable decode : Payload -> ExecuteQueryResult.

Record ExecuteDataQueryRequest := mkExecuteDataQueryRequest {
  rq_sessionId : string;
  rq_txControl : TxControl;
  rq_parameters : list (string * TypedValue);
  rq_query : IQuery
}.

(** An argument left out (undefined) takes the declared default. *)
Definition default_arg {A} (a : option A) (d : A) : A :=
  match a with Some x => x | None => d end.

(** [executeQuery], up to its await: the request it sends. *)
Definition Session_executeQuery (s : Session) (query : QueryArg)
    (params : option (list (string * TypedValue)))
    (txControl : option TxControl) : ExecuteDataQueryRequest :=
  let params := default_arg params [] in
  let txControl := default_arg txControl AUTO_TX in
  let queryToExecute :=
    match query with
    | QueryText q => IQuery_yqlText q
    | QueryPrepared qid => IQuery_id qid
    end in
  {| rq_sessionId := sessionId s;
     rq_txControl := txControl;
     rq_parameters := params;
     rq_query := queryToExecute |}.

(** [executeQuery], after the await. *)
Definition Session_executeQuery_resume (response : OperationResponse)
  : ExecuteQueryResult + string :=
  match getOperationPayload response with
  | inl payload => inl (decode payload)
  | inr e => inr e
  end.

End ExecuteQuery.

(** ** SessionPool *)

(** The state of a promise returned by [acquire], with the number of times
    its [resolve] or [reject] has been called.  Only the first call counts. *)
Inductive Settled :=
| Pending
| Resolved (s : nat)
| Rejected (err : string).

Record Promise := mkPromise {
  outcome : Settled;
  settleCalls : nat
}.

Definition new_Promise : Promise := {| outcome := Pending; settleCalls := 0 |}.

Definition settle (o : Settled) (p : Promise) : Promise :=
  {| outcome := match outcome p with Pending => o | x => x end;
     settleCalls := S (settleCalls p) |}.

(** Who started a [createSession()]: the constructor, or [acquire], whose
    [.then] is chained on it.  [ThenPending r]: the call by [acquire] has
    returned session [r] and the [.then] has not run yet. *)
Inductive CreateCont := ForPrepopulate | ForAcquire | ThenPending (r : nat).

Record SessionPool := mkSessionPool {
  minLimit : Z;
  maxLimit : Z;
  heap : gmap nat Session;   (* the Session objects, by reference *)
  sessions : list nat;   (* Set<Session>, in insertion order *)
  newSessionsRequested : Z;
  sessionsBeingDeleted : Z;
  sessionKeepAliveId : bool;   (* is the keepalive interval armed *)
  waiters : list nat;   (* the waiter closures, named by the promise they settle *)
  promises : gmap nat Promise;   (* the promises returned by acquire() *)
  timers : gmap nat (Z * Z);   (* armed waiter timers: deadline and timeout *)
  creates : gmap nat CreateCont;   (* createSession() calls in flight *)
  deletes : gmap nat (nat * bool);   (* session.delete() calls in flight: session, and whether deleteSession chained its .then *)
  rpcLog : list Rpc;   (* requests sent on the sessions *)
  now : Z;   (* the clock, in milliseconds *)
  next : nat   (* next unused reference *)
}.

Definition set_heap (v : gmap nat Session) (st : SessionPool) : SessionPool :=
  mkSessionPool (minLimit st) (maxLimit st) v (sessions st) (newSessionsRequested st) (sessionsBeingDeleted st) (sessionKeepAliveId st) (waiters st) (promises st) (timers st) (creates st) (deletes st) (rpcLog st) (now st) (next st).

Definition set_sessions (v : list nat) (st : SessionPool) : SessionPool :=
  mkSessionPool (minLimit st) (maxLimit st) (heap st) v (newSessionsRequested st) (sessionsBeingDeleted st) (sessionKeepAliveId st) (waiters st) (promises st) (timers st) (creates st) (deletes st) (rpcLog st) (now st) (next st).

Definition set_newSessionsRequested (v : Z) (st : SessionPool) : SessionPool :=
  mkSessionPool (minLimit st) (maxLimit st) (heap st) (sessions st) v (sessionsBeingDeleted st) (sessionKeepAliveId st) (waiters st) (promises st) (timers st) (creates st) (deletes st) (rpcLog st) (now st) (next st).

Definition set_sessionsBeingDeleted (v : Z) (st : SessionPool) : SessionPool :=
  mkSessionPool (minLimit st) (maxLimit st) (heap st) (sessions st) (newSessionsRequested st) v (sessionKeepAliveId st) (waiters st) (promises st) (timers st) (creates st) (deletes st) (rpcLog st) (now st) (next st).

Definition set_sessionKeepAliveId (v : bool) (st : SessionPool) : SessionPool :=
  mkSessionPool (minLimit st) (maxLimit st) (heap st) (sessions st) (newSessionsRequested st) (sessionsBeingDeleted st) v (waiters st) (promises st) (timers st) (creates st) (deletes st) (rpcLog st) (now st) (next st).

Definition set_waiters (v : list nat) (st : SessionPool) : SessionPool :=
  mkSessionPool (minLimit st) (maxLimit st) (heap st) (sessions st) (newSessionsRequested st) (sessionsBeingDeleted st) (sessionKeepAliveId st) v (promises st) (timers st) (creates st) (deletes st) (rpcLog st) (now st) (next st).

Definition set_promises (v : gmap nat Promise) (st : SessionPool) : SessionPool :=
  mkSessionPool (minLimit st) (maxLimit st) (heap st) (sessions st) (newSessionsRequested st) (sessionsBeingDeleted st) (sessionKeepAliveId st) (waiters st) v (timers st) (creates st) (deletes st) (rpcLog st) (now st) (next st).

Definition set_timers (v : gmap nat (Z * Z)) (st : SessionPool) : SessionPool :=
  mkSessionPool (minLimit st) (maxLimit st) (heap st) (sessions st) (newSessionsRequested st) (sessionsBeingDeleted st) (sessionKeepAliveId st) (waiters st) (promises st) v (creates st) (deletes st) (rpcLog st) (now st) (next st).

Definition set_creates (v : gmap nat CreateCont) (st : SessionPool) : SessionPool :=
  mkSessionPool (minLimit st) (maxLimit st) (heap st) (sessions st) (newSessionsRequested st) (sessionsBeingDeleted st) (sessionKeepAliveId st) (waiters st) (promises st) (timers st) v (deletes st) (rpcLog st) (now st) (next st).

Definition set_deletes (v : gmap nat (nat * bool)) (st : SessionPool) : SessionPool :=
  mkSessionPool (minLimit st) (maxLimit st) (heap st) (sessions st) (newSessionsRequested st) (sessionsBeingDeleted st) (sessionKeepAliveId st) (waiters st) (promises st) (timers st) (creates st) v (rpcLog st) (now st) (next st).

Definition set_rpcLog (v : list Rpc) (st : SessionPool) : SessionPool :=
  mkSessionPool (minLimit st) (maxLimit st) (heap st) (sessions st) (newSessionsRequested st) (sessionsBeingDeleted st) (sessionKeepAliveId st) (waiters st) (promises st) (timers st) (creates st) (deletes st) v (now st) (next st).

Definition set_now (v : Z) (st : SessionPool) : SessionPool :=
  mkSessionPool (minLimit st) (maxLimit st) (heap st) (sessions st) (newSessionsRequested st) (sessionsBeingDeleted st) (sessionKeepAliveId st) (waiters st) (promises st) (timers st) (creates st) (deletes st) (rpcLog st) v (next st).

Definition set_next (v : nat) (st : SessionPool) : SessionPool :=
  mkSessionPool (minLimit st) (maxLimit st) (heap st) (sessions st) (newSessionsRequested st) (sessionsBeingDeleted st) (sessionKeepAliveId st) (waiters st) (promises st) (timers st) (creates st) (deletes st) (rpcLog st) (now st) v.


(** [Set.prototype.add] and [delete] on the insertion-ordered set. *)
Definition set_add (r : nat) (l : list nat) : list nat :=
  if decide (r ∈ l) then l else l ++ [r].

Definition set_delete (r : nat) (l : list nat) : list nat :=
  filter (λ x, x ≠ r) l.

(** [Array.prototype.indexOf] and [splice(i, 1)]; a negative index counts
    from the end of the array. *)
Fixpoint indexOf_from (w : nat) (l : list nat) (i : Z) : Z :=
  match l with
  | [] => -1
  | x :: l' => if decide (x = w) then i else indexOf_from w l' (i + 1)
  end.

Definition indexOf (w : nat) (l : list nat) : Z := indexOf_from w l 0.

Definition splice1 (i : Z) (l : list nat) : list nat :=
  let len := Z.of_nat (length l) in
  let start := if bool_decide (i < 0) then Z.max (len + i) 0 else Z.min i len in
  delete (Z.to_nat start) l.

(** Node's [setTimeout]: a delay below 1 or above 2^31 - 1 is set to 1. *)
Definition setTimeout_delay (ms : Z) : Z :=
  if bool_decide (ms < 1) || bool_decide (2147483647 < ms) then 1 else ms.

Definition timeout_message (timeout : Z) : string :=
  ("No session became available within timeout of "
     +:+ number_to_string timeout +:+ " ms")%string.

(** [createSession], up to its first await.  The call is in flight under
    the returned reference until the driver's factory answers. *)
Definition createSession (k : CreateCont) (st : SessionPool)
  : SessionPool * nat :=
  let c := next st in
  (set_next (S c) (set_creates (<[c := k]> (creates st)) st), c).

(** The SESSION_RELEASE listener [createSession] installs on a session. *)
Definition on_SESSION_RELEASE (s : nat) (st : SessionPool) : SessionPool :=
  match waiters st with
  | [] => st
  | w :: rest =>
      (* waiter(session): clearTimeout(timeoutId); resolve(session.acquire()) *)
      set_promises (alter (settle (Resolved s)) w (promises st))
        (set_heap (alter Session_acquire s (heap st))
          (set_timers (delete w (timers st))
            (set_waiters rest st)))
  end.

(** [createSession], after [sessionCreator.create()] has returned a session
    with id [sid] on endpoint [ep]: the listeners are installed and the
    session joins the set, free.  For a call by [acquire] the [.then]
    chained on it is now due, as a later job. *)
Definition createSession_added (c : nat) (sid : string) (ep : Endpoint)
    (st : SessionPool) : SessionPool :=
  match creates st !! c with
  | None => st
  | Some (ThenPending _) => st
  | Some k =>
      let r := next st in
      set_next (S r)
        (set_creates
           (match k with
            | ForAcquire => <[c := ThenPending r]> (creates st)
            | _ => delete c (creates st)
            end)
           (set_sessions (set_add r (sessions st))
             (set_heap (<[r := new_Session ep sid]> (heap st)) st)))
  end.

(** The [.then] of [acquire]: [newSessionsRequested--] and
    [session.acquire()], whose result resolves the promise of [acquire]. *)
Definition acquire_then (c : nat) (st : SessionPool) : SessionPool :=
  match creates st !! c with
  | Some (ThenPending r) =>
      set_promises (alter (settle (Resolved r)) c (promises st))
        (set_heap (alter Session_acquire r (heap st))
          (set_newSessionsRequested (newSessionsRequested st - 1)
            (set_creates (delete c (creates st)) st)))
  | _ => st
  end.

(** The schedule in which the two run back to back: [createSession]
    resumes and the [.then] that [acquire] chained on it follows at once. *)
Definition createSession_resume (c : nat) (sid : string) (ep : Endpoint)
    (st : SessionPool) : SessionPool :=
  match creates st !! c with
  | None => st
  | Some k =>
      let r := next st in
      let st1 :=
        set_next (S r)
          (set_creates (delete c (creates st))
            (set_sessions (set_add r (sessions st))
              (set_heap (<[r := new_Session ep sid]> (heap st)) st))) in
      match k with
      | ForPrepopulate => st1
      | ForAcquire =>
          set_promises (alter (settle (Resolved r)) c (promises st1))
            (set_heap (alter Session_acquire r (heap st1))
              (set_newSessionsRequested (newSessionsRequested st1 - 1) st1))
      | ThenPending _ => st
      end
  end.

(** [createSession] rejected: nothing is added, and the promise [acquire]
    returned rejects with the same error. *)
Definition createSession_reject (c : nat) (err : string) (st : SessionPool)
  : SessionPool :=
  match creates st !! c with
  | None => st
  | Some k =>
      let st1 := set_creates (delete c (creates st)) st in
      match k with
      | ForPrepopulate => st1
      | ForAcquire =>
          set_promises (alter (settle (Rejected err)) c (promises st1)) st1
      | ThenPending _ => st
      end
  end.

(** [session.acquire()], [session.release()] and [session.delete()] on the
    object behind reference [s]. *)
Definition session_acquire (s : nat) (st : SessionPool) : SessionPool :=
  set_heap (alter Session_acquire s (heap st)) st.

Definition session_release (s : nat) (st : SessionPool) : SessionPool :=
  match heap st !! s with
  | None => st
  | Some _ =>
      on_SESSION_RELEASE s (set_heap (alter Session_release s (heap st)) st)
  end.

(** The [.then] that [deleteSession] chains on [session.delete()]. *)
Definition deleteSession_then (s : nat) (st : SessionPool) : SessionPool :=
  set_sessionsBeingDeleted (sessionsBeingDeleted st - 1)
    (set_sessions (set_delete s (sessions st)) st).

(** [session.delete()], with [chained] telling whether the caller is
    [deleteSession], which chains its [.then] on the returned promise. *)
Definition session_delete (s : nat) (chained : bool) (st : SessionPool)
  : SessionPool :=
  match heap st !! s with
  | None => st
  | Some o =>
      match Session_delete o with
      | (o', DeleteIssued rq) =>
          let d := next st in
          set_next (S d)
            (set_deletes (<[d := (s, chained)]> (deletes st))
              (set_rpcLog (rpcLog st ++ [rq])
                (set_heap (<[s := o']> (heap st)) st)))
      | (_, DeleteNoop) =>
          if chained then deleteSession_then s st else st
      end
  end.

(** A promise returned by an [async] method of the pool, described by the
    in-flight operations it still waits for; when there are none it is
    fulfilled without any further completion. *)
Definition Awaited := list nat.

(** [deleteSession]: the body has no [await] and drops the promise of
    [session.delete()], so the promise it returns waits for nothing. *)
Definition deleteSession (s : nat) (st : SessionPool)
  : SessionPool * Awaited :=
  match heap st !! s with
  | None => (st, [])
  | Some o =>
      if Session_isDeleted o then (st, [])
      else
        (session_delete s true
           (set_sessionsBeingDeleted (sessionsBeingDeleted st + 1) st), [])
  end.

(** The promise of [session.delete()] in flight under [d] settles. *)
Definition session_delete_settled (d : nat) (ok : bool) (st : SessionPool)
  : SessionPool :=
  match deletes st !! d with
  | None => st
  | Some (s, chained) =>
      let st1 := set_deletes (delete d (deletes st)) st in
      if ok && chained then deleteSession_then s st1 else st1
  end.

(** The scan at the head of [acquire]. *)
Definition session_isFree (st : SessionPool) (r : nat) : bool :=
  match heap st !! r with
  | Some o => Session_isFree o
  | None => false
  end.

Definition find_free (st : SessionPool) : option nat :=
  snd <$> list_find (λ r, session_isFree st r = true) (sessions st).

Inductive Decision :=
| UseFree (s : nat)
| CreateNew
| Enqueue.

Definition acquire_decision (st : SessionPool) : Decision :=
  match find_free st with
  | Some s => UseFree s
  | None =>
      if bool_decide (Z.of_nat (length (sessions st))
                        + newSessionsRequested st
                        - sessionsBeingDeleted st ≤ maxLimit st)
      then CreateNew else Enqueue
  end.

(** [acquire(timeout)]: the new state and the promise it returns. *)
Definition acquire (timeout : Z) (st : SessionPool) : SessionPool * nat :=
  match acquire_decision st with
  | UseFree s =>
      let p := next st in
      (set_next (S p)
         (set_promises (<[p := settle (Resolved s) new_Promise]> (promises st))
           (set_heap (alter Session_acquire s (heap st)) st)), p)
  | CreateNew =>
      let '(st1, c) :=
        createSession ForAcquire
          (set_newSessionsRequested (newSessionsRequested st + 1) st) in
      (set_promises (<[c := new_Promise]> (promises st1)) st1, c)
  | Enqueue =>
      let w := next st in
      let armed :=
        if bool_decide (timeout ≠ 0)
        then <[w := (now st + setTimeout_delay timeout, timeout)]> (timers st)
        else timers st in
      (set_next (S w)
         (set_waiters (waiters st ++ [w])
           (set_timers armed
             (set_promises (<[w := new_Promise]> (promises st)) st))), w)
  end.

(** The timer callback armed by [acquire] for waiter [w]. *)
Definition timer_fire (w : nat) (st : SessionPool) : SessionPool :=
  match timers st !! w with
  | None => st
  | Some (deadline, timeout) =>
      if bool_decide (deadline ≤ now st) then
        set_promises
          (alter (settle (Rejected (timeout_message timeout))) w (promises st))
          (set_waiters (splice1 (indexOf w (waiters st)) (waiters st))
            (set_timers (delete w (timers st)) st))
      else st
  end.

(** The clock moves on by a millisecond once every due timer has fired. *)
Definition tick (st : SessionPool) : SessionPool :=
  if bool_decide (map_Forall (λ _ (dt : Z * Z), now st < dt.1) (timers st))
  then set_now (now st + 1) st else st.

(** The keepalive interval callback. *)
Definition keepAlive_fire (st : SessionPool) : SessionPool :=
  if sessionKeepAliveId st then
    set_rpcLog
      (rpcLog st ++
         omap (λ r, Session_keepAlive <$> heap st !! r) (sessions st)) st
  else st.

(** Modelled from the spec: [@retryable()] comes from ./retries, which is
    not among the sources; by the spec it runs the decorated operation again
    when an attempt has failed with a retryable status.  For a [keepAlive]
    started by the interval callback this sends the request once more; it
    can happen to a session on which a KeepAlive has been sent, whatever
    the state of the interval, also after [destroy]. *)
Definition keepAlive_sent (sid : string) (log : list Rpc) : bool :=
  existsb (λ rq, match rq with
                 | KeepAliveRpc sid' => String.eqb sid sid'
                 | _ => false
                 end) log.

Definition keepAlive_retry (s : nat) (st : SessionPool) : SessionPool :=
  match heap st !! s with
  | Some o =>
      if keepAlive_sent (sessionId o) (rpcLog st)
      then set_rpcLog (rpcLog st ++ [Session_keepAlive o]) st
      else st
  | None => st
  end.

(** [destroy]: [Promise.all] waits for what the [deleteSession] promises
    wait for. *)
Definition destroy (st : SessionPool) : SessionPool * Awaited :=
  let st1 := set_sessionKeepAliveId false st in
  foldl (λ (acc : SessionPool * Awaited) s,
           let '(st', a) := deleteSession s acc.1 in (st', acc.2 ++ a))
        (st1, []) (sessions st1).

(** [withSession] after [acquire] has handed over session [s]: the callback
    has finished with [out], a result or a thrown error. *)
Definition withSession_finish {R : Type} (s : nat) (out : R + string)
    (st : SessionPool) : SessionPool * (R + string) :=
  match out with
  | inl result => (session_release s st, inl result)
  | inr error => ((deleteSession s st).1, inr error)
  end.

(** The callback is user code over the shared state: it may call methods on
    its session and let other work of the process interleave. *)
Definition Callback (R : Type) : Type :=
  nat -> SessionPool -> SessionPool * (R + string).

Definition withSession_resume {R : Type} (callback : Callback R) (s : nat)
    (st : SessionPool) : SessionPool * (R + string) :=
  let '(st1, out) := callback s st in
  withSession_finish s out st1.

(** [new SessionPool(driver, minLimit, maxLimit)] at clock [t0]:
    [prepopulateSessions] starts a [createSession] per element of
    [_.range(minLimit)], then the keepalive interval is armed. *)
Definition prepopulateSessions (st : SessionPool) : SessionPool :=
  Nat.iter (Z.abs_nat (minLimit st))
    (λ st, (createSession ForPrepopulate st).1) st.

Definition new_SessionPool (minLimit maxLimit t0 : Z) : SessionPool :=
  set_sessionKeepAliveId true
    (prepopulateSessions
       {| minLimit := minLimit; maxLimit := maxLimit;
          heap := ∅; sessions := [];
          newSessionsRequested := 0; sessionsBeingDeleted := 0;
          sessionKeepAliveId := false;
          waiters := []; promises := ∅; timers := ∅;
          creates := ∅; deletes := ∅; rpcLog := [];
          now := t0; next := 0 |}).

(** What can happen to a pool: calls by its users and completions delivered
    by the event loop. *)
Inductive Event :=
| EvAcquire (timeout : Z)                  (* pool.acquire(timeout) *)
| EvCreated (c : nat) (sid : string) (ep : Endpoint)
                                           (* createSession resumes, a .then of acquire follows at once *)
| EvCreateFailed (c : nat) (err : string)  (* createSession rejects *)
| EvSessionAdded (c : nat) (sid : string) (ep : Endpoint)
                                           (* createSession resumes: the session joins the set *)
| EvAcquireThen (c : nat)                  (* the .then of acquire runs *)
| EvSessionAcquire (s : nat)               (* session.acquire() *)
| EvRelease (s : nat)                      (* session.release() *)
| EvSessionDelete (s : nat)                (* session.delete() *)
| EvDeleteSession (s : nat)                (* pool.deleteSession(session) *)
| EvDeleted (d : nat) (ok : bool)          (* session.delete() settles *)
| EvTimer (w : nat)
| EvTick
| EvKeepAlive                              (* the keepalive interval fires *)
| EvKeepAliveRetry (s : nat)               (* a keepAlive() on the session is retried *)
| EvDestroy.                               (* pool.destroy() *)

Definition step (st : SessionPool) (ev : Event) : SessionPool :=
  match ev with
  | EvAcquire timeout => (acquire timeout st).1
  | EvCreated c sid ep => createSession_resume c sid ep st
  | EvCreateFailed c err => createSession_reject c err st
  | EvSessionAdded c sid ep => createSession_added c sid ep st
  | EvAcquireThen c => acquire_then c st
  | EvSessionAcquire s => session_acquire s st
  | EvRelease s => session_release s st
  | EvSessionDelete s => session_delete s false st
  | EvDeleteSession s => (deleteSession s st).1
  | EvDeleted d ok => session_delete_settled d ok st
  | EvTimer w => timer_fire w st
  | EvTick => tick st
  | EvKeepAlive => keepAlive_fire st
  | EvKeepAliveRetry s => keepAlive_retry s st
  | EvDestroy => (destroy st).1
  end.

Definition run (st : SessionPool) (evs : list Event) : SessionPool :=
  foldl step st evs.

(** [withSession(callback, timeout)].  The method awaits the promise of
    [acquire]: [evs] is what happens to the pool until that await is over
    (nothing, when a free session is found).  Then the callback runs, or
    the error of [acquire] is thrown; [None] when the promise is still
    pending after [evs]. *)
Definition withSession {R : Type} (callback : Callback R) (timeout : Z)
    (st : SessionPool) (evs : list Event)
  : SessionPool * option (R + string) :=
  let '(st1, p) := acquire timeout st in
  let st' := run st1 evs in
  match outcome <$> promises st' !! p with
  | Some (Resolved s) =>
      let '(st2, out) := withSession_resume callback s st' in (st2, Some out)
  | Some (Rejected e) => (st', Some (inr e))
  | _ => (st', None)
  end.

(** ** Column, TableDescription and createTable *)

Section TableDescription.

(** Ydb.IType is a generated type. *)
Variable IType : Type.

Record Column := mkColumn {
  col_name : string;
  col_type : IType
}.

Record TableDescription := mkTableDescription {
  columns : list Column;
  primaryKeys : list string
}.

(** [new TableDescription(columns = [], primaryKeys = [])]. *)
Definition new_TableDescription (cols : option (list Column))
    (keys : option (list string)) : TableDescription :=
  {| columns := match cols with Some c => c | None => [] end;
     primaryKeys := match keys with Some k => k | None => [] end |}.

Definition withColumn (column : Column) (d : TableDescription)
  : TableDescription :=
  {| columns := columns d ++ [column]; primaryKeys := primaryKeys d |}.

Definition withPrimaryKey (key : string) (d : TableDescription)
  : TableDescription :=
  {| columns := columns d; primaryKeys := primaryKeys d ++ [key] |}.

(** [withPrimaryKeys(...keys)]: the loop pushes the keys one by one. *)
Definition withPrimaryKeys (keys : list string) (d : TableDescription)
  : TableDescription :=
  foldl (λ d key,
           {| columns := columns d; primaryKeys := primaryKeys d ++ [key] |})
        d keys.

(** One call in a chain of builder calls. *)
Inductive BuilderCall :=
| CallWithColumn (column : Column)
| CallWithPrimaryKey (key : string)
| CallWithPrimaryKeys (keys : list string).

Definition builder_apply (d : TableDescription) (c : BuilderCall)
  : TableDescription :=
  match c with
  | CallWithColumn column => withColumn column d
  | CallWithPrimaryKey key => withPrimaryKey key d
  | CallWithPrimaryKeys keys => withPrimaryKeys keys d
  end.

Record CreateTableRequest := mkCreateTableRequest {
  ct_sessionId : string;
  ct_path : string;
  ct_columns : list Column;
  ct_primaryKey : list string
}.

(** [createTable], up to its await: the request it sends. *)
Definition Session_createTable (s : Session) (tablePath : string)
    (description : TableDescription) : CreateTableRequest :=
  {| ct_sessionId := sessionId s;
     ct_path := (database (endpoint s) +:+ "/" +:+ tablePath)%string;
     ct_columns := columns description;
     ct_primaryKey := primaryKeys description |}.

End TableDescription.

End Table.

(* ===================================================================== *)
(** * driver.ts *)
(* ===================================================================== *)

Module Driver.

(** A [SessionService] object: the endpoint object it was built for, and
    its own identity (the rank of its construction). *)
Record SessionService := mkSessionService {
  svc_endpoint : nat;
  svc_id : nat
}.

(** [sessionCreators] is a Map keyed by Endpoint objects, that is by
    reference. *)
Record Driver := mkDriver {
  sessionCreators : gmap nat SessionService;
  constructed : nat            (* SessionService objects built so far *)
}.

Definition new_Driver : Driver :=
  {| sessionCreators := ∅; constructed := 0 |}.

(** [getSessionCreator], after [getEndpoint()] has answered [endpoint]. *)
Definition getSessionCreator (endpoint : nat) (d : Driver)
  : Driver * option SessionService :=
  let d1 :=
    match sessionCreators d !! endpoint with
    | Some _ => d
    | None =>
        {| sessionCreators :=
             <[endpoint := {| svc_endpoint := endpoint;
                              svc_id := constructed d |}]> (sessionCreators d);
           constructed := S (constructed d) |}
    end in
  (d1, sessionCreators d1 !! endpoint).

(** The listener of the discovery service's 'removed' event. *)
Definition on_removed (endpoint : nat) (d : Driver) : Driver :=
  {| sessionCreators := delete endpoint (sessionCreators d);
     constructed := constructed d |}.

Inductive DriverEvent :=
| GetSessionCreator (endpoint : nat)
| Removed (endpoint : nat).

Definition driver_step (d : Driver) (ev : DriverEvent) : Driver :=
  match ev with
  | GetSessionCreator endpoint => (getSessionCreator endpoint d).1
  | Removed endpoint => on_removed endpoint d
  end.

Definition driver_run (d : Driver) (evs : list DriverEvent) : Driver :=
  foldl driver_step d evs.

End Driver.

(* ===================================================================== *)
(** * Predicates and sample values used in the statements *)
(* ===================================================================== *)

Import Credentials.
Import Table.

(** Sample credentials, with the gRPC address of the IAM service as the
    configured endpoint, and a service built from them. *)
Definition demo_credentials : IIAmCredentials :=
  {| serviceAccountId := "ajexample"; accessKeyId := "key-1";
     privateKey := "PEM"; iamEndpoint := "iam.api.cloud.yandex.net:443" |}.

Definition demo_service : IamAuthService :=
  new_IamAuthService demo_credentials "/Root/db".

Definition demo_endpoint : Endpoint :=
  {| host := "node-1"; port := 2135; database := "/Root/db" |}.

(** A pool of limits 1 and 1 whose prepopulated session has arrived. *)
Definition one_session_pool : SessionPool :=
  run (new_SessionPool 1 1 0) [EvCreated 0%nat "s1" demo_endpoint].

(** A callback that returns 7, and one that throws. *)
Definition returns7 : Callback Z := λ _ st, (st, inl 7).
Definition throws : Callback Z := λ _ st, (st, inr "boom"%string).

(** Well-formed pool states: references are allocated below [next], the
    waiter array has no duplicate, an armed timer belongs to a queued
    waiter and is not overdue, and a creation in flight is no waiter. *)
Record wf (st : SessionPool) : Prop := mkWf {
  wf_heap : forall r, is_Some (heap st !! r) -> (r < next st)%nat;
  wf_promises : forall p, is_Some (promises st !! p) -> (p < next st)%nat;
  wf_creates : forall c, is_Some (creates st !! c) ->
                 (c < next st)%nat /\ c ∉ waiters st;
  wf_nodup : NoDup (waiters st);
  wf_waiters : forall w, w ∈ waiters st -> (w < next st)%nat;
  wf_timers : forall w dt, timers st !! w = Some dt ->
                w ∈ waiters st /\ now st <= dt.1
}.

(** The part of the state that waiters, their promises and their timers
    live in. *)
Definition queue_of (st : SessionPool) :=
  (waiters st, promises st, timers st, creates st, now st).

(** Waiter [w] is parked in the queue and nothing has called its [resolve]
    or [reject]. *)
Definition queued (w : nat) (st : SessionPool) : Prop :=
  w ∈ waiters st /\ promises st !! w = Some new_Promise /\
  creates st !! w = None.

(** Waiter [w] has left the queue, its timer is not armed, and its promise
    has been settled to [o] by exactly one call. *)
Definition settled_once (w : nat) (o : Settled) (st : SessionPool) : Prop :=
  (w ∉ waiters st) /\ timers st !! w = None /\ creates st !! w = None /\
  (w < next st)%nat /\
  promises st !! w = Some {| outcome := o; settleCalls := 1 |}.

(** The three situations of a waiter enqueued by [acquire(T)] at clock
    [t], after the events [evs] that followed: still parked with its timer
    armed for the deadline set by [setTimeout], handed a released session,
    or timed out. *)
Definition waiter_status (st1 : SessionPool) (w : nat) (T t : Z)
    (evs : list Event) : Prop :=
  let st' := run st1 evs in
  (queued w st' /\
   timers st' !! w = Some (t + setTimeout_delay T, T)) \/
  (exists s evs1 evs2,
     evs = evs1 ++ EvRelease s :: evs2 /\
     head (waiters (run st1 evs1)) = Some w /\
     is_Some (heap (run st1 evs1) !! s) /\
     settled_once w (Resolved s) st') \/
  settled_once w (Rejected (timeout_message T)) st'.

(** Every promise resolved with a session, and every [.then] of [acquire]
    that is due for one, names an existing session object. *)
Definition resolved_ok (st : SessionPool) : Prop :=
  (forall p pr s, promises st !! p = Some pr -> outcome pr = Resolved s ->
     is_Some (heap st !! s)) /\
  (forall c r, creates st !! c = Some (ThenPending r) ->
     is_Some (heap st !! r)).

(** The session behind [s] exists and its deletion has started. *)
Definition deletion_started (s : nat) (st : SessionPool) : Prop :=
  exists o, heap st !! s = Some o /\ Session_isDeleted o = true.

(** The cache of an IamAuthService configured for database [db] is sound:
    a token that carries a timestamp is not empty, and every metadata
    returned so far has the two headers. *)
Definition iam_cache_ok (db : string) (w : AuthWorld) : Prop :=
  dbName (service w) = db /\
  (tokenTimestamp (service w) ≠ None -> token (service w) ≠ ""%string) /\
  (resuming w ≠ 0%nat -> tokenTimestamp (service w) ≠ None) /\
  forall m, inl m ∈ returned w ->
    exists tok, tok ≠ ""%string /\
      m = [("x-ydb-auth-ticket", tok); ("x-ydb-database", db)]%string.

(** What [n] rounds of the polling loop of MetadataAuthService do. *)
Definition polling_trace (n : nat) : list TokenAction :=
  concat (replicate n [DoSleep TRIES_INTERVAL; DoGetToken]).

Definition is_sleep (a : TokenAction) : bool :=
  match a with DoSleep _ => true | _ => false end.

Definition is_getToken (a : TokenAction) : bool :=
  match a with DoGetToken => true | _ => false end.

Definition is_initialize (a : TokenAction) : bool :=
  match a with DoInitialize => true | _ => false end.

Definition count_actions (p : TokenAction -> bool) (trace : list TokenAction)
  : nat :=
  length (List.filter p trace).

(** Token services: one that has its token at once, one whose token
    arrives at the fourth call, one that never has any. *)
Definition ready_token_service : ITokenService :=
  {| getToken := λ _, Some "tok"%string; initialize := Some None |}.

Definition slow_token_service : ITokenService :=
  {| getToken := λ k, if (k <? 3)%nat then None else Some "tok"%string;
     initialize := Some None |}.

Definition silent_token_service : ITokenService :=
  {| getToken := λ _, None; initialize := None |}.

(** [w1] stands before [w2] in the queue [l]. *)
Definition precedes (w1 w2 : nat) (l : list nat) : Prop :=
  exists l1 l2 l3, l = l1 ++ w1 :: l2 ++ w2 :: l3.

(** The session behind [s] exists and is taken: its free flag is off. *)
Definition held (s : nat) (st : SessionPool) : Prop :=
  exists o, heap st !! s = Some o /\ free o = false.

(** The session set has no duplicate and holds references of existing
    session objects only. *)
Definition sessions_ok (st : SessionPool) : Prop :=
  NoDup (sessions st) /\ forall r, r ∈ sessions st -> is_Some (heap st !! r).

(** The KeepAlive requests of a request log. *)
Definition keepalive_rpcs (log : list Rpc) : list Rpc :=
  List.filter (λ rq, match rq with KeepAliveRpc _ => true | _ => false end) log.



(** The columns and the key names that a chain of builder calls adds. *)
Definition calls_columns {IType : Type} (calls : list (BuilderCall IType))
  : list (Column IType) :=
  concat (map (λ c, match c with
                    | CallWithColumn _ column => [column]
                    | _ => []
                    end) calls).

Definition calls_keys {IType : Type} (calls : list (BuilderCall IType))
  : list string :=
  concat (map (λ c, match c with
                    | CallWithColumn _ _ => []
                    | CallWithPrimaryKey _ key => [key]
                    | CallWithPrimaryKeys _ keys => keys
                    end) calls).

(** Every cached SessionService is filed under the endpoint it was built
    for, and was built before now. *)
Definition creators_ok (d : Driver.Driver) : Prop :=
  forall e c, Driver.sessionCreators d !! e = Some c ->
    Driver.svc_endpoint c = e /\ (Driver.svc_id c < Driver.constructed d)%nat.

(* ===================================================================== *)
(** * Properties of credentials.ts *)
(* ===================================================================== *)

Lemma expired_spec svc now :
  expired svc now = true <->
  tokenTimestamp svc = None \/
  exists ts, tokenTimestamp svc = Some ts /\ now - ts > 120000.
Proof.
  unfold expired, tokenExpirationTimeout.
  destruct (tokenTimestamp svc) as [ts|]; split.
  - intros H. apply bool_decide_eq_true in H. right. exists ts. split; [done|lia].
  - intros [H|[ts' [H Hlt]]]; [done|]. inversion H; subst.
    apply bool_decide_eq_true. lia.
  - intros _. by left.
  - done.
Qed.

Lemma truthy_token_None t :
  truthy_token t = None <-> t = None \/ t = Some ""%string.
Proof.
  destruct t as [s|]; simpl.
  - destruct (decide (s = ""%string)) as [->|Hne]; split.
    + intros _. by right.
    + done.
    + done.
    + intros [H|H]; [done|]. by inversion H.
  - split; auto.
Qed.

Lemma updateToken_resume_token svc tok now :
  tok ≠ ""%string ->
  updateToken_resume svc (Response (Some tok)) now =
    ({| token := tok; dbName := dbName svc; tokenTimestamp := Some now;
        iamCredentials := iamCredentials svc |}, None).
Proof.
  intros Hne. unfold updateToken_resume, truthy_token.
  by rewrite decide_False.
Qed.

Lemma updateToken_resume_empty svc t now :
  t = None \/ t = Some ""%string ->
  updateToken_resume svc (Response t) now =
    (svc, Some "Received empty token from IAM!"%string).
Proof. by intros [-> | ->]. Qed.

Lemma app_singleton_neq {A} (l : list A) (x : A) : l ≠ l ++ [x].
Proof.
  intros H. apply (f_equal length) in H. rewrite length_app in H.
  simpl in H. lia.
Qed.

(** C6.  A token exchange is sent exactly when the cached token is expired
    (never fetched, or more than 120 s old); otherwise the call answers at
    once with the two headers, the ticket being the cached token.  A
    response without an iamToken (missing or empty) fails the call with
    "Received empty token from IAM!" and leaves token and timestamp as they
    were; a response with a token caches it with the time of arrival.
    Whatever interleaves, a call that returns metadata returns the two
    headers with the token that is cached when it returns, and a request
    is sent by a call that finds the token expired and by nothing else. *)
Theorem getAuthMetadata_refresh_iff_expired svc now :
  (* the exchange is sent iff the token is expired *)
  (getAuthMetadata_start svc now = Suspended (sendTokenRequest svc now) <->
     (tokenTimestamp svc = None \/
      exists ts, tokenTimestamp svc = Some ts /\ now - ts > 120000)) /\
  (getAuthMetadata_start svc now =
     Returned [("x-ydb-auth-ticket", token svc);
               ("x-ydb-database", dbName svc)]%string <->
     exists ts, tokenTimestamp svc = Some ts /\ now - ts <= 120000) /\
  (* the response arrives, on whatever the service has become by then *)
  (forall svc1 now1,
     updateToken_resume svc1 (Response None) now1 =
       (svc1, Some "Received empty token from IAM!"%string) /\
     updateToken_resume svc1 (Response (Some ""%string)) now1 =
       (svc1, Some "Received empty token from IAM!"%string) /\
     forall tok, tok ≠ ""%string ->
       updateToken_resume svc1 (Response (Some tok)) now1 =
         ({| token := tok; dbName := dbName svc1; tokenTimestamp := Some now1;
             iamCredentials := iamCredentials svc1 |}, None)) /\
  (* a call with nothing interleaved *)
  (forall resp now',
     (expired svc now = true ->
      resp = Response None \/ resp = Response (Some ""%string) ->
      getAuthMetadata svc now resp now' =
        (svc, [sendTokenRequest svc now],
         inr "Received empty token from IAM!"%string)) /\
     (forall tok, expired svc now = true -> tok ≠ ""%string ->
        resp = Response (Some tok) ->
        getAuthMetadata svc now resp now' =
          ({| token := tok; dbName := dbName svc; tokenTimestamp := Some now';
              iamCredentials := iamCredentials svc |},
           [sendTokenRequest svc now],
           inl [("x-ydb-auth-ticket", tok);
                ("x-ydb-database", dbName svc)]%string)) /\
     (expired svc now = false ->
        getAuthMetadata svc now resp now' =
          (svc, [],
           inl [("x-ydb-auth-ticket", token svc);
                ("x-ydb-database", dbName svc)]%string))) /\
  (* under any interleaving *)
  (forall w ev m,
     returned (auth_step w ev) = returned w ++ [inl m] ->
     m = [("x-ydb-auth-ticket", token (service (auth_step w ev)));
          ("x-ydb-database", dbName (service (auth_step w ev)))]%string) /\
  (forall w t now1,
     t = None \/ t = Some ""%string ->
     service (auth_step w (SettleToken (Response t) now1)) = service w /\
     returned (auth_step w (SettleToken (Response t) now1)) =
       returned w ++ [inr "Received empty token from IAM!"%string]) /\
  (forall w ev,
     sent (auth_step w ev) =
       match ev with
       | Call now1 =>
           if expired (service w) now1
           then sent w ++ [sendTokenRequest (service w) now1]
           else sent w
       | _ => sent w
       end).
Proof.
  pose proof (expired_spec svc now) as Hexp.
  split; [|split; [|split; [|split; [|split; [|split]]]]].
  - unfold getAuthMetadata_start. destruct (expired svc now) eqn:He.
    + split; [intros _; by apply Hexp|done].
    + split; [done|]. intros H. apply Hexp in H. done.
  - unfold getAuthMetadata_start, expired, tokenExpirationTimeout in *.
    destruct (tokenTimestamp svc) as [ts|] eqn:Hts.
    + destruct (bool_decide (120 * 1000 < now - ts)) eqn:Hb.
      * apply bool_decide_eq_true in Hb. split; [done|].
        intros (ts' & [= <-] & Hle). lia.
      * apply bool_decide_eq_false in Hb. split; [|done].
        intros _. exists ts. split; [done|lia].
    + split; [done|]. by intros (ts' & Hx & _).
  - intros svc1 now1. split; [done|]. split; [done|].
    intros tok Hne. by apply updateToken_resume_token.
  - intros resp now'. unfold getAuthMetadata, getAuthMetadata_start,
      getAuthMetadata_resume.
    split; [|split].
    + intros He Hresp. rewrite He.
      assert (Hu : updateToken_resume svc resp now' =
                   (svc, Some "Received empty token from IAM!"%string))
        by by destruct Hresp as [-> | ->].
      by rewrite Hu.
    + intros tok He Hne ->. rewrite He.
      by rewrite (updateToken_resume_token svc tok now' Hne).
    + intros He. by rewrite He.
  - intros w ev m. destruct ev as [now0|resp now0|resp now0|]; simpl.
    + destruct (getAuthMetadata_start (service w) now0) as [m0|rq] eqn:Hs;
        simpl; intros Hr.
      * apply app_inv_head in Hr. inversion Hr; subst.
        unfold getAuthMetadata_start in Hs.
        destruct (expired (service w) now0); by inversion Hs.
      * by destruct (app_singleton_neq (returned w) (inl m)).
    + unfold getAuthMetadata_resume.
      destruct (updateToken_resume (service w) resp now0) as [svc' [e|]];
        simpl; intros Hr; apply app_inv_head in Hr; by inversion Hr.
    + destruct (updateToken_resume (service w) resp now0) as [svc' [e|]];
        simpl; intros Hr.
      * apply app_inv_head in Hr. by inversion Hr.
      * by destruct (app_singleton_neq (returned w) (inl m)).
    + destruct (resuming w); simpl; intros Hr.
      * by destruct (app_singleton_neq (returned w) (inl m)).
      * apply app_inv_head in Hr. by inversion Hr.
  - intros w t now1 Ht. unfold auth_step.
    by rewrite (updateToken_resume_empty (service w) t now1 Ht).
  - intros w ev. destruct ev as [now0|resp now0|resp now0|]; simpl.
    + unfold getAuthMetadata_start. by destruct (expired (service w) now0).
    + unfold getAuthMetadata_resume.
      by destruct (updateToken_resume (service w) resp now0) as [svc' [e|]].
    + by destruct (updateToken_resume (service w) resp now0) as [svc' [e|]].
    + by destruct (resuming w).
Qed.

(** A fresh service at clock 1000: the token "t1" arrives at 1500 and is
    returned; an empty response fails the call and changes nothing. *)
Lemma getAuthMetadata_refresh_iff_expired_witness :
  getAuthMetadata demo_service 1000 (Response (Some "t1"%string)) 1500 =
    ({| token := "t1"; dbName := "/Root/db"; tokenTimestamp := Some 1500;
        iamCredentials := demo_credentials |},
     [sendTokenRequest demo_service 1000],
     inl [("x-ydb-auth-ticket", "t1"); ("x-ydb-database", "/Root/db")]%string) /\
  getAuthMetadata demo_service 1000 (Response None) 1500 =
    (demo_service, [sendTokenRequest demo_service 1000],
     inr "Received empty token from IAM!"%string).
Proof.
  destruct (getAuthMetadata_refresh_iff_expired demo_service 1000)
    as (_ & _ & _ & H & _).
  destruct (H (Response (Some "t1"%string)) 1500) as (_ & H1 & _).
  destruct (H (Response None) 1500) as (H2 & _).
  split.
  - apply (H1 "t1"%string); [reflexivity|discriminate|reflexivity].
  - apply H2; [reflexivity|by left].
Defined.

Lemma auth_run_app w evs1 evs2 :
  auth_run w (evs1 ++ evs2) = auth_run (auth_run w evs1) evs2.
Proof. apply foldl_app. Qed.

(** Entering [getAuthMetadata] never touches the cached token: only the
    arrival of a response does. *)
Lemma auth_calls_keep_service w nows :
  service (auth_run w (map Call nows)) = service w.
Proof.
  revert w. induction nows as [|now nows IH]; intros w; [done|].
  change (auth_run w (map Call (now :: nows)))
    with (auth_run (auth_step w (Call now)) (map Call nows)).
  rewrite IH.
  unfold auth_step. by destruct (getAuthMetadata_start (service w) now).
Qed.

Lemma auth_calls_sent w nows :
  Forall (λ now, expired (service w) now = true) nows ->
  sent (auth_run w (map Call nows)) =
  sent w ++ map (sendTokenRequest (service w)) nows.
Proof.
  revert w. induction nows as [|now nows IH]; intros w Hall.
  - simpl. by rewrite app_nil_r.
  - inversion Hall as [|? ? Hnow Hrest]; subst.
    change (auth_run w (map Call (now :: nows)))
      with (auth_run (auth_step w (Call now)) (map Call nows)).
    assert (Hstep : auth_step w (Call now) =
      {| service := service w; sent := sent w ++ [sendTokenRequest (service w) now];
         returned := returned w; resuming := resuming w |}).
    { unfold auth_step, getAuthMetadata_start. by rewrite Hnow. }
    rewrite Hstep. rewrite IH; simpl; [|done].
    by rewrite <- app_assoc.
Qed.

(** C7, as the code has it.  Every call that enters [getAuthMetadata] while
    the cached token is expired sends its own token request: calls entered
    at times [nows], before any response has arrived, send one request
    each.  The refresh is not single-flight. *)
Theorem getAuthMetadata_one_request_per_caller svc nows :
  Forall (λ now, expired svc now = true) nows ->
  sent (auth_run (auth_world svc) (map Call nows)) =
    map (sendTokenRequest svc) nows /\
  length (sent (auth_run (auth_world svc) (map Call nows))) = length nows.
Proof.
  intros Hall.
  pose proof (auth_calls_sent (auth_world svc) nows Hall) as Hsent.
  simpl in Hsent. rewrite Hsent. split; [done|]. by rewrite length_map.
Qed.

Lemma getAuthMetadata_one_request_per_caller_witness :
  length (sent (auth_run (auth_world demo_service)
                   (map Call [1000; 1000; 1001]))) = 3%nat.
Proof.
  apply (getAuthMetadata_one_request_per_caller demo_service [1000; 1000; 1001]).
  repeat constructor.
Defined.

(** C7 as stated fails: two callers that enter while the token is expired
    send two token requests. *)
Lemma getAuthMetadata_not_single_flight :
  ~ (forall svc nows,
       Forall (λ now, expired svc now = true) nows ->
       (length (sent (auth_run (auth_world svc) (map Call nows))) <= 1)%nat).
Proof.
  intros H. specialize (H demo_service [1000; 1000]).
  assert (Hall : Forall (λ now, expired demo_service now = true) [1000; 1000])
    by repeat constructor.
  specialize (H Hall). vm_compute in H. lia.
Qed.

Lemma round_seconds_plus_hour now :
  round_seconds (now + jwtExpirationTimeout) = round_seconds now + 3600.
Proof.
  unfold round_seconds, jwtExpirationTimeout.
  replace (now + 3600 * 1000 + 500) with (now + 500 + 3600 * 1000) by lia.
  by rewrite Z.div_add.
Qed.

(** C8, as the code has it.  Every refresh signs a new JWT with PS256, kid
    the access key id, iss the service account id, iat the clock in whole
    seconds, exp one hour later, and sends it under a 10 s timeout; aud is
    the fixed URL https://iam.api.cloud.yandex.net/iam/v1/tokens whatever
    IAM endpoint the credentials configure. *)
Theorem getJwtRequest_claims svc now :
  let call := getJwtRequest svc now in
  algorithm (jwt_options call) = "PS256"%string /\
  keyid (jwt_options call) = accessKeyId (iamCredentials svc) /\
  jwt_key call = privateKey (iamCredentials svc) /\
  iss (jwt_payload call) = serviceAccountId (iamCredentials svc) /\
  aud (jwt_payload call) =
    "https://iam.api.cloud.yandex.net/iam/v1/tokens"%string /\
  iat (jwt_payload call) = round_seconds now /\
  exp (jwt_payload call) = round_seconds now + 3600 /\
  (expired svc now = true ->
   getAuthMetadata_start svc now =
     Suspended {| req_jwt := call; req_timeout := 10000 |}).
Proof.
  simpl. repeat split; try done.
  - apply round_seconds_plus_hour.
  - intros He. unfold getAuthMetadata_start. by rewrite He.
Qed.

Lemma getJwtRequest_claims_witness :
  getAuthMetadata_start demo_service 1700000000499 =
    Suspended
      {| req_jwt :=
           {| jwt_payload :=
                {| iss := "ajexample";
                   aud := "https://iam.api.cloud.yandex.net/iam/v1/tokens";
                   iat := 1700000000; exp := 1700003600 |};
              jwt_key := "PEM";
              jwt_options := {| algorithm := "PS256"; keyid := "key-1" |} |};
         req_timeout := 10000 |}.
Proof.
  apply (getJwtRequest_claims demo_service 1700000000499). reflexivity.
Defined.

(** C8 as stated fails: the audience is not the configured endpoint. *)
Lemma getJwtRequest_aud_not_configured_endpoint :
  ~ (forall svc now,
       aud (jwt_payload (getJwtRequest svc now)) =
       iamEndpoint (iamCredentials svc)).
Proof.
  intros H. specialize (H demo_service 0). vm_compute in H. discriminate H.
Qed.

(* ===================================================================== *)
(** * Properties of Session *)
(* ===================================================================== *)

Lemma Session_delete_deleted s :
  Session_isDeleted (Session_delete s).1 = true.
Proof.
  unfold Session_delete. by destruct (Session_isDeleted s) eqn:E.
Qed.

Lemma Session_delete_again s :
  Session_delete (Session_delete s).1 = ((Session_delete s).1, DeleteNoop).
Proof.
  pose proof (Session_delete_deleted s) as H.
  unfold Session_delete at 1. by rewrite H.
Qed.

Lemma Session_delete_times_deleted n s :
  Session_isDeleted s = true -> Session_delete_times n s = (s, []).
Proof.
  intros H. induction n as [|n IH]; [done|].
  simpl. unfold Session_delete. rewrite H. by rewrite IH.
Qed.

(** C4.  [delete] on a session already Deleted changes nothing and sends
    nothing; otherwise it marks the session Deleted and sends exactly one
    DeleteSession; a second call, and any number of further calls, leave
    the session and the requests sent as the first call left them. *)
Theorem Session_delete_idempotent (s : Session) :
  (Session_isDeleted s = true -> Session_delete s = (s, DeleteNoop)) /\
  (Session_isDeleted s = false ->
     Session_delete s =
       ({| sessionId := sessionId s; endpoint := endpoint s;
           beingDeleted := true; free := free s |},
        DeleteIssued (DeleteSessionRpc (sessionId s))) /\
     (Session_delete_times 1 s).2 = [DeleteSessionRpc (sessionId s)]) /\
  Session_delete (Session_delete s).1 = ((Session_delete s).1, DeleteNoop) /\
  Session_delete_times 2 s = Session_delete_times 1 s /\
  (forall n, Session_delete_times (S n) s = Session_delete_times 1 s).
Proof.
  assert (Hn : forall n, Session_delete_times (S n) s = Session_delete_times 1 s).
  { intros n. simpl. destruct (Session_delete s) as [s1 c] eqn:E.
    assert (Hd : Session_isDeleted s1 = true).
    { pose proof (Session_delete_deleted s) as H. by rewrite E in H. }
    by rewrite (Session_delete_times_deleted n s1 Hd). }
  split; [|split; [|split; [|split]]].
  - intros H. unfold Session_delete. by rewrite H.
  - intros H. simpl. unfold Session_delete. by rewrite H.
  - apply Session_delete_again.
  - apply (Hn 1%nat).
  - exact Hn.
Qed.

Lemma Session_delete_idempotent_witness :
  Session_delete (new_Session demo_endpoint "s1") =
    ({| sessionId := "s1"; endpoint := demo_endpoint;
        beingDeleted := true; free := true |},
     DeleteIssued (DeleteSessionRpc "s1")) /\
  (Session_delete_times 1 (new_Session demo_endpoint "s1")).2 =
    [DeleteSessionRpc "s1"].
Proof.
  destruct (Session_delete_idempotent (new_Session demo_endpoint "s1"))
    as (_ & H & _).
  apply H. reflexivity.
Defined.

(** C5.  [executeQuery] called without a transaction control sends AUTO_TX,
    which begins a serializable read-write transaction and commits; a
    control that is passed, Existing or New, is sent as it is. *)
Theorem executeQuery_txControl (TypedValue : Type) (s : Session)
    (query : QueryArg) (params : option (list (string * TypedValue))) :
  rq_txControl TypedValue (Session_executeQuery TypedValue s query params None)
    = INewTransaction serializableReadWrite true /\
  (forall txId,
     rq_txControl TypedValue
       (Session_executeQuery TypedValue s query params
          (Some (IExistingTransaction txId)))
     = IExistingTransaction txId) /\
  (forall settings commit,
     rq_txControl TypedValue
       (Session_executeQuery TypedValue s query params
          (Some (INewTransaction settings commit)))
     = INewTransaction settings commit).
Proof. by repeat split. Qed.

(* ===================================================================== *)
(** * Properties of SessionPool *)
(* ===================================================================== *)

Lemma run_app st evs1 evs2 : run st (evs1 ++ evs2) = run (run st evs1) evs2.
Proof. apply foldl_app. Qed.

Lemma run_snoc st evs ev : run st (evs ++ [ev]) = step (run st evs) ev.
Proof. by rewrite run_app. Qed.

(** ** The waiter array *)

Lemma indexOf_from_elem w l i :
  w ∈ l ->
  exists k : nat, indexOf_from w l i = i + Z.of_nat k /\ l !! k = Some w.
Proof.
  revert i. induction l as [|x l IH]; intros i Hin.
  - by apply elem_of_nil in Hin.
  - simpl. destruct (decide (x = w)) as [->|Hne].
    + exists 0%nat. split; [lia|done].
    + apply elem_of_cons in Hin as [->|Hin]; [done|].
      destruct (IH (i + 1) Hin) as [k [Hk Hl]].
      exists (S k). split; [lia|done].
Qed.

(** Removing a queued waiter by [splice(indexOf(waiter), 1)] cuts exactly
    that waiter out of the array. *)
Lemma splice1_indexOf w l :
  w ∈ l ->
  exists l1 l2, l = l1 ++ w :: l2 /\ splice1 (indexOf w l) l = l1 ++ l2.
Proof.
  intros Hin. destruct (indexOf_from_elem w l 0 Hin) as [k [Hk Hl]].
  exists (take k l), (drop (S k) l). split.
  - symmetry. by apply take_drop_middle.
  - unfold splice1, indexOf. rewrite Hk.
    pose proof (lookup_lt_Some l k w Hl) as Hlt.
    rewrite bool_decide_eq_false_2 by lia.
    replace (Z.to_nat (Z.min (0 + Z.of_nat k) (Z.of_nat (length l)))) with k by lia.
    apply delete_take_drop.
Qed.

Lemma NoDup_cut (w : nat) l1 l2 :
  NoDup (l1 ++ w :: l2) ->
  NoDup (l1 ++ l2) /\ (w ∉ l1 ++ l2) /\
  (forall x, x ∈ l1 ++ l2 -> x ∈ l1 ++ w :: l2) /\
  (forall x, x ∈ l1 ++ w :: l2 -> x ≠ w -> x ∈ l1 ++ l2).
Proof.
  intros Hnd. apply NoDup_app in Hnd as [H1 [H12 H2]].
  apply NoDup_cons in H2 as [Hw H2].
  split; [|split; [|split]].
  - apply NoDup_app. split; [done|]. split; [|done].
    intros x Hx Hx2. apply (H12 x Hx). by right.
  - intros Hin. apply elem_of_app in Hin as [Hin|Hin]; [|done].
    apply (H12 w Hin). by left.
  - intros x Hx. apply elem_of_app in Hx as [Hx|Hx]; apply elem_of_app; [by left|].
    right. by right.
  - intros x Hx Hne. apply elem_of_app in Hx as [Hx|Hx]; apply elem_of_app; [by left|].
    apply elem_of_cons in Hx as [->|Hx]; [done|by right].
Qed.

(** ** Well-formed pool states *)

Lemma wf_frame st st' :
  wf st ->
  queue_of st' = queue_of st ->
  (next st <= next st')%nat ->
  (forall r, is_Some (heap st' !! r) -> is_Some (heap st !! r)) ->
  wf st'.
Proof.
  intros [H1 H2 H3 H4 H5 H6] Hq Hn Hh.
  unfold queue_of in Hq. inversion Hq as [[Hw Hp Ht Hc Hnow]].
  split.
  - intros r Hr. apply Hh, H1 in Hr. lia.
  - rewrite Hp. intros p Hp'. apply H2 in Hp'. lia.
  - rewrite Hc, Hw. intros c Hc'. apply H3 in Hc' as [? ?]. split; [lia|done].
  - by rewrite Hw.
  - rewrite Hw. intros w Hw'. apply H5 in Hw'. lia.
  - rewrite Ht, Hw, Hnow. done.
Qed.

Lemma is_Some_alter {A} (f : A -> A) (m : gmap nat A) i j :
  is_Some (alter f i m !! j) <-> is_Some (m !! j).
Proof.
  destruct (decide (i = j)) as [->|Hne].
  - rewrite lookup_alter_eq. by rewrite fmap_is_Some.
  - by rewrite lookup_alter_ne.
Qed.

Lemma session_delete_frame s chained st :
  queue_of (session_delete s chained st) = queue_of st /\
  (next st <= next (session_delete s chained st))%nat /\
  (forall r, is_Some (heap (session_delete s chained st) !! r) ->
             is_Some (heap st !! r)).
Proof.
  unfold session_delete.
  destruct (heap st !! s) as [o|] eqn:Ho; [|by auto].
  destruct (Session_delete o) as [o' [|rq]] eqn:Hd.
  - destruct chained; simpl; auto.
  - simpl. split; [done|]. split; [lia|].
    intros r Hr. destruct (decide (s = r)) as [->|Hne].
    + by rewrite Ho.
    + by rewrite lookup_insert_ne in Hr.
Qed.

Lemma deleteSession_frame s st :
  queue_of (deleteSession s st).1 = queue_of st /\
  (next st <= next (deleteSession s st).1)%nat /\
  (forall r, is_Some (heap (deleteSession s st).1 !! r) ->
             is_Some (heap st !! r)).
Proof.
  unfold deleteSession.
  destruct (heap st !! s) as [o|] eqn:Ho; [|by auto].
  destruct (Session_isDeleted o); [by auto|]. simpl.
  apply (session_delete_frame s true
           (set_sessionsBeingDeleted (sessionsBeingDeleted st + 1) st)).
Qed.

Lemma destroy_fold_frame l acc :
  let res := foldl (λ (acc : SessionPool * Awaited) s,
                      let '(st', a) := deleteSession s acc.1 in (st', acc.2 ++ a))
                   acc l in
  queue_of res.1 = queue_of acc.1 /\
  (next acc.1 <= next res.1)%nat /\
  (forall r, is_Some (heap res.1 !! r) -> is_Some (heap acc.1 !! r)).
Proof.
  revert acc. induction l as [|s l IH]; intros acc; simpl; [by auto|].
  specialize (IH (let '(st', a) := deleteSession s acc.1 in (st', acc.2 ++ a))).
  simpl in IH. destruct IH as [Hq [Hn Hh]].
  pose proof (deleteSession_frame s acc.1) as [Hq' [Hn' Hh']].
  destruct (deleteSession s acc.1) as [st' a]. simpl in *.
  split; [congruence|]. split; [lia|]. auto.
Qed.

Lemma destroy_frame st :
  queue_of (destroy st).1 = queue_of st /\
  (next st <= next (destroy st).1)%nat /\
  (forall r, is_Some (heap (destroy st).1 !! r) -> is_Some (heap st !! r)).
Proof.
  unfold destroy.
  apply (destroy_fold_frame (sessions (set_sessionKeepAliveId false st))
           (set_sessionKeepAliveId false st, [])).
Qed.

Lemma setTimeout_delay_pos ms : 1 <= setTimeout_delay ms.
Proof.
  unfold setTimeout_delay.
  destruct (bool_decide (ms < 1)) eqn:E1; simpl; [lia|].
  destruct (bool_decide (2147483647 < ms)) eqn:E2; simpl; [lia|].
  apply bool_decide_eq_false in E1. lia.
Qed.

Lemma setTimeout_delay_le ms : 0 < ms -> setTimeout_delay ms <= ms.
Proof.
  intros Hpos. unfold setTimeout_delay.
  destruct (bool_decide (ms < 1)) eqn:E1; simpl.
  - apply bool_decide_eq_true in E1. lia.
  - destruct (bool_decide (2147483647 < ms)) eqn:E2; simpl; lia.
Qed.

Lemma wf_acquire timeout st : wf st -> wf (acquire timeout st).1.
Proof.
  intros Hwf. pose proof Hwf as [H1 H2 H3 H4 H5 H6].
  unfold acquire. destruct (acquire_decision st) as [s| |]; simpl.
  - split; simpl; try done.
    + intros r Hr. apply is_Some_alter, H1 in Hr. lia.
    + intros p Hp. destruct (decide (next st = p)) as [<-|Hne]; [lia|].
      rewrite lookup_insert_ne in Hp by done. apply H2 in Hp. lia.
    + intros c Hc. apply H3 in Hc as [? ?]. split; [lia|done].
    + intros w Hw. apply H5 in Hw. lia.
  - split; simpl; try done.
    + intros r Hr. apply H1 in Hr. lia.
    + intros p Hp. destruct (decide (next st = p)) as [<-|Hne]; [lia|].
      rewrite lookup_insert_ne in Hp by done. apply H2 in Hp. lia.
    + intros c Hc. destruct (decide (next st = c)) as [<-|Hne].
      * split; [lia|]. intros Hin. apply H5 in Hin. lia.
      * rewrite lookup_insert_ne in Hc by done.
        apply H3 in Hc as [? ?]. split; [lia|done].
    + intros w Hw. apply H5 in Hw. lia.
  - assert (Hfresh : next st ∉ waiters st).
    { intros Hin. apply H5 in Hin. lia. }
    split; simpl.
    + intros r Hr. apply H1 in Hr. lia.
    + intros p Hp. destruct (decide (next st = p)) as [<-|Hne]; [lia|].
      rewrite lookup_insert_ne in Hp by done. apply H2 in Hp. lia.
    + intros c Hc. apply H3 in Hc as [Hlt Hnin]. split; [lia|].
      intros Hin. apply elem_of_app in Hin as [Hin|Hin]; [done|].
      apply list_elem_of_singleton in Hin. lia.
    + apply NoDup_app. split; [done|]. split; [|apply NoDup_singleton].
      intros x Hx Hx'. apply list_elem_of_singleton in Hx'. by subst.
    + intros w Hw. apply elem_of_app in Hw as [Hw|Hw].
      * apply H5 in Hw. lia.
      * apply list_elem_of_singleton in Hw. lia.
    + intros w dt Hdt. destruct (bool_decide (timeout ≠ 0)).
      * destruct (decide (next st = w)) as [<-|Hne].
        -- rewrite lookup_insert_eq in Hdt. inversion Hdt; subst; simpl.
           split; [apply elem_of_app; right; by left|].
           pose proof (setTimeout_delay_pos timeout). lia.
        -- rewrite lookup_insert_ne in Hdt by done.
           apply H6 in Hdt as [? ?]. split; [apply elem_of_app; by left|done].
      * apply H6 in Hdt as [? ?]. split; [apply elem_of_app; by left|done].
Qed.

Lemma wf_createSession_resume c sid ep st :
  wf st -> wf (createSession_resume c sid ep st).
Proof.
  intros Hwf. pose proof Hwf as [H1 H2 H3 H4 H5 H6].
  unfold createSession_resume.
  destruct (creates st !! c) as [k|] eqn:Hc; [|done].
  assert (Hheap : forall r,
    is_Some (<[next st := new_Session ep sid]> (heap st) !! r) ->
    (r < S (next st))%nat).
  { intros r Hr.
    destruct (decide (next st = r)) as [<-|Hne]; [lia|].
    rewrite lookup_insert_ne in Hr by done. apply H1 in Hr. lia. }
  assert (Hcr : forall c', is_Some (delete c (creates st) !! c') ->
                           (c' < S (next st))%nat /\ c' ∉ waiters st).
  { intros c' Hc'. destruct (decide (c = c')) as [->|Hne].
    - rewrite lookup_delete_eq in Hc'. by destruct Hc'.
    - rewrite lookup_delete_ne in Hc' by done.
      apply H3 in Hc' as [? ?]. split; [lia|done]. }
  assert (Hw : forall w, w ∈ waiters st -> (w < S (next st))%nat).
  { intros w Hw. apply H5 in Hw. lia. }
  destruct k as [| |r']; [| |exact Hwf]; split; simpl; try done.
  - intros p Hp. apply H2 in Hp. lia.
  - intros r Hr. by apply is_Some_alter, Hheap in Hr.
  - intros p Hp. apply is_Some_alter, H2 in Hp. lia.
Qed.

Lemma wf_createSession_added c sid ep st :
  wf st -> wf (createSession_added c sid ep st).
Proof.
  intros Hwf. pose proof Hwf as [H1 H2 H3 H4 H5 H6].
  unfold createSession_added.
  destruct (creates st !! c) as [k|] eqn:Hc; [|done].
  assert (Hheap : forall r,
    is_Some (<[next st := new_Session ep sid]> (heap st) !! r) ->
    (r < S (next st))%nat).
  { intros r Hr.
    destruct (decide (next st = r)) as [<-|Hne]; [lia|].
    rewrite lookup_insert_ne in Hr by done. apply H1 in Hr. lia. }
  assert (Hw : forall w, w ∈ waiters st -> (w < S (next st))%nat).
  { intros w Hw. apply H5 in Hw. lia. }
  assert (Hp : forall p, is_Some (promises st !! p) -> (p < S (next st))%nat).
  { intros p Hp. apply H2 in Hp. lia. }
  destruct k as [| |r']; [| |exact Hwf]; split; simpl; try done.
  - intros c' Hc'. destruct (decide (c = c')) as [->|Hne].
    + rewrite lookup_delete_eq in Hc'. by destruct Hc'.
    + rewrite lookup_delete_ne in Hc' by done.
      apply H3 in Hc' as [? ?]. split; [lia|done].
  - intros c' Hc'. destruct (decide (c = c')) as [<-|Hne].
    + destruct (H3 c) as [? ?]; [by rewrite Hc|]. split; [lia|done].
    + rewrite lookup_insert_ne in Hc' by done.
      apply H3 in Hc' as [? ?]. split; [lia|done].
Qed.

Lemma wf_acquire_then c st : wf st -> wf (acquire_then c st).
Proof.
  intros Hwf. pose proof Hwf as [H1 H2 H3 H4 H5 H6].
  unfold acquire_then.
  destruct (creates st !! c) as [[| |r]|] eqn:Hc; try done.
  split; simpl; try done.
  - intros r' Hr. by apply is_Some_alter, H1 in Hr.
  - intros p Hp. by apply is_Some_alter, H2 in Hp.
  - intros c' Hc'. destruct (decide (c = c')) as [->|Hne].
    + rewrite lookup_delete_eq in Hc'. by destruct Hc'.
    + rewrite lookup_delete_ne in Hc' by done. by apply H3.
Qed.

Lemma wf_createSession_reject c err st :
  wf st -> wf (createSession_reject c err st).
Proof.
  intros Hwf. pose proof Hwf as [H1 H2 H3 H4 H5 H6].
  unfold createSession_reject.
  destruct (creates st !! c) as [k|] eqn:Hc; [|done].
  assert (Hcr : forall c', is_Some (delete c (creates st) !! c') ->
                           (c' < next st)%nat /\ c' ∉ waiters st).
  { intros c' Hc'. destruct (decide (c = c')) as [->|Hne].
    - rewrite lookup_delete_eq in Hc'. by destruct Hc'.
    - rewrite lookup_delete_ne in Hc' by done. by apply H3. }
  destruct k as [| |r']; [| |exact Hwf]; split; simpl; try done.
  intros p Hp. by apply is_Some_alter, H2 in Hp.
Qed.

Lemma wf_session_acquire s st : wf st -> wf (session_acquire s st).
Proof.
  intros Hwf. apply (wf_frame st); [done|done|simpl; lia|].
  simpl. intros r Hr. by apply is_Some_alter in Hr.
Qed.

Lemma wf_on_SESSION_RELEASE s st : wf st -> wf (on_SESSION_RELEASE s st).
Proof.
  intros Hwf. pose proof Hwf as [H1 H2 H3 H4 H5 H6].
  unfold on_SESSION_RELEASE.
  destruct (waiters st) as [|w rest] eqn:Hws; [done|].
  apply NoDup_cons in H4 as [Hw Hrest].
  split; simpl.
  - intros r Hr. by apply is_Some_alter, H1 in Hr.
  - intros p Hp. by apply is_Some_alter, H2 in Hp.
  - intros c Hc. apply H3 in Hc as [? Hnin]. split; [done|].
    intros Hin. apply Hnin. by right.
  - done.
  - intros w' Hw'. apply H5. by right.
  - intros w' dt Hdt. destruct (decide (w = w')) as [->|Hne].
    + by rewrite lookup_delete_eq in Hdt.
    + rewrite lookup_delete_ne in Hdt by done.
      apply H6 in Hdt as [Hin ?]. split; [|done].
      apply elem_of_cons in Hin as [->|Hin]; done.
Qed.

Lemma wf_session_release s st : wf st -> wf (session_release s st).
Proof.
  intros Hwf. unfold session_release.
  destruct (heap st !! s); [|done].
  apply wf_on_SESSION_RELEASE.
  apply (wf_frame st); [done|done|simpl; lia|].
  simpl. intros r Hr. by apply is_Some_alter in Hr.
Qed.

Lemma wf_session_delete s chained st : wf st -> wf (session_delete s chained st).
Proof.
  intros Hwf. pose proof (session_delete_frame s chained st) as [? [? ?]].
  by apply (wf_frame st).
Qed.

Lemma wf_deleteSession s st : wf st -> wf (deleteSession s st).1.
Proof.
  intros Hwf. pose proof (deleteSession_frame s st) as [? [? ?]].
  by apply (wf_frame st).
Qed.

Lemma wf_session_delete_settled d ok st :
  wf st -> wf (session_delete_settled d ok st).
Proof.
  intros Hwf. unfold session_delete_settled.
  destruct (deletes st !! d) as [[s chained]|]; [|done].
  destruct (ok && chained); by apply (wf_frame st).
Qed.

Lemma wf_timer_fire w st : wf st -> wf (timer_fire w st).
Proof.
  intros Hwf. pose proof Hwf as [H1 H2 H3 H4 H5 H6].
  unfold timer_fire.
  destruct (timers st !! w) as [[deadline timeout]|] eqn:Ht; [|done].
  destruct (bool_decide (deadline <= now st)); [|done].
  destruct (H6 w _ Ht) as [Hin _].
  destruct (splice1_indexOf w (waiters st) Hin) as [l1 [l2 [Hl Hs]]].
  rewrite Hs. rewrite Hl in H4.
  destruct (NoDup_cut w l1 l2 H4) as [Hnd [Hnin [Hsub Hsup]]].
  split; simpl.
  - done.
  - intros p Hp. by apply is_Some_alter, H2 in Hp.
  - intros c Hc. apply H3 in Hc as [? Hc]. split; [done|].
    intros Hc'. apply Hc. rewrite Hl. by apply Hsub.
  - done.
  - intros w' Hw'. apply H5. rewrite Hl. by apply Hsub.
  - intros w' dt Hdt. destruct (decide (w = w')) as [->|Hne].
    + by rewrite lookup_delete_eq in Hdt.
    + rewrite lookup_delete_ne in Hdt by done.
      apply H6 in Hdt as [Hin' ?]. split; [|done].
      apply Hsup; [by rewrite <- Hl|done].
Qed.

Lemma wf_tick st : wf st -> wf (tick st).
Proof.
  intros Hwf. pose proof Hwf as [H1 H2 H3 H4 H5 H6].
  unfold tick.
  destruct (bool_decide _) eqn:Hall; [|done].
  apply bool_decide_eq_true in Hall.
  split; simpl; try done.
  intros w dt Hdt. split; [by apply (H6 w dt)|].
  specialize (Hall w dt Hdt). simpl in Hall. lia.
Qed.

Lemma wf_keepAlive_fire st : wf st -> wf (keepAlive_fire st).
Proof.
  intros Hwf. unfold keepAlive_fire.
  destruct (sessionKeepAliveId st); [|done].
  by apply (wf_frame st).
Qed.

Lemma wf_keepAlive_retry s st : wf st -> wf (keepAlive_retry s st).
Proof.
  intros Hwf. unfold keepAlive_retry.
  destruct (heap st !! s); [|done].
  destruct (keepAlive_sent _ _); [|done].
  by apply (wf_frame st).
Qed.

Lemma wf_destroy st : wf st -> wf (destroy st).1.
Proof.
  intros Hwf. pose proof (destroy_frame st) as [? [? ?]].
  by apply (wf_frame st).
Qed.

Lemma wf_step st ev : wf st -> wf (step st ev).
Proof.
  intros Hwf. destruct ev; simpl.
  - by apply wf_acquire.
  - by apply wf_createSession_resume.
  - by apply wf_createSession_reject.
  - by apply wf_createSession_added.
  - by apply wf_acquire_then.
  - by apply wf_session_acquire.
  - by apply wf_session_release.
  - by apply wf_session_delete.
  - by apply wf_deleteSession.
  - by apply wf_session_delete_settled.
  - by apply wf_timer_fire.
  - by apply wf_tick.
  - by apply wf_keepAlive_fire.
  - by apply wf_keepAlive_retry.
  - by apply wf_destroy.
Qed.

Lemma wf_run st evs : wf st -> wf (run st evs).
Proof.
  revert st. induction evs as [|ev evs IH]; intros st Hwf; [done|].
  simpl. apply IH. by apply wf_step.
Qed.

Lemma wf_createSession k st : wf st -> wf (createSession k st).1.
Proof.
  intros [H1 H2 H3 H4 H5 H6]. unfold createSession. split; simpl; try done.
  - intros r Hr. apply H1 in Hr. lia.
  - intros p Hp. apply H2 in Hp. lia.
  - intros c Hc. destruct (decide (next st = c)) as [<-|Hne].
    + split; [lia|]. intros Hin. apply H5 in Hin. lia.
    + rewrite lookup_insert_ne in Hc by done.
      apply H3 in Hc as [? ?]. split; [lia|done].
  - intros w Hw. apply H5 in Hw. lia.
Qed.

Lemma wf_new_SessionPool minL maxL t0 : wf (new_SessionPool minL maxL t0).
Proof.
  unfold new_SessionPool, prepopulateSessions.
  apply (wf_frame (Nat.iter (Z.abs_nat minL)
           (λ st, (createSession ForPrepopulate st).1)
           (mkSessionPool minL maxL ∅ [] 0 0 false [] ∅ ∅ ∅ ∅ [] t0 0)));
    [|done|simpl; lia|done].
  simpl. induction (Z.abs_nat minL) as [|n IH]; simpl.
  - split; simpl; try done.
    + intros r Hr. rewrite lookup_empty in Hr. by destruct Hr.
    + intros r Hr. rewrite lookup_empty in Hr. by destruct Hr.
    + intros r Hr. rewrite lookup_empty in Hr. by destruct Hr.
    + apply NoDup_nil_2.
    + intros w Hw. by apply elem_of_nil in Hw.
  - by apply wf_createSession.
Qed.

(** Every state a pool can be in: the constructor followed by any events. *)
Lemma wf_reachable minL maxL t0 evs : wf (run (new_SessionPool minL maxL t0) evs).
Proof. apply wf_run, wf_new_SessionPool. Qed.

(** ** One waiter, from enqueueing to settlement *)

Lemma queued_frame w st st' :
  queue_of st' = queue_of st -> queued w st ->
  queued w st' /\ timers st' !! w = timers st !! w.
Proof.
  unfold queue_of, queued. intros Hq. inversion Hq as [[Hw Hp Ht Hc Hn]].
  by rewrite Hw, Hp, Ht, Hc.
Qed.

Lemma settled_frame w o st st' :
  queue_of st' = queue_of st -> (next st <= next st')%nat ->
  settled_once w o st -> settled_once w o st'.
Proof.
  unfold queue_of, settled_once. intros Hq Hn.
  inversion Hq as [[Hw Hp Ht Hc Hnow]].
  rewrite Hw, Hp, Ht, Hc. intros (? & ? & ? & ? & ?).
  repeat split; try done. lia.
Qed.

Lemma step_queued st ev w :
  wf st -> queued w st ->
  (queued w (step st ev) /\ timers (step st ev) !! w = timers st !! w) \/
  (exists s, ev = EvRelease s /\ is_Some (heap st !! s) /\
             head (waiters st) = Some w /\
             settled_once w (Resolved s) (step st ev)) \/
  (exists d T, ev = EvTimer w /\ timers st !! w = Some (d, T) /\
               d <= now st /\
               settled_once w (Rejected (timeout_message T)) (step st ev)).
Proof.
  intros Hwf (Hin & Hp & Hc). pose proof Hwf as [H1 H2 H3 H4 H5 H6].
  pose proof (H5 w Hin) as Hlt.
  assert (Hq : queued w st) by done.
  destruct ev as [timeout|c sid ep|c err|c sid ep|c|s|s|s|s|d ok|w'| | |s|];
    cbn [step].
  - (* acquire *)
    left. unfold acquire. destruct (acquire_decision st) as [s| |]; simpl.
    + unfold queued; simpl. rewrite lookup_insert_ne by lia. done.
    + unfold queued; simpl. rewrite !lookup_insert_ne by lia. done.
    + unfold queued; simpl. rewrite lookup_insert_ne by lia.
      split; [split; [apply elem_of_app; by left|done]|].
      destruct (bool_decide (timeout ≠ 0)); [|done].
      by rewrite lookup_insert_ne by lia.
  - (* createSession resumes *)
    left. unfold createSession_resume.
    destruct (creates st !! c) as [k|] eqn:Hk; [|done].
    assert (c ≠ w) by congruence.
    destruct k; unfold queued; simpl;
      rewrite ?lookup_alter_ne, ?lookup_delete_ne by done; done.
  - (* createSession rejects *)
    left. unfold createSession_reject.
    destruct (creates st !! c) as [k|] eqn:Hk; [|done].
    assert (c ≠ w) by congruence.
    destruct k; unfold queued; simpl;
      rewrite ?lookup_alter_ne, ?lookup_delete_ne by done; done.
  - (* the session joins the set *)
    left. unfold createSession_added.
    destruct (creates st !! c) as [k|] eqn:Hk; [|done].
    assert (c ≠ w) by congruence.
    destruct k; unfold queued; simpl;
      rewrite ?lookup_insert_ne, ?lookup_delete_ne by done; done.
  - (* the .then of acquire *)
    left. unfold acquire_then.
    destruct (creates st !! c) as [[| |r]|] eqn:Hk; try done.
    assert (c ≠ w) by congruence.
    unfold queued; simpl.
    rewrite ?lookup_alter_ne, ?lookup_delete_ne by done. done.
  - left. by apply (queued_frame w st).
  - (* release *)
    unfold session_release. destruct (heap st !! s) as [o|] eqn:Ho; [|by left].
    unfold on_SESSION_RELEASE; simpl.
    destruct (waiters st) as [|w' rest] eqn:Hws; [by apply elem_of_nil in Hin|].
    apply NoDup_cons in H4 as [Hw' Hrest].
    destruct (decide (w' = w)) as [->|Hne].
    + right; left. exists s. split; [done|]. split; [by eexists|].
      split; [done|]. unfold settled_once; simpl.
      rewrite lookup_delete_eq, lookup_alter_eq, Hp. done.
    + left. unfold queued; simpl.
      rewrite lookup_alter_ne, lookup_delete_ne by done.
      apply elem_of_cons in Hin as [->|Hin]; done.
  - left. apply (queued_frame w st); [|done]. apply session_delete_frame.
  - left. apply (queued_frame w st); [|done]. apply deleteSession_frame.
  - left. apply (queued_frame w st); [|done].
    unfold session_delete_settled.
    destruct (deletes st !! d) as [[s chained]|]; [|done].
    by destruct (ok && chained).
  - (* a timer fires *)
    unfold timer_fire.
    destruct (timers st !! w') as [[deadline timeout]|] eqn:Ht; [|by left].
    destruct (bool_decide (deadline <= now st)) eqn:Hdue; [|by left].
    apply bool_decide_eq_true in Hdue.
    destruct (H6 w' _ Ht) as [Hin' _].
    destruct (splice1_indexOf w' (waiters st) Hin') as [l1 [l2 [Hl Hs]]].
    rewrite Hs. rewrite Hl in H4.
    destruct (NoDup_cut w' l1 l2 H4) as [Hnd [Hnin [Hsub Hsup]]].
    destruct (decide (w' = w)) as [->|Hne].
    + right; right. exists deadline, timeout.
      split; [done|]. split; [done|]. split; [done|].
      unfold settled_once; simpl.
      rewrite lookup_delete_eq, lookup_alter_eq, Hp. done.
    + left. unfold queued; simpl.
      rewrite lookup_alter_ne, lookup_delete_ne by done.
      split; [|done]. split; [|done].
      apply Hsup; [by rewrite <- Hl|done].
  - left. unfold tick. destruct (bool_decide _); done.
  - left. apply (queued_frame w st); [|done].
    unfold keepAlive_fire. by destruct (sessionKeepAliveId st).
  - left. apply (queued_frame w st); [|done].
    unfold keepAlive_retry. destruct (heap st !! s); [|done].
    by destruct (keepAlive_sent _ _).
  - left. apply (queued_frame w st); [|done]. apply destroy_frame.
Qed.

Lemma step_settled st ev w o :
  wf st -> settled_once w o st -> settled_once w o (step st ev).
Proof.
  intros Hwf Hs. pose proof Hs as (Hnin & Ht & Hc & Hlt & Hp).
  pose proof Hwf as [H1 H2 H3 H4 H5 H6].
  destruct ev as [timeout|c sid ep|c err|c sid ep|c|s|s|s|s|d ok|w'| | |s|];
    cbn [step].
  - (* acquire *)
    unfold acquire. destruct (acquire_decision st) as [s| |];
      unfold settled_once; simpl.
    + rewrite lookup_insert_ne by lia. repeat split; try done. lia.
    + rewrite !lookup_insert_ne by lia. repeat split; try done. lia.
    + rewrite lookup_insert_ne by lia.
      split; [|split; [|repeat split; try done; lia]].
      * intros Hin. apply elem_of_app in Hin as [Hin|Hin]; [done|].
        apply list_elem_of_singleton in Hin. lia.
      * destruct (bool_decide (timeout ≠ 0)); [|done].
        by rewrite lookup_insert_ne by lia.
  - unfold createSession_resume.
    destruct (creates st !! c) as [k|] eqn:Hk; [|done].
    assert (c ≠ w) by congruence.
    destruct k; unfold settled_once; simpl;
      rewrite ?lookup_alter_ne, ?lookup_delete_ne by done;
      repeat split; try done; lia.
  - unfold createSession_reject.
    destruct (creates st !! c) as [k|] eqn:Hk; [|done].
    assert (c ≠ w) by congruence.
    destruct k; unfold settled_once; simpl;
      rewrite ?lookup_alter_ne, ?lookup_delete_ne by done; done.
  - unfold createSession_added.
    destruct (creates st !! c) as [k|] eqn:Hk; [|done].
    assert (c ≠ w) by congruence.
    destruct k; unfold settled_once; simpl;
      rewrite ?lookup_insert_ne, ?lookup_delete_ne by done;
      repeat split; try done; lia.
  - unfold acquire_then.
    destruct (creates st !! c) as [[| |r]|] eqn:Hk; try done.
    assert (c ≠ w) by congruence.
    unfold settled_once; simpl.
    rewrite ?lookup_alter_ne, ?lookup_delete_ne by done. done.
  - by apply (settled_frame w o st).
  - unfold session_release. destruct (heap st !! s) as [obj|] eqn:Ho; [|done].
    unfold on_SESSION_RELEASE; simpl.
    destruct (waiters st) as [|w' rest] eqn:Hws; [done|].
    assert (w' ≠ w). { intros ->. apply Hnin. by left. }
    unfold settled_once; simpl.
    rewrite lookup_alter_ne, lookup_delete_ne by done.
    repeat split; try done. intros Hin. apply Hnin. by right.
  - pose proof (session_delete_frame s false st) as [? [? ?]].
    by apply (settled_frame w o st).
  - pose proof (deleteSession_frame s st) as [? [? ?]].
    by apply (settled_frame w o st).
  - apply (settled_frame w o st); [| |done];
      unfold session_delete_settled;
      destruct (deletes st !! d) as [[s chained]|]; try done;
      by destruct (ok && chained).
  - unfold timer_fire.
    destruct (timers st !! w') as [[deadline timeout]|] eqn:Ht'; [|done].
    destruct (bool_decide (deadline <= now st)); [|done].
    assert (w' ≠ w) by congruence.
    destruct (H6 w' _ Ht') as [Hin' _].
    destruct (splice1_indexOf w' (waiters st) Hin') as [l1 [l2 [Hl Hsp]]].
    rewrite Hsp. rewrite Hl in H4.
    destruct (NoDup_cut w' l1 l2 H4) as [Hnd [Hnin' [Hsub Hsup]]].
    unfold settled_once; simpl.
    rewrite lookup_alter_ne, lookup_delete_ne by done.
    repeat split; try done. intros Hin. apply Hnin. rewrite Hl. by apply Hsub.
  - unfold tick. destruct (bool_decide _); done.
  - apply (settled_frame w o st); [| |done];
      unfold keepAlive_fire; by destruct (sessionKeepAliveId st).
  - apply (settled_frame w o st); [| |done];
      unfold keepAlive_retry; destruct (heap st !! s); try done;
      by destruct (keepAlive_sent _ _).
  - pose proof (destroy_frame st) as [? [? ?]].
    by apply (settled_frame w o st).
Qed.

Lemma filter_ne_notin (w : nat) (l : list nat) :
  w ∉ l -> filter (λ x, x ≠ w) l = l.
Proof.
  induction l as [|x l IH]; intros Hnin; [done|].
  apply not_elem_of_cons in Hnin as [Hne Hnin].
  rewrite filter_cons_True by done. by rewrite IH.
Qed.

Lemma filter_ne_cut (w : nat) (l1 l2 : list nat) :
  NoDup (l1 ++ w :: l2) ->
  filter (λ x, x ≠ w) (l1 ++ w :: l2) = l1 ++ l2.
Proof.
  intros Hnd. apply NoDup_app in Hnd as (H1 & H12 & H2).
  apply NoDup_cons in H2 as [Hw H2].
  rewrite filter_app, filter_cons_False by (intros H; by apply H).
  rewrite !filter_ne_notin; [done|done|].
  intros Hin. apply (H12 w Hin). by left.
Qed.

Lemma acquire_enqueue timeout st :
  acquire_decision st = Enqueue ->
  acquire timeout st =
    (set_next (S (next st))
       (set_waiters (waiters st ++ [next st])
         (set_timers
            (if bool_decide (timeout ≠ 0)
             then <[next st := (now st + setTimeout_delay timeout, timeout)]>
                    (timers st)
             else timers st)
            (set_promises (<[next st := new_Promise]> (promises st)) st))),
     next st).
Proof. intros H. unfold acquire. by rewrite H. Qed.

Lemma waiter_status_run st T evs :
  wf st -> 0 < T -> acquire_decision st = Enqueue ->
  waiter_status (acquire T st).1 (acquire T st).2 T (now st) evs.
Proof.
  intros Hwf HT Hdec.
  assert (Hwf1 : wf (acquire T st).1) by by apply wf_acquire.
  rewrite (acquire_enqueue T st Hdec) in *. cbn [fst snd] in *.
  set (st1 := set_next _ _) in *.
  induction evs as [|ev evs IH] using rev_ind.
  - left. unfold queued, st1; simpl.
    rewrite bool_decide_eq_true_2 by lia. rewrite !lookup_insert_eq.
    split; [split; [apply elem_of_app; right; by left|split; [done|]]|done].
    destruct (creates st !! next st) as [k|] eqn:Hk; [|done].
    destruct (wf_creates st Hwf (next st)) as [Hlt _]; [by eexists|lia].
  - unfold waiter_status. rewrite run_snoc.
    pose proof (wf_run st1 evs Hwf1) as Hwf'.
    destruct IH as [[Hq Hd] | [(s & evs1 & evs2 & He & Hh & Hs & Hset) | Hset]].
    + destruct (step_queued (run st1 evs) ev (next st) Hwf' Hq)
        as [[Hq' Ht'] | [(s & -> & Hs & Hh & Hset) | (d' & T' & -> & Ht' & Hdue & Hset)]].
      * left. split; [done|]. by rewrite Ht'.
      * right; left. exists s, evs, []. done.
      * right; right. rewrite Hd in Ht'. by inversion Ht'; subst.
    + right; left. exists s, evs1, (evs2 ++ [ev]).
      split; [by rewrite He, <- app_assoc|]. split; [done|]. split; [done|].
      by apply step_settled.
    + right; right. by apply step_settled.
Qed.

(** C2.  A call [acquire(T)] with [T > 0] that finds no free session and no
    room for a new one parks a waiter at the back of the queue and arms its
    timer for [setTimeout]'s delay, which is [T] up to 2^31 - 1 ms.  The
    waiter's promise is settled by at most one call.  While it is pending
    the waiter is queued with that timer armed, and the clock does not pass
    the deadline: once the deadline is reached the timer callback takes
    the waiter out of the queue and rejects its promise with "No session
    became available within timeout of T ms" ([T] printed as JavaScript
    prints a number), and before the deadline it does not run; and a
    session released while the waiter heads the queue resolves the promise
    with that session, taken again, and clears the timer.  So once more
    than [T] ms have passed the waiter is out of the queue, either handed a
    session or failed; a failure is always that error; and a resolution
    hands over the session that was released while the waiter headed the
    queue. *)
Theorem acquire_waiter_timeout minL maxL t0 evs0 T evs :
  0 < T ->
  acquire_decision (run (new_SessionPool minL maxL t0) evs0) = Enqueue ->
  let st := run (new_SessionPool minL maxL t0) evs0 in
  let st1 := (acquire T st).1 in
  let w := (acquire T st).2 in
  let st' := run st1 evs in
  let deadline := now st + setTimeout_delay T in
  waiters st1 = waiters st ++ [w] /\
  (promises st1 !! w = Some new_Promise /\
   timers st1 !! w = Some (deadline, T) /\
   (T <= 2147483647 -> deadline = now st + T) /\
   (2147483647 < T -> deadline = now st + 1)) /\
  (exists pr, promises st' !! w = Some pr /\ (settleCalls pr <= 1)%nat) /\
  (promises st' !! w = Some new_Promise ->
     w ∈ waiters st' /\ timers st' !! w = Some (deadline, T) /\
     now st' <= deadline /\
     (deadline <= now st' ->
        let st2 := step st' (EvTimer w) in
        promises st2 !! w =
          Some {| outcome :=
                    Rejected ("No session became available within timeout of "
                                +:+ number_to_string T +:+ " ms")%string;
                  settleCalls := 1 |} /\
        waiters st2 = filter (λ x, x ≠ w) (waiters st') /\
        (w ∉ waiters st2) /\ timers st2 !! w = None /\
        step st' EvTick = st') /\
     (now st' < deadline -> step st' (EvTimer w) = st') /\
     (forall s, head (waiters st') = Some w -> is_Some (heap st' !! s) ->
        let st2 := step st' (EvRelease s) in
        promises st2 !! w =
          Some {| outcome := Resolved s; settleCalls := 1 |} /\
        waiters st2 = tail (waiters st') /\
        (w ∉ waiters st2) /\ timers st2 !! w = None /\
        held s st2)) /\
  (now st + T < now st' ->
     (w ∉ waiters st') /\
     ((exists s, promises st' !! w =
                   Some {| outcome := Resolved s; settleCalls := 1 |}) \/
      promises st' !! w =
        Some {| outcome := Rejected (timeout_message T); settleCalls := 1 |})) /\
  (forall err n,
     promises st' !! w = Some {| outcome := Rejected err; settleCalls := n |} ->
     err = ("No session became available within timeout of "
              +:+ number_to_string T +:+ " ms")%string /\
     (w ∉ waiters st') /\ timers st' !! w = None) /\
  (forall s n,
     promises st' !! w = Some {| outcome := Resolved s; settleCalls := n |} ->
     (w ∉ waiters st') /\ timers st' !! w = None /\
     exists evs1 evs2,
       evs = evs1 ++ EvRelease s :: evs2 /\
       head (waiters (run st1 evs1)) = Some w) /\
  (T <= 2 ^ 53 -> number_to_string T = decimal T).
Proof.
  intros HT Hdec st st1 w st' deadline.
  assert (Hwf : wf st) by apply wf_reachable.
  pose proof (waiter_status_run st T evs Hwf HT Hdec) as Hstat.
  pose proof (waiter_status_run st T [] Hwf HT Hdec) as Hstat0.
  assert (Hwf' : wf st') by (apply wf_run; by apply wf_acquire).
  fold st1 w in Hstat, Hstat0. unfold waiter_status in Hstat, Hstat0.
  fold st' deadline in Hstat. fold deadline in Hstat0.
  change (run st1 []) with st1 in Hstat0.
  assert (Hmsg : T <= 2 ^ 53 -> number_to_string T = decimal T).
  { intros Hle. unfold number_to_string.
    by rewrite bool_decide_eq_true_2 by lia. }
  split.
  { unfold st1, w. by rewrite (acquire_enqueue T st Hdec). }
  split.
  { destruct Hstat0 as [[(Hin & Hp & Hc) Hd]
                       | [(s & evs1 & evs2 & He & _) | Hset]].
    - split; [done|]. split; [done|]. split.
      + intros Hle. unfold deadline, setTimeout_delay.
        rewrite !bool_decide_eq_false_2 by lia. done.
      + intros Hgt. unfold deadline, setTimeout_delay.
        rewrite bool_decide_eq_false_2 by lia.
        rewrite bool_decide_eq_true_2 by lia. done.
    - by destruct evs1.
    - destruct Hset as (Hnin & _). exfalso. apply Hnin. unfold st1, w.
      rewrite (acquire_enqueue T st Hdec). simpl.
      apply elem_of_app. right. by left. }
  destruct Hstat as [[(Hin & Hp & Hc) Hd]
                    | [(s & evs1 & evs2 & He & Hh & Hs & Hset) | Hset]].
  - destruct (wf_timers st' Hwf' w _ Hd) as [_ Hnow]. simpl in Hnow.
    assert (Hle : deadline <= now st + T).
    { unfold deadline. pose proof (setTimeout_delay_le T HT). lia. }
    split; [exists new_Promise; split; [done|simpl; lia]|].
    split.
    { intros _. split; [done|]. split; [done|]. split; [done|].
      split; [|split].
      - intros Hdue. cbn [step]. unfold timer_fire, tick. rewrite Hd.
        rewrite bool_decide_eq_true_2 by done.
        destruct (splice1_indexOf w (waiters st') Hin) as [l1 [l2 [Hl Hsp]]].
        pose proof (wf_nodup st' Hwf') as Hnd. rewrite Hl in Hnd.
        destruct (NoDup_cut w l1 l2 Hnd) as [_ [Hnin _]].
        simpl. rewrite Hsp, lookup_alter_eq, Hp, lookup_delete_eq.
        split; [done|]. split; [by rewrite Hl, filter_ne_cut|].
        split; [done|]. split; [done|].
        rewrite bool_decide_eq_false_2; [done|].
        intros Hall. specialize (Hall w _ Hd). simpl in Hall. lia.
      - intros Hearly. cbn [step]. unfold timer_fire. rewrite Hd.
        by rewrite bool_decide_eq_false_2 by lia.
      - intros s Hhead [o Ho]. cbn [step]. unfold session_release.
        rewrite Ho. unfold on_SESSION_RELEASE. simpl.
        destruct (waiters st') as [|w' rest] eqn:Hws; [done|].
        simpl in Hhead. inversion Hhead; subst w'.
        pose proof (wf_nodup st' Hwf') as Hnd. rewrite Hws in Hnd.
        apply NoDup_cons in Hnd as [Hnin _]. simpl.
        rewrite lookup_alter_eq, Hp, lookup_delete_eq.
        split; [done|]. split; [done|]. split; [done|]. split; [done|].
        exists (Session_acquire (Session_release o)). simpl.
        by rewrite !lookup_alter_eq, Ho. }
    split; [intros Hlate; lia|].
    split; [intros ? ? Hp'; rewrite Hp in Hp'; inversion Hp'|].
    split; [intros ? ? Hp'; rewrite Hp in Hp'; inversion Hp'|done].
  - destruct Hset as (Hnin & Ht & Hc & Hlt & Hp).
    split; [eexists; split; [exact Hp|simpl; lia]|].
    split; [intros Hp'; rewrite Hp in Hp'; inversion Hp'|].
    split; [intros _; split; [done|left; by exists s]|].
    split; [intros ? ? Hp'; rewrite Hp in Hp'; inversion Hp'|].
    split; [|done].
    intros ? ? Hp'; rewrite Hp in Hp'; inversion Hp'; subst.
    split; [done|]. split; [done|]. by exists evs1, evs2.
  - destruct Hset as (Hnin & Ht & Hc & Hlt & Hp).
    split; [eexists; split; [exact Hp|simpl; lia]|].
    split; [intros Hp'; rewrite Hp in Hp'; inversion Hp'|].
    split; [intros _; split; [done|by right]|].
    split; [intros ? ? Hp'; rewrite Hp in Hp'; inversion Hp'; subst; done|].
    split; [|done].
    intros ? ? Hp'; rewrite Hp in Hp'; inversion Hp'.
Qed.

(** A pool of capacity 0 with one creation under way: the next acquirer has
    to wait.  In one run nothing is released: after 100 ms the timer is due
    and rejects the waiter.  In another the session under creation arrives
    and is released by its holder: the waiter gets it. *)
Lemma acquire_waiter_timeout_witness :
  let st := run (new_SessionPool 0 0 0) [EvAcquire 0] in
  (let st' := run (acquire 100 st).1 (replicate 100 EvTick) in
   now st' = 100 /\
   promises (step st' (EvTimer 1%nat)) !! 1%nat =
     Some {| outcome :=
               Rejected "No session became available within timeout of 100 ms";
             settleCalls := 1 |} /\
   (1%nat ∉ waiters (step st' (EvTimer 1%nat))) /\
   step st' EvTick = st') /\
  (let st' := run (acquire 100 st).1
                [EvCreated 0%nat "s1" demo_endpoint; EvTick] in
   promises (step st' (EvRelease 2%nat)) !! 1%nat =
     Some {| outcome := Resolved 2; settleCalls := 1 |} /\
   waiters (step st' (EvRelease 2%nat)) = [] /\
   timers (step st' (EvRelease 2%nat)) !! 1%nat = None).
Proof.
  cbv zeta. split.
  - pose proof (acquire_waiter_timeout 0 0 0 [EvAcquire 0] 100
                  (replicate 100 EvTick) ltac:(lia) eq_refl) as H.
    cbv zeta in H. destruct H as (_ & _ & _ & Hpend & _).
    destruct Hpend as (_ & _ & _ & Hdue & _); [vm_compute; reflexivity|].
    destruct Hdue as (Hp & _ & Hnin & _ & Htick); [vm_compute; discriminate|].
    split; [vm_compute; reflexivity|].
    split; [exact Hp|]. split; [exact Hnin|exact Htick].
  - pose proof (acquire_waiter_timeout 0 0 0 [EvAcquire 0] 100
                  [EvCreated 0%nat "s1" demo_endpoint; EvTick]
                  ltac:(lia) eq_refl) as H.
    cbv zeta in H. destruct H as (_ & _ & _ & Hpend & _).
    destruct Hpend as (_ & _ & _ & _ & _ & Hrel); [vm_compute; reflexivity|].
    destruct (Hrel 2%nat) as (Hp & Hw & _ & Ht & _);
      [vm_compute; reflexivity|vm_compute; by eexists|].
    split; [exact Hp|]. split; [exact Hw|exact Ht].
Defined.

(** ** Deletion dominates the free flag *)

Lemma Session_apply_keeps_deleted o op :
  Session_isDeleted o = true -> Session_isDeleted (Session_apply o op) = true.
Proof.
  intros H. destruct op; simpl; try done.
  unfold Session_delete. by rewrite H.
Qed.

Lemma Session_ops_keep_deleted o ops :
  Session_isDeleted o = true ->
  Session_isDeleted (foldl Session_apply o ops) = true.
Proof.
  revert o. induction ops as [|op ops IH]; intros o H; [done|].
  simpl. apply IH. by apply Session_apply_keeps_deleted.
Qed.

Lemma deletion_started_alter s s' f (st st' : SessionPool) :
  heap st' = alter f s' (heap st) ->
  (forall o, Session_isDeleted o = true -> Session_isDeleted (f o) = true) ->
  deletion_started s st -> deletion_started s st'.
Proof.
  intros Hh Hf (o & Ho & Hd). unfold deletion_started. rewrite Hh.
  destruct (decide (s' = s)) as [->|Hne].
  - exists (f o). rewrite lookup_alter_eq, Ho. split; [done|by apply Hf].
  - exists o. by rewrite lookup_alter_ne.
Qed.

Lemma deletion_started_same s (st st' : SessionPool) :
  heap st' = heap st -> deletion_started s st -> deletion_started s st'.
Proof. intros Hh (o & Ho & Hd). exists o. by rewrite Hh. Qed.

Lemma deletion_started_session_delete s s' chained st :
  deletion_started s st -> deletion_started s (session_delete s' chained st).
Proof.
  intros (o & Ho & Hd). unfold session_delete.
  destruct (heap st !! s') as [o'|] eqn:Ho'; [|by exists o].
  destruct (Session_delete o') as [o'' [|rq]] eqn:Hdel.
  - destruct chained; by exists o.
  - unfold deletion_started; simpl.
    destruct (decide (s' = s)) as [->|Hne].
    + exists o''. rewrite lookup_insert_eq. split; [done|].
      pose proof (Session_delete_deleted o') as H. by rewrite Hdel in H.
    + exists o. by rewrite lookup_insert_ne.
Qed.

Lemma deletion_started_deleteSession s s' st :
  deletion_started s st -> deletion_started s (deleteSession s' st).1.
Proof.
  intros Hd. unfold deleteSession.
  destruct (heap st !! s') as [o'|] eqn:Ho'; [|done].
  destruct (Session_isDeleted o'); [done|]. simpl.
  apply deletion_started_session_delete.
  by apply (deletion_started_same s st).
Qed.

Lemma deletion_started_destroy s st :
  deletion_started s st -> deletion_started s (destroy st).1.
Proof.
  intros Hd. unfold destroy.
  assert (Hgen : forall l acc, deletion_started s acc.1 ->
    deletion_started s
      (foldl (λ (acc : SessionPool * Awaited) s0,
                let '(st', a) := deleteSession s0 acc.1 in (st', acc.2 ++ a))
             acc l).1).
  { induction l as [|x l IH]; intros acc Hacc; [done|].
    simpl. apply IH.
    pose proof (deletion_started_deleteSession s x acc.1 Hacc) as H.
    by destruct (deleteSession x acc.1). }
  apply Hgen. simpl. by apply (deletion_started_same s st).
Qed.

Lemma deletion_started_step s st ev :
  wf st -> deletion_started s st -> deletion_started s (step st ev).
Proof.
  intros Hwf Hd.
  assert (Hacq : forall o, Session_isDeleted o = true ->
                           Session_isDeleted (Session_acquire o) = true) by done.
  assert (Hrel : forall o, Session_isDeleted o = true ->
                           Session_isDeleted (Session_release o) = true) by done.
  destruct ev as [timeout|c sid ep|c err|c sid ep|c|s'|s'|s'|s'|d ok|w'| | |s'|];
    cbn [step].
  - unfold acquire. destruct (acquire_decision st) as [s'| |]; simpl.
    + by apply (deletion_started_alter s s' Session_acquire st).
    + by apply (deletion_started_same s st).
    + by apply (deletion_started_same s st).
  - unfold createSession_resume.
    destruct (creates st !! c) as [k|]; [|done].
    destruct Hd as (o & Ho & Hdel).
    assert (Hne : next st ≠ s).
    { intros <-. pose proof (wf_heap st Hwf (next st)) as H.
      rewrite Ho in H. specialize (H ltac:(by eexists)). lia. }
    destruct k; unfold deletion_started; simpl; exists o;
      rewrite ?lookup_alter_ne, ?lookup_insert_ne by done; done.
  - unfold createSession_reject.
    destruct (creates st !! c) as [k|]; [|done].
    destruct k; by apply (deletion_started_same s st).
  - unfold createSession_added.
    destruct (creates st !! c) as [k|]; [|done].
    destruct Hd as (o & Ho & Hdel).
    assert (Hne : next st ≠ s).
    { intros <-. pose proof (wf_heap st Hwf (next st)) as H.
      rewrite Ho in H. specialize (H ltac:(by eexists)). lia. }
    destruct k; unfold deletion_started; simpl; exists o;
      rewrite ?lookup_insert_ne by done; done.
  - unfold acquire_then.
    destruct (creates st !! c) as [[| |r]|]; try done.
    by apply (deletion_started_alter s r Session_acquire st).
  - by apply (deletion_started_alter s s' Session_acquire st).
  - unfold session_release. destruct (heap st !! s'); [|done].
    unfold on_SESSION_RELEASE; simpl.
    assert (Hd1 : deletion_started s
                    (set_heap (alter Session_release s' (heap st)) st))
      by by apply (deletion_started_alter s s' Session_release st).
    destruct (waiters st) as [|w rest]; [done|].
    by apply (deletion_started_alter s s' Session_acquire
                (set_heap (alter Session_release s' (heap st)) st)).
  - by apply deletion_started_session_delete.
  - by apply deletion_started_deleteSession.
  - unfold session_delete_settled.
    destruct (deletes st !! d) as [[s0 chained]|]; [|done].
    destruct (ok && chained); by apply (deletion_started_same s st).
  - unfold timer_fire.
    destruct (timers st !! w') as [[deadline timeout]|]; [|done].
    destruct (bool_decide (deadline <= now st)); [|done].
    by apply (deletion_started_same s st).
  - unfold tick. destruct (bool_decide _); [|done].
    by apply (deletion_started_same s st).
  - unfold keepAlive_fire. destruct (sessionKeepAliveId st); [|done].
    by apply (deletion_started_same s st).
  - unfold keepAlive_retry. destruct (heap st !! s'); [|done].
    destruct (keepAlive_sent _ _); [|done].
    by apply (deletion_started_same s st).
  - by apply deletion_started_destroy.
Qed.

Lemma deletion_started_run s st evs :
  wf st -> deletion_started s st -> deletion_started s (run st evs).
Proof.
  revert st. induction evs as [|ev evs IH]; intros st Hwf Hd; [done|].
  simpl. apply IH; [by apply wf_step|by apply deletion_started_step].
Qed.

Lemma deletion_started_not_free s st :
  deletion_started s st ->
  session_isFree st s = false /\ find_free st ≠ Some s /\
  acquire_decision st ≠ UseFree s.
Proof.
  intros (o & Ho & Hd).
  assert (Hnf : session_isFree st s = false).
  { unfold session_isFree, Session_isFree. rewrite Ho, Hd.
    by destruct (free o). }
  assert (Hff : find_free st ≠ Some s).
  { unfold find_free. intros H.
    destruct (list_find _ (sessions st)) as [[i x]|] eqn:Hf; [|done].
    simpl in H. inversion H; subst.
    apply list_find_Some in Hf as (_ & Hx & _). congruence. }
  split; [done|]. split; [done|].
  unfold acquire_decision. destruct (find_free st) as [s'|] eqn:Hf.
  - congruence.
  - by destruct (bool_decide _).
Qed.

Lemma session_delete_starts s chained st :
  is_Some (heap st !! s) -> deletion_started s (session_delete s chained st).
Proof.
  intros [o Ho]. unfold session_delete. rewrite Ho.
  destruct (Session_delete o) as [o' [|rq]] eqn:Hdel.
  - assert (Hd : Session_isDeleted o = true).
    { unfold Session_delete in Hdel.
      by destruct (Session_isDeleted o). }
    destruct chained; by exists o.
  - exists o'. simpl. rewrite lookup_insert_eq. split; [done|].
    pose proof (Session_delete_deleted o) as H. by rewrite Hdel in H.
Qed.

Lemma deleteSession_starts s st :
  is_Some (heap st !! s) -> deletion_started s (deleteSession s st).1.
Proof.
  intros [o Ho]. unfold deleteSession. rewrite Ho.
  destruct (Session_isDeleted o) eqn:Hd; [by exists o|]. simpl.
  apply session_delete_starts. simpl. by eexists.
Qed.

(** C10.  Once [delete()] has been invoked on a session, [isFree()] is
    false after any further [acquire], [release], [delete] or [keepAlive];
    and in a pool, whatever happens after a session's [delete()] or the
    pool's [deleteSession] on it, the scan of [acquire] does not find that
    session free and [acquire] does not hand it out. *)
Theorem isFree_false_once_deleted :
  (forall o ops,
     Session_isFree (foldl Session_apply (Session_delete o).1 ops) = false) /\
  (forall minL maxL t0 evs0 s ev evs,
     let st := run (new_SessionPool minL maxL t0) evs0 in
     is_Some (heap st !! s) ->
     ev = EvSessionDelete s \/ ev = EvDeleteSession s ->
     let st' := run (step st ev) evs in
     session_isFree st' s = false /\ find_free st' ≠ Some s /\
     acquire_decision st' ≠ UseFree s).
Proof.
  split.
  - intros o ops. unfold Session_isFree.
    rewrite (Session_ops_keep_deleted _ ops (Session_delete_deleted o)).
    by destruct (free _).
  - intros minL maxL t0 evs0 s ev evs st Hs Hev st'.
    assert (Hwf : wf st) by apply wf_reachable.
    apply deletion_started_not_free. unfold st'.
    apply deletion_started_run; [by apply wf_step|].
    destruct Hev as [-> | ->]; cbn [step].
    + by apply session_delete_starts.
    + by apply deleteSession_starts.
Qed.

Lemma isFree_false_once_deleted_witness :
  let st' := run (step one_session_pool (EvDeleteSession 1%nat))
               [EvRelease 1%nat; EvSessionAcquire 1%nat; EvRelease 1%nat] in
  session_isFree st' 1%nat = false /\ find_free st' ≠ Some 1%nat /\
  acquire_decision st' ≠ UseFree 1%nat.
Proof.
  destruct isFree_false_once_deleted as [_ H].
  apply (H 1 1 0 [EvCreated 0%nat "s1" demo_endpoint] 1%nat
           (EvDeleteSession 1%nat)
           [EvRelease 1%nat; EvSessionAcquire 1%nat; EvRelease 1%nat]).
  - vm_compute. by eexists.
  - by right.
Defined.

(** ** deleteSession *)

Lemma deleteSession_live s o st :
  heap st !! s = Some o -> Session_isDeleted o = false ->
  (deleteSession s st).1 =
    set_next (S (next st))
      (set_deletes (<[next st := (s, true)]> (deletes st))
        (set_rpcLog (rpcLog st ++ [DeleteSessionRpc (sessionId o)])
          (set_heap (<[s := {| sessionId := sessionId o; endpoint := endpoint o;
                                beingDeleted := true; free := free o |}]> (heap st))
            (set_sessionsBeingDeleted (sessionsBeingDeleted st + 1) st)))).
Proof.
  intros Ho Hd. unfold deleteSession. rewrite Ho, Hd. simpl.
  unfold session_delete. simpl. rewrite Ho.
  unfold Session_delete. rewrite Hd. done.
Qed.

Lemma deleteSession_deleted s o st :
  heap st !! s = Some o -> Session_isDeleted o = true ->
  (deleteSession s st).1 = st.
Proof. intros Ho Hd. unfold deleteSession. by rewrite Ho, Hd. Qed.

(** ** The bound on the number of sessions *)

(** The capacity test of [acquire]: a session is created exactly when no
    session is free and the test holds; otherwise the caller is queued. *)
Lemma acquire_decision_spec st :
  (acquire_decision st = CreateNew <->
     find_free st = None /\
     Z.of_nat (length (sessions st)) + newSessionsRequested st
       - sessionsBeingDeleted st <= maxLimit st) /\
  (acquire_decision st = Enqueue <->
     find_free st = None /\
     ~ (Z.of_nat (length (sessions st)) + newSessionsRequested st
          - sessionsBeingDeleted st <= maxLimit st)).
Proof.
  unfold acquire_decision. destruct (find_free st) as [s|].
  - split; split; try done; by intros [? _].
  - destruct (bool_decide _) eqn:Hb.
    + apply bool_decide_eq_true in Hb. split; split; try done. by intros [_ ?].
    + apply bool_decide_eq_false in Hb. split; split; try done. by intros [_ ?].
Qed.

(** C1 at a failing input.  A pool with maxLimit 1 and no prepopulation:
    a first acquire creates a session and holds it; a second acquire finds
    1 + 0 - 0 <= 1 and creates another.  The pool then holds two sessions,
    more than maxLimit. *)
Theorem sessions_exceed_maxLimit :
  let st := run (new_SessionPool 0 1 0)
              [EvAcquire 0; EvCreated 0%nat "s1" demo_endpoint;
               EvAcquire 0; EvCreated 2%nat "s2" demo_endpoint] in
  maxLimit st = 1 /\ sessions st = [1%nat; 3%nat] /\
  newSessionsRequested st = 0 /\ sessionsBeingDeleted st = 0 /\
  Z.of_nat (length (sessions st)) > maxLimit st.
Proof. vm_compute. repeat split; reflexivity. Qed.

(** ** destroy *)

Lemma deleteSession_awaits_nothing s st :
  (deleteSession s st).2 = [] /\
  sessions (deleteSession s st).1 = sessions st /\
  sessionKeepAliveId (deleteSession s st).1 = sessionKeepAliveId st.
Proof.
  unfold deleteSession. destruct (heap st !! s) as [o|] eqn:Ho; [|done].
  destruct (Session_isDeleted o) eqn:Hd; [done|]. simpl.
  unfold session_delete. simpl. rewrite Ho.
  unfold Session_delete. by rewrite Hd.
Qed.

Lemma destroy_awaits_nothing st :
  (destroy st).2 = [] /\ sessions (destroy st).1 = sessions st /\
  sessionKeepAliveId (destroy st).1 = false.
Proof.
  unfold destroy.
  assert (Hgen : forall l acc,
    let res := foldl (λ (acc : SessionPool * Awaited) s,
                 let '(st', a) := deleteSession s acc.1 in (st', acc.2 ++ a))
               acc l in
    res.2 = acc.2 /\ sessions res.1 = sessions acc.1 /\
    sessionKeepAliveId res.1 = sessionKeepAliveId acc.1).
  { induction l as [|x l IH]; intros acc; [done|]. cbn [foldl]. cbv zeta.
    pose proof (deleteSession_awaits_nothing x acc.1) as (D1 & D2 & D3).
    destruct (deleteSession x acc.1) as [st' a]. cbn [fst snd] in D1, D2, D3.
    subst a. cbn beta iota. rewrite app_nil_r.
    destruct (IH (st', acc.2)) as (I1 & I2 & I3). cbn [fst snd] in I1, I2, I3.
    split; [exact I1|]. split; [by etrans; [exact I2|]|by etrans; [exact I3|]]. }
  apply (Hgen (sessions (set_sessionKeepAliveId false st))
              (set_sessionKeepAliveId false st, [])).
Qed.

(** C9 at a failing input.  [destroy] does cancel the keepalive timer, but
    the promise it returns waits for nothing: on a pool holding one session
    it is fulfilled while the DeleteSession request is still in flight and
    the session is still in the pool's set.  The session leaves the set
    only when that request completes. *)
Theorem destroy_resolves_before_deletion :
  (forall st,
     (destroy st).2 = [] /\ sessions (destroy st).1 = sessions st /\
     sessionKeepAliveId (destroy st).1 = false) /\
  let st := one_session_pool in
  let st' := (destroy st).1 in
  sessions st = [1%nat] /\
  (destroy st).2 = [] /\
  sessions st' = [1%nat] /\
  deletes st' !! 2%nat = Some (1%nat, true) /\
  rpcLog st' = [DeleteSessionRpc "s1"] /\
  sessionsBeingDeleted st' = 1 /\
  sessions (step st' (EvDeleted 2%nat true)) = [].
Proof.
  split; [apply destroy_awaits_nothing|].
  vm_compute. repeat split; reflexivity.
Qed.

(* ===================================================================== *)
(** * Further properties of credentials.ts *)
(* ===================================================================== *)

(** A token that has just been cached is served without a new exchange
    for the next 120 s: every call in that time returns at once the two
    headers with that very token; a call later than that sends an
    exchange. *)
Theorem iam_token_served_from_cache svc tok now1 now2 :
  tok ≠ ""%string ->
  let svc' := (updateToken_resume svc (Response (Some tok)) now1).1 in
  token svc' = tok /\ tokenTimestamp svc' = Some now1 /\
  (getAuthMetadata_resume svc (Response (Some tok)) now1) =
    (svc', inl [("x-ydb-auth-ticket", tok);
                ("x-ydb-database", dbName svc)]%string) /\
  (now2 - now1 <= 120000 ->
     getAuthMetadata_start svc' now2
       = Returned [("x-ydb-auth-ticket", tok);
                   ("x-ydb-database", dbName svc)]%string /\
     sent (auth_step (auth_world svc') (Call now2)) = []) /\
  (now2 - now1 > 120000 ->
     getAuthMetadata_start svc' now2 = Suspended (sendTokenRequest svc' now2) /\
     sent (auth_step (auth_world svc') (Call now2))
       = [sendTokenRequest svc' now2]).
Proof.
  intros Hne. unfold getAuthMetadata_resume.
  rewrite (updateToken_resume_token svc tok now1 Hne). cbn [fst snd].
  split; [done|]. split; [done|]. split; [done|].
  unfold auth_step, getAuthMetadata_start, expired, tokenExpirationTimeout.
  cbn [tokenTimestamp token dbName service auth_world].
  split; intros H.
  - by rewrite bool_decide_eq_false_2 by lia.
  - by rewrite bool_decide_eq_true_2 by lia.
Qed.

Lemma iam_token_served_from_cache_witness :
  getAuthMetadata_start
    (updateToken_resume demo_service (Response (Some "t1"%string)) 5000).1
    125000
  = Returned [("x-ydb-auth-ticket", "t1"); ("x-ydb-database", "/Root/db")]%string.
Proof.
  destruct (iam_token_served_from_cache demo_service "t1" 5000 125000)
    as (_ & _ & _ & H & _); [discriminate|].
  apply H. lia.
Defined.

(** A failed exchange caches nothing: the call fails, and a call made at
    any later time sends a token request again. *)
Theorem iam_failed_refresh_retried svc resp now now1 now2 :
  expired svc now = true ->
  (forall t, resp = Response t -> truthy_token t = None) ->
  now <= now2 ->
  (exists err, (getAuthMetadata_resume svc resp now1).2 = inr err) /\
  (getAuthMetadata_resume svc resp now1).1 = svc /\
  getAuthMetadata_start (getAuthMetadata_resume svc resp now1).1 now2
    = Suspended (sendTokenRequest svc now2).
Proof.
  intros Hexp Hresp Hle.
  assert (Hsvc : (getAuthMetadata_resume svc resp now1).1 = svc /\
                 exists err, (getAuthMetadata_resume svc resp now1).2 = inr err).
  { unfold getAuthMetadata_resume, updateToken_resume.
    destruct resp as [t|e]; [rewrite (Hresp t eq_refl)|]; simpl;
      (split; [done|by eexists]). }
  destruct Hsvc as [Hsvc Herr]. split; [done|]. split; [done|].
  rewrite Hsvc. unfold getAuthMetadata_start.
  assert (Hexp2 : expired svc now2 = true).
  { unfold expired in *. destruct (tokenTimestamp svc) as [ts|]; [|done].
    apply bool_decide_eq_true in Hexp. apply bool_decide_eq_true. lia. }
  by rewrite Hexp2.
Qed.

Lemma iam_failed_refresh_retried_witness :
  getAuthMetadata_start
    (getAuthMetadata_resume demo_service (RequestFailed "TimeoutExpired") 11000).1
    12000
  = Suspended (sendTokenRequest demo_service 12000).
Proof.
  apply (iam_failed_refresh_retried demo_service
           (RequestFailed "TimeoutExpired") 1000 11000 12000).
  - reflexivity.
  - intros t Ht. discriminate Ht.
  - lia.
Defined.

Lemma truthy_token_nonempty t tok : truthy_token t = Some tok -> tok ≠ ""%string.
Proof.
  destruct t as [s|]; simpl; [|done].
  destruct (decide (s = ""%string)); [done|]. by intros [= <-].
Qed.

Lemma iam_auth_step_inv db w ev :
  iam_cache_ok db w -> iam_cache_ok db (auth_step w ev).
Proof.
  intros (Hdb & Htok & Hres & Hret).
  assert (Hsnoc : forall out,
    (forall m, out = inl m ->
       exists tok, tok ≠ ""%string /\
         m = [("x-ydb-auth-ticket", tok); ("x-ydb-database", db)]%string) ->
    forall m, inl m ∈ returned w ++ [out] ->
      exists tok, tok ≠ ""%string /\
        m = [("x-ydb-auth-ticket", tok); ("x-ydb-database", db)]%string).
  { intros out Hout m Hm. apply elem_of_app in Hm as [Hm|Hm]; [by apply Hret|].
    apply list_elem_of_singleton in Hm. by apply Hout. }
  destruct ev as [now|resp now|resp now|]; unfold iam_cache_ok, auth_step.
  - unfold getAuthMetadata_start, expired.
    destruct (tokenTimestamp (service w)) as [ts|] eqn:Hts.
    + assert (Hne : token (service w) ≠ ""%string)
        by (by apply Htok).
      destruct (bool_decide _); cbn [service sent returned resuming].
      * split; [done|]. split; [done|]. split; [first [done|exact Hres|by rewrite ?Hts]|]. exact Hret.
      * split; [done|]. split; [done|]. split; [first [done|exact Hres|by rewrite ?Hts]|].
        apply Hsnoc. intros m [= <-].
        exists (token (service w)). split; [done|by rewrite Hdb].
    + cbn [service sent returned resuming].
      split; [done|]. split; [done|]. split; [first [done|exact Hres|by rewrite ?Hts]|]. exact Hret.
  - unfold getAuthMetadata_resume, updateToken_resume.
    destruct resp as [t|e]; [destruct (truthy_token t) as [tok|] eqn:Ht|];
      cbn [service sent returned resuming token dbName tokenTimestamp].
    + pose proof (truthy_token_nonempty t tok Ht) as Hne.
      split; [done|]. split; [done|]. split; [first [done|exact Hres|by rewrite ?Hts]|].
      apply Hsnoc. intros m [= <-]. exists tok. by rewrite Hdb.
    + split; [done|]. split; [done|]. split; [first [done|exact Hres|by rewrite ?Hts]|].
      apply Hsnoc. intros m Hm. discriminate Hm.
    + split; [done|]. split; [done|]. split; [first [done|exact Hres|by rewrite ?Hts]|].
      apply Hsnoc. intros m Hm. discriminate Hm.
  - unfold updateToken_resume.
    destruct resp as [t|e]; [destruct (truthy_token t) as [tok|] eqn:Ht|];
      cbn [service sent returned resuming token dbName tokenTimestamp].
    + pose proof (truthy_token_nonempty t tok Ht) as Hne.
      split; [done|]. split; [done|]. split; [first [done|exact Hres|by rewrite ?Hts]|]. exact Hret.
    + split; [done|]. split; [done|]. split; [first [done|exact Hres|by rewrite ?Hts]|].
      apply Hsnoc. intros m Hm. discriminate Hm.
    + split; [done|]. split; [done|]. split; [first [done|exact Hres|by rewrite ?Hts]|].
      apply Hsnoc. intros m Hm. discriminate Hm.
  - destruct (resuming w) as [|n] eqn:Hn; [done|].
    cbn [service sent returned resuming].
    split; [done|]. split; [done|].
    split; [intros _; by apply Hres|].
    apply Hsnoc. intros m [= <-].
    exists (token (service w)). split; [|by rewrite Hdb].
    by apply Htok, Hres.
Qed.

(** Whatever calls and responses interleave on an IamAuthService, every
    metadata it returns has exactly the two headers, the database being
    the configured one and the ticket a non-empty token. *)
Theorem iam_metadata_two_headers creds db evs m :
  inl m ∈ returned (auth_run (auth_world (new_IamAuthService creds db)) evs) ->
  exists tok, tok ≠ ""%string /\
    m = [("x-ydb-auth-ticket", tok); ("x-ydb-database", db)]%string.
Proof.
  assert (Hinv : iam_cache_ok db
            (auth_run (auth_world (new_IamAuthService creds db)) evs)).
  { induction evs as [|ev evs IH] using rev_ind.
    - split; [done|]. split; [done|]. split; [done|].
      intros m' Hm. by apply elem_of_nil in Hm.
    - unfold auth_run. rewrite foldl_app. simpl. by apply iam_auth_step_inv. }
  destruct Hinv as (_ & _ & _ & Hret). apply Hret.
Qed.

Lemma iam_metadata_two_headers_witness :
  exists tok, tok ≠ ""%string /\
    makeCredentialsMetadata "t1" "/Root/db" =
      [("x-ydb-auth-ticket", tok); ("x-ydb-database", "/Root/db")]%string.
Proof.
  apply (iam_metadata_two_headers demo_credentials "/Root/db"
           [Call 1000; Settle (Response (Some "t1"%string)) 1500; Call 2000]
           (makeCredentialsMetadata "t1" "/Root/db")).
  vm_compute. apply elem_of_cons. left. reflexivity.
Defined.

(** ** MetadataAuthService *)

(** The polling loop leaves by its own condition within [MAX_TRIES - tries]
    rounds; each round sleeps once and asks once; it stops at the first
    token it sees. *)
Lemma poll_token_run ts fuel :
  forall token tries calls trace,
    0 <= tries -> (Z.to_nat (MAX_TRIES - tries) <= fuel)%nat ->
    exists (n : nat) token',
      poll_token ts fuel token tries calls trace =
        Some (token', (calls + n)%nat, trace ++ polling_trace n) /\
      Z.of_nat n <= Z.max 0 (MAX_TRIES - tries) /\
      (n = 0%nat -> token' = token) /\
      (forall t, truthy_token token = Some t -> n = 0%nat) /\
      ((0 < n)%nat -> token' = getToken ts (calls + n - 1)%nat) /\
      (forall j, (j + 1 < n)%nat ->
                 truthy_token (getToken ts (calls + j)%nat) = None) /\
      (truthy_token token' = None -> MAX_TRIES <= tries + Z.of_nat n).
Proof.
  unfold MAX_TRIES.
  induction fuel as [|fuel IH]; intros token tries calls trace Htr Hfuel.
  - exists 0%nat, token. simpl.
    rewrite (bool_decide_eq_false_2 (tries < 5)) by lia.
    rewrite andb_false_r, Nat.add_0_r, app_nil_r.
    repeat split; try done; try lia.
  - cbn [poll_token].
    destruct (bool_decide (truthy_token token = None)) eqn:Htok;
      [destruct (bool_decide (tries < MAX_TRIES)) eqn:Hlt|]; cbn [andb].
    + apply bool_decide_eq_true in Htok, Hlt. unfold MAX_TRIES in Hlt.
      destruct (IH (getToken ts calls) (tries + 1) (S calls)
                   (trace ++ [DoSleep TRIES_INTERVAL; DoGetToken])
                   ltac:(lia) ltac:(lia))
        as (n & token' & Hrun & Hn & H0 & Ht & Hpos & Hmid & Hex).
      exists (S n), token'. rewrite Hrun.
      split; [|split; [|split; [|split; [|split; [|split]]]]].
      * replace (calls + S n)%nat with (S calls + n)%nat by lia.
        rewrite <- app_assoc. done.
      * lia.
      * done.
      * intros t Ht'. congruence.
      * intros _. destruct n as [|n].
        -- rewrite (H0 eq_refl). f_equal. lia.
        -- rewrite (Hpos ltac:(lia)). f_equal. lia.
      * intros j Hj. destruct j as [|j].
        -- rewrite Nat.add_0_r.
           destruct (truthy_token (getToken ts calls)) as [t|] eqn:Hg; [|done].
           specialize (Ht t eq_refl). lia.
        -- replace (calls + S j)%nat with (S calls + j)%nat by lia.
           apply Hmid. lia.
      * intros Hnone. specialize (Hex Hnone). lia.
    + apply bool_decide_eq_false in Hlt. unfold MAX_TRIES in Hlt.
      exists 0%nat, token. rewrite Nat.add_0_r, app_nil_r.
      repeat split; try done; try lia.
    + exists 0%nat, token. rewrite Nat.add_0_r, app_nil_r.
      apply bool_decide_eq_false in Htok.
      repeat split; try done; try lia.
Qed.

Lemma count_actions_app p t1 t2 :
  count_actions p (t1 ++ t2) = (count_actions p t1 + count_actions p t2)%nat.
Proof. unfold count_actions. by rewrite List.filter_app, length_app. Qed.

Lemma polling_trace_counts n :
  count_actions is_sleep (polling_trace n) = n /\
  count_actions is_getToken (polling_trace n) = n /\
  count_actions is_initialize (polling_trace n) = 0%nat /\
  Forall (λ a, forall ms, a = DoSleep ms -> ms = 2000) (polling_trace n).
Proof.
  unfold polling_trace, count_actions.
  induction n as [|n (IH1 & IH2 & IH3 & IH4)]; [done|].
  simpl. rewrite IH1, IH2, IH3. split; [done|]. split; [done|]. split; [done|].
  repeat constructor; try done. by intros ms [= <-].
Qed.

(** The metadata service always finishes: it calls [initialize] at most
    once, sleeps at most 5 times, 2000 ms each, and asks for the token at
    most 7 times. *)
Theorem metadata_auth_bounded db ts :
  exists out trace,
    MetadataAuthService_getAuthMetadata db ts = Some (out, trace) /\
    (count_actions is_sleep trace <= 5)%nat /\
    (count_actions is_getToken trace <= 7)%nat /\
    (count_actions is_initialize trace <= 1)%nat /\
    Forall (λ a, forall ms, a = DoSleep ms -> ms = 2000) trace.
Proof.
  unfold MetadataAuthService_getAuthMetadata,
    MetadataAuthService_getAuthMetadata_fuel.
  assert (Hgen : forall token calls trace,
    (count_actions is_sleep trace = 0)%nat ->
    (count_actions is_getToken trace <= 2)%nat ->
    (count_actions is_initialize trace <= 1)%nat ->
    Forall (λ a, forall ms, a = DoSleep ms -> ms = 2000) trace ->
    exists out trace',
      match poll_token ts (Z.to_nat MAX_TRIES) token 0 calls trace with
      | None => None
      | Some (token', _, trace') =>
          match truthy_token token' with
          | Some t => Some (inl (makeCredentialsMetadata t db), trace')
          | None =>
              Some (inr ("Failed to fetch access token via metadata service in "
                           +:+ number_to_string MAX_TRIES +:+ " tries!")%string,
                    trace')
          end
      end = Some (out, trace') /\
      (count_actions is_sleep trace' <= 5)%nat /\
      (count_actions is_getToken trace' <= 7)%nat /\
      (count_actions is_initialize trace' <= 1)%nat /\
      Forall (λ a, forall ms, a = DoSleep ms -> ms = 2000) trace').
  { intros token calls trace Hs Hg Hi Hf.
    destruct (poll_token_run ts (Z.to_nat MAX_TRIES) token 0 calls trace
                ltac:(lia) ltac:(lia))
      as (n & token' & Hrun & Hn & _).
    rewrite Hrun. unfold MAX_TRIES in Hn.
    pose proof (polling_trace_counts n) as (P1 & P2 & P3 & P4).
    assert (Hb : (count_actions is_sleep (trace ++ polling_trace n) <= 5)%nat /\
                 (count_actions is_getToken (trace ++ polling_trace n) <= 7)%nat /\
                 (count_actions is_initialize (trace ++ polling_trace n) <= 1)%nat /\
                 Forall (λ a, forall ms, a = DoSleep ms -> ms = 2000)
                        (trace ++ polling_trace n)).
    { rewrite !count_actions_app.
      split; [lia|]. split; [lia|]. split; [lia|].
      apply Forall_app. by split. }
    destruct (truthy_token token'); eauto. }
  assert (Hsl : forall a, a = DoGetToken \/ a = DoInitialize ->
                          forall ms, a = DoSleep ms -> ms = 2000).
  { intros a [-> | ->] ms Hms; discriminate Hms. }
  destruct (truthy_token (getToken ts 0)) as [t0|] eqn:H0.
  - apply Hgen; [done|vm_compute; lia|vm_compute; lia|].
    repeat constructor; apply Hsl; auto.
  - destruct (initialize ts) as [[err|]|].
    + eexists _, _. split; [done|].
      split; [vm_compute; lia|]. split; [vm_compute; lia|].
      split; [vm_compute; lia|]. repeat constructor; apply Hsl; auto.
    + apply Hgen; [done|vm_compute; lia|vm_compute; lia|].
      repeat constructor; apply Hsl; auto.
    + apply Hgen; [done|vm_compute; lia|vm_compute; lia|].
      repeat constructor; apply Hsl; auto.
Qed.

(** When the token service has a token at the first call, nothing else
    happens: no [initialize], no sleep. *)
Theorem metadata_auth_immediate db ts t :
  truthy_token (getToken ts 0) = Some t ->
  MetadataAuthService_getAuthMetadata db ts =
    Some (inl [("x-ydb-auth-ticket", t); ("x-ydb-database", db)]%string,
          [DoGetToken]).
Proof.
  intros Ht. unfold MetadataAuthService_getAuthMetadata,
    MetadataAuthService_getAuthMetadata_fuel. rewrite Ht.
  destruct (poll_token_run ts (Z.to_nat MAX_TRIES) (getToken ts 0) 0 1
              [DoGetToken] ltac:(lia) ltac:(lia))
    as (n & token' & Hrun & _ & Hz & Hn & _).
  rewrite Hrun. specialize (Hn t Ht). subst n.
  by rewrite (Hz eq_refl), Ht.
Qed.

Lemma metadata_auth_immediate_witness :
  MetadataAuthService_getAuthMetadata "/Root/db" ready_token_service =
    Some (inl [("x-ydb-auth-ticket", "tok"); ("x-ydb-database", "/Root/db")]%string,
          [DoGetToken]).
Proof. apply (metadata_auth_immediate "/Root/db" ready_token_service "tok"). reflexivity. Defined.

(** A successful call returns the first token the service yields: the
    calls of [getToken] before it all came back empty, and no call is made
    after it. *)
Theorem metadata_auth_first_available db ts m trace :
  MetadataAuthService_getAuthMetadata db ts = Some (inl m, trace) ->
  exists (k : nat) t,
    (k <= 6)%nat /\
    truthy_token (getToken ts k) = Some t /\
    (forall j, (j < k)%nat -> truthy_token (getToken ts j) = None) /\
    m = [("x-ydb-auth-ticket", t); ("x-ydb-database", db)]%string /\
    count_actions is_getToken trace = S k.
Proof.
  unfold MetadataAuthService_getAuthMetadata,
    MetadataAuthService_getAuthMetadata_fuel.
  destruct (truthy_token (getToken ts 0)) as [t0|] eqn:H0.
  - destruct (poll_token_run ts (Z.to_nat MAX_TRIES) (getToken ts 0) 0 1
                [DoGetToken] ltac:(lia) ltac:(lia))
      as (n & token' & Hrun & Hn & Hz & Ht & _).
    rewrite Hrun. specialize (Ht t0 H0). subst n. rewrite (Hz eq_refl), H0.
    intros [= <- <-]. exists 0%nat, t0.
    split; [lia|]. split; [done|]. split; [lia|]. done.
  - destruct (initialize ts) as [[err|]|]; [done| |].
    + destruct (poll_token_run ts (Z.to_nat MAX_TRIES) (getToken ts 1) 0 2
                  [DoGetToken; DoInitialize; DoGetToken] ltac:(lia) ltac:(lia))
        as (n & token' & Hrun & Hn & Hz & Ht & Hpos & Hmid & _).
      rewrite Hrun. unfold MAX_TRIES in Hn.
      destruct (truthy_token token') as [t|] eqn:Htok; [|done].
      intros [= <- <-]. exists (S n), t.
      pose proof (polling_trace_counts n) as (_ & P2 & _).
      split; [lia|].
      split; [|split; [|split; [done|]]].
      * destruct n as [|n]; [by rewrite <- (Hz eq_refl)|].
        rewrite <- Htok, (Hpos ltac:(lia)). do 2 f_equal; lia.
      * intros j Hj. destruct j as [|[|j]]; [done| |].
        -- destruct (truthy_token (getToken ts 1)) as [t1|] eqn:H1; [|done].
           specialize (Ht t1 eq_refl). lia.
        -- apply (Hmid j). lia.
      * unfold count_actions in *. cbn [List.filter is_getToken length app].
        rewrite ?List.filter_app, ?length_app, P2. simpl. lia.
    + destruct (poll_token_run ts (Z.to_nat MAX_TRIES) (getToken ts 0) 0 1
                  [DoGetToken] ltac:(lia) ltac:(lia))
        as (n & token' & Hrun & Hn & Hz & Ht & Hpos & Hmid & _).
      rewrite Hrun. unfold MAX_TRIES in Hn.
      destruct (truthy_token token') as [t|] eqn:Htok; [|done].
      intros [= <- <-].
      destruct n as [|n]; [rewrite (Hz eq_refl) in Htok; congruence|].
      exists (S n), t.
      pose proof (polling_trace_counts (S n)) as (_ & P2 & _).
      split; [lia|].
      split; [|split; [|split; [done|]]].
      * rewrite <- Htok, (Hpos ltac:(lia)). do 2 f_equal; lia.
      * intros j Hj. destruct j as [|j]; [done|].
        apply (Hmid j). lia.
      * unfold count_actions in *. cbn [List.filter is_getToken length app].
        rewrite ?List.filter_app, ?length_app, P2. simpl. lia.
Qed.

Lemma metadata_auth_first_available_witness :
  exists (k : nat) t,
    (k <= 6)%nat /\
    truthy_token (getToken slow_token_service k) = Some t /\
    count_actions is_getToken
      ([DoGetToken; DoInitialize; DoGetToken] ++ polling_trace 2) = S k.
Proof.
  destruct (metadata_auth_first_available "/Root/db" slow_token_service
              [("x-ydb-auth-ticket", "tok"); ("x-ydb-database", "/Root/db")]%string
              ([DoGetToken; DoInitialize; DoGetToken] ++ polling_trace 2)
              eq_refl)
    as (k & t & H1 & H2 & _ & _ & H5).
  exists k, t. split; [exact H1|]. split; [exact H2|exact H5].
Defined.

(** When no token ever comes and [initialize], if there is one, succeeds,
    the call fails with "Failed to fetch access token via metadata service
    in 5 tries!" after exactly 5 sleeps of 2000 ms. *)
Theorem metadata_auth_exhausted db ts :
  (forall k, truthy_token (getToken ts k) = None) ->
  (forall err, initialize ts ≠ Some (Some err)) ->
  exists trace,
    MetadataAuthService_getAuthMetadata db ts =
      Some (inr "Failed to fetch access token via metadata service in 5 tries!"%string,
            trace) /\
    count_actions is_sleep trace = 5%nat /\
    trace = match initialize ts with
            | Some _ => [DoGetToken; DoInitialize; DoGetToken]
            | None => [DoGetToken]
            end ++ polling_trace 5.
Proof.
  intros Hnone Hinit.
  unfold MetadataAuthService_getAuthMetadata,
    MetadataAuthService_getAuthMetadata_fuel.
  rewrite (Hnone 0%nat).
  assert (Hgen : forall token calls trace,
    truthy_token token = None -> count_actions is_sleep trace = 0%nat ->
    exists trace',
      match poll_token ts (Z.to_nat MAX_TRIES) token 0 calls trace with
      | None => None
      | Some (token', _, trace') =>
          match truthy_token token' with
          | Some t => Some (inl (makeCredentialsMetadata t db), trace')
          | None =>
              Some (inr ("Failed to fetch access token via metadata service in "
                           +:+ number_to_string MAX_TRIES +:+ " tries!")%string,
                    trace')
          end
      end = Some (inr "Failed to fetch access token via metadata service in 5 tries!"%string,
                  trace') /\
      count_actions is_sleep trace' = 5%nat /\
      trace' = trace ++ polling_trace 5).
  { intros token calls trace Htok Hs.
    destruct (poll_token_run ts (Z.to_nat MAX_TRIES) token 0 calls trace
                ltac:(lia) ltac:(lia))
      as (n & token' & Hrun & Hn & Hz & _ & Hpos & _ & Hex).
    rewrite Hrun. unfold MAX_TRIES in Hn, Hex.
    assert (Htok' : truthy_token token' = None).
    { destruct n as [|n]; [by rewrite (Hz eq_refl)|].
      rewrite (Hpos ltac:(lia)). apply Hnone. }
    specialize (Hex Htok'). assert (n = 5%nat) by lia. subst n.
    rewrite Htok'. eexists. split; [reflexivity|]. split; [|done].
    rewrite count_actions_app, Hs.
    by destruct (polling_trace_counts 5) as (-> & _). }
  destruct (initialize ts) as [[err|]|] eqn:Hi.
  - by destruct (Hinit err).
  - apply Hgen; [apply Hnone|done].
  - apply Hgen; [apply Hnone|done].
Qed.

Lemma metadata_auth_exhausted_witness :
  exists trace,
    MetadataAuthService_getAuthMetadata "/Root/db" silent_token_service =
      Some (inr "Failed to fetch access token via metadata service in 5 tries!"%string,
            trace) /\
    count_actions is_sleep trace = 5%nat /\
    trace = match initialize silent_token_service with
            | Some _ => [DoGetToken; DoInitialize; DoGetToken]
            | None => [DoGetToken]
            end ++ polling_trace 5.
Proof.
  apply (metadata_auth_exhausted "/Root/db" silent_token_service).
  - intros k. reflexivity.
  - intros err H. discriminate H.
Defined.

(* ===================================================================== *)
(** * Further properties of SessionPool *)
(* ===================================================================== *)

(** ** The order of the waiter queue *)

(** What a step can do to the waiter array: nothing, push the new waiter
    at the back, or cut one queued waiter out. *)
Lemma step_waiters st ev :
  wf st ->
  waiters (step st ev) = waiters st \/
  waiters (step st ev) = waiters st ++ [next st] \/
  exists w, w ∈ waiters st /\
            waiters (step st ev) = filter (λ x, x ≠ w) (waiters st).
Proof.
  intros Hwf. pose proof Hwf as [H1 H2 H3 H4 H5 H6].
  assert (Hq : forall st', queue_of st' = queue_of st ->
                           waiters st' = waiters st).
  { intros st' Hq. unfold queue_of in Hq. by inversion Hq. }
  destruct ev as [timeout|c sid ep|c err|c sid ep|c|s|s|s|s|d ok|w'| | |s|];
    cbn [step].
  - unfold acquire. destruct (acquire_decision st) as [s| |]; simpl; auto.
  - left. unfold createSession_resume.
    destruct (creates st !! c) as [[| |r]|]; done.
  - left. unfold createSession_reject.
    destruct (creates st !! c) as [[| |r]|]; done.
  - left. unfold createSession_added.
    destruct (creates st !! c) as [[| |r]|]; done.
  - left. unfold acquire_then.
    destruct (creates st !! c) as [[| |r]|]; done.
  - by left.
  - unfold session_release. destruct (heap st !! s); [|by left].
    unfold on_SESSION_RELEASE; simpl.
    destruct (waiters st) as [|w rest] eqn:Hws; [by left|].
    right; right. exists w. split; [by left|]. simpl.
    apply NoDup_cons in H4 as [Hw Hrest].
    rewrite filter_cons_False by (intros H; by apply H).
    by rewrite filter_ne_notin.
  - left. apply Hq, session_delete_frame.
  - left. apply Hq, deleteSession_frame.
  - left. unfold session_delete_settled.
    destruct (deletes st !! d) as [[s chained]|]; [|done].
    by destruct (ok && chained).
  - unfold timer_fire.
    destruct (timers st !! w') as [[deadline timeout]|] eqn:Ht; [|by left].
    destruct (bool_decide (deadline <= now st)); [|by left].
    destruct (H6 w' _ Ht) as [Hin _].
    destruct (splice1_indexOf w' (waiters st) Hin) as [l1 [l2 [Hl Hs]]].
    right; right. exists w'. split; [done|]. simpl. rewrite Hs.
    rewrite Hl in H4. by rewrite Hl, filter_ne_cut.
  - left. unfold tick. by destruct (bool_decide _).
  - left. unfold keepAlive_fire. by destruct (sessionKeepAliveId st).
  - left. unfold keepAlive_retry. destruct (heap st !! s); [|done].
    by destruct (keepAlive_sent _ _).
  - left. apply Hq, destroy_frame.
Qed.

Lemma next_mono_step st ev : (next st <= next (step st ev))%nat.
Proof.
  destruct ev as [timeout|c sid ep|c err|c sid ep|c|s|s|s|s|d ok|w'| | |s|];
    cbn [step].
  - unfold acquire. destruct (acquire_decision st) as [s| |]; simpl; lia.
  - unfold createSession_resume.
    destruct (creates st !! c) as [[| |r]|]; simpl; lia.
  - unfold createSession_reject.
    destruct (creates st !! c) as [[| |r]|]; simpl; lia.
  - unfold createSession_added.
    destruct (creates st !! c) as [[| |r]|]; simpl; lia.
  - unfold acquire_then.
    destruct (creates st !! c) as [[| |r]|]; simpl; lia.
  - simpl. lia.
  - unfold session_release. destruct (heap st !! s); [|lia].
    unfold on_SESSION_RELEASE; simpl. destruct (waiters st); simpl; lia.
  - apply session_delete_frame.
  - apply deleteSession_frame.
  - unfold session_delete_settled.
    destruct (deletes st !! d) as [[s chained]|]; [|lia].
    destruct (ok && chained); simpl; lia.
  - unfold timer_fire.
    destruct (timers st !! w') as [[deadline timeout]|]; [|lia].
    destruct (bool_decide (deadline <= now st)); simpl; lia.
  - unfold tick. destruct (bool_decide _); simpl; lia.
  - unfold keepAlive_fire. destruct (sessionKeepAliveId st); simpl; lia.
  - unfold keepAlive_retry. destruct (heap st !! s); [|lia].
    destruct (keepAlive_sent _ _); simpl; lia.
  - apply destroy_frame.
Qed.

Lemma next_mono_run st evs : (next st <= next (run st evs))%nat.
Proof.
  revert st. induction evs as [|ev evs IH]; intros st; [done|].
  change (run st (ev :: evs)) with (run (step st ev) evs).
  pose proof (next_mono_step st ev). specialize (IH (step st ev)). lia.
Qed.

(** Along any run, the queue is the old queue with some waiters cut out,
    followed by the waiters that arrived since. *)
Lemma run_waiters st evs :
  wf st ->
  exists removed arrived : list nat,
    waiters (run st evs) =
      filter (λ x, x ∉ removed) (waiters st) ++ arrived /\
    Forall (λ w, (next st <= w)%nat) arrived.
Proof.
  intros Hwf. induction evs as [|ev evs IH] using rev_ind.
  - exists (@nil nat), (@nil nat). split; [|done]. rewrite app_nil_r. simpl.
    induction (waiters st) as [|x l IHl]; [done|].
    rewrite filter_cons_True by apply not_elem_of_nil. by rewrite <- IHl.
  - destruct IH as (removed & arrived & Hw & Harr).
    rewrite run_snoc. pose proof (wf_run st evs Hwf) as Hwf'.
    destruct (step_waiters (run st evs) ev Hwf') as [-> | [-> | (w & Hin & ->)]].
    + by exists removed, arrived.
    + exists removed, (arrived ++ [next (run st evs)]).
      split; [by rewrite Hw, app_assoc|].
      apply Forall_app. split; [done|]. constructor; [|done].
      apply next_mono_run.
    + exists (w :: removed), (filter (λ x, x ≠ w) arrived).
      split.
      * rewrite Hw, filter_app. f_equal.
        rewrite list_filter_filter. apply list_filter_iff.
        intros x. rewrite not_elem_of_cons. tauto.
      * rewrite Forall_forall in Harr. apply Forall_forall.
        intros x Hx. apply list_elem_of_filter in Hx as [_ Hx]. by apply Harr.
Qed.

(** The queue is FIFO.  Two waiters that are both still queued stand in
    the order in which they were queued, whatever has happened in between,
    and a waiter that arrives later stands behind every waiter that was
    already there. *)
Theorem waiters_keep_order minL maxL t0 evs0 evs w1 w2 :
  let st := run (new_SessionPool minL maxL t0) evs0 in
  let st' := run st evs in
  w1 ∈ waiters st' -> w2 ∈ waiters st' ->
  (precedes w1 w2 (waiters st) -> precedes w1 w2 (waiters st')) /\
  (w1 ∈ waiters st -> w2 ∉ waiters st -> precedes w1 w2 (waiters st')).
Proof.
  intros st st' Hin1 Hin2.
  assert (Hwf : wf st) by apply wf_reachable.
  destruct (run_waiters st evs Hwf) as (removed & arrived & Hw & Harr).
  fold st' in Hw.
  assert (Hold : forall w, w ∈ waiters st -> w ∉ arrived).
  { intros w Hw0 Ha. apply (wf_waiters st Hwf) in Hw0.
    rewrite Forall_forall in Harr. apply Harr in Ha. lia. }
  assert (Hkept : forall w, w ∈ waiters st -> w ∈ waiters st' -> w ∉ removed).
  { intros w Hw0 Hw'. rewrite Hw in Hw'.
    apply elem_of_app in Hw' as [Hf|Ha]; [|by destruct (Hold w Hw0)].
    by apply list_elem_of_filter in Hf as [? _]. }
  split.
  - intros (l1 & l2 & l3 & Hl).
    assert (H1 : w1 ∈ waiters st).
    { rewrite Hl. apply elem_of_app. right. by left. }
    assert (H2 : w2 ∈ waiters st).
    { rewrite Hl. apply elem_of_app. right. right.
      apply elem_of_app. right. by left. }
    pose proof (Hkept w1 H1 Hin1) as K1. pose proof (Hkept w2 H2 Hin2) as K2.
    exists (filter (λ x, x ∉ removed) l1), (filter (λ x, x ∉ removed) l2),
           (filter (λ x, x ∉ removed) l3 ++ arrived).
    rewrite Hw, Hl.
    rewrite filter_app, filter_cons_True by done.
    rewrite filter_app, filter_cons_True by done.
    rewrite <- ?app_assoc. simpl. rewrite <- ?app_assoc. simpl. done.
  - intros H1 H2.
    pose proof (Hkept w1 H1 Hin1) as K1.
    assert (Ha : w2 ∈ arrived).
    { rewrite Hw in Hin2. apply elem_of_app in Hin2 as [Hf|Ha]; [|done].
      by apply list_elem_of_filter in Hf as [_ ?]. }
    apply list_elem_of_split in H1 as (l1 & l2 & Hl).
    apply list_elem_of_split in Ha as (a1 & a2 & Hal).
    exists (filter (λ x, x ∉ removed) l1),
           (filter (λ x, x ∉ removed) l2 ++ a1), a2.
    rewrite Hw, Hl, Hal.
    rewrite filter_app, filter_cons_True by done.
    rewrite <- ?app_assoc. simpl. rewrite <- ?app_assoc. simpl. done.
Qed.

Lemma waiters_keep_order_witness :
  precedes 1%nat 2%nat
    (waiters (run (run (new_SessionPool 0 0 0) [EvAcquire 0; EvAcquire 5])
                  [EvAcquire 7; EvTick])).
Proof.
  apply (waiters_keep_order 0 0 0 [EvAcquire 0; EvAcquire 5]
           [EvAcquire 7; EvTick] 1%nat 2%nat).
  - rewrite list_elem_of_In. vm_compute. lia.
  - rewrite list_elem_of_In. vm_compute. lia.
  - rewrite list_elem_of_In. vm_compute. lia.
  - rewrite list_elem_of_In. vm_compute. lia.
Defined.

(** In every state a pool can reach, a timer callback takes its own waiter
    out of the queue and no other: [indexOf] finds the waiter, so
    [splice] never cuts from the end of the array. *)
Theorem timer_removes_own_waiter minL maxL t0 evs0 w :
  let st := run (new_SessionPool minL maxL t0) evs0 in
  (forall d T, timers st !! w = Some (d, T) ->
     w ∈ waiters st /\ 0 <= indexOf w (waiters st)) /\
  (waiters (step st (EvTimer w)) = waiters st \/
   waiters (step st (EvTimer w)) = filter (λ x, x ≠ w) (waiters st)).
Proof.
  intros st. assert (Hwf : wf st) by apply wf_reachable. split.
  - intros d T Ht. destruct (wf_timers st Hwf w _ Ht) as [Hin _].
    split; [done|].
    destruct (indexOf_from_elem w (waiters st) 0 Hin) as (k & Hk & _).
    unfold indexOf. lia.
  - cbn [step]. unfold timer_fire.
    destruct (timers st !! w) as [[deadline timeout]|] eqn:Ht; [|by left].
    destruct (bool_decide (deadline <= now st)); [|by left].
    destruct (wf_timers st Hwf w _ Ht) as [Hin _].
    destruct (splice1_indexOf w (waiters st) Hin) as [l1 [l2 [Hl Hs]]].
    right. simpl. rewrite Hs.
    pose proof (wf_nodup st Hwf) as Hnd. rewrite Hl in Hnd.
    by rewrite Hl, filter_ne_cut.
Qed.

(** ** A session is held by one caller at a time *)

Lemma held_same s (st st' : SessionPool) :
  heap st' = heap st -> held s st -> held s st'.
Proof. intros Hh (o & Ho & Hf). exists o. by rewrite Hh. Qed.

Lemma held_alter_acquire s s' (st st' : SessionPool) :
  heap st' = alter Session_acquire s' (heap st) -> held s st -> held s st'.
Proof.
  intros Hh (o & Ho & Hf). unfold held. rewrite Hh.
  destruct (decide (s' = s)) as [->|Hne].
  - exists (Session_acquire o). by rewrite lookup_alter_eq, Ho.
  - exists o. by rewrite lookup_alter_ne.
Qed.

Lemma held_session_delete s s' chained st :
  held s st -> held s (session_delete s' chained st).
Proof.
  intros (o & Ho & Hf). unfold session_delete.
  destruct (heap st !! s') as [o'|] eqn:Ho'; [|by exists o].
  destruct (Session_delete o') as [o'' [|rq]] eqn:Hdel.
  - destruct chained; by exists o.
  - unfold held; simpl. destruct (decide (s' = s)) as [->|Hne].
    + exists o''. rewrite lookup_insert_eq. split; [done|].
      unfold Session_delete in Hdel.
      destruct (Session_isDeleted o'); inversion Hdel; subst; simpl.
      congruence.
    + exists o. by rewrite lookup_insert_ne.
Qed.

Lemma held_deleteSession s s' st :
  held s st -> held s (deleteSession s' st).1.
Proof.
  intros Hd. unfold deleteSession.
  destruct (heap st !! s') as [o'|] eqn:Ho'; [|done].
  destruct (Session_isDeleted o'); [done|]. simpl.
  apply held_session_delete. by apply (held_same s st).
Qed.

Lemma held_destroy s st : held s st -> held s (destroy st).1.
Proof.
  intros Hd. unfold destroy.
  assert (Hgen : forall l acc, held s acc.1 ->
    held s
      (foldl (λ (acc : SessionPool * Awaited) s0,
                let '(st', a) := deleteSession s0 acc.1 in (st', acc.2 ++ a))
             acc l).1).
  { induction l as [|x l IH]; intros acc Hacc; [done|].
    simpl. apply IH.
    pose proof (held_deleteSession s x acc.1 Hacc) as H.
    by destruct (deleteSession x acc.1). }
  apply Hgen. simpl. by apply (held_same s st).
Qed.

Lemma held_step s st ev :
  wf st -> ev ≠ EvRelease s -> held s st -> held s (step st ev).
Proof.
  intros Hwf Hev Hd.
  destruct ev as [timeout|c sid ep|c err|c sid ep|c|s'|s'|s'|s'|d ok|w'| | |s'|];
    cbn [step].
  - unfold acquire. destruct (acquire_decision st) as [s'| |]; simpl.
    + by apply (held_alter_acquire s s' st).
    + by apply (held_same s st).
    + by apply (held_same s st).
  - unfold createSession_resume.
    destruct (creates st !! c) as [k|]; [|done].
    destruct Hd as (o & Ho & Hf).
    assert (Hne : next st ≠ s).
    { intros <-. pose proof (wf_heap st Hwf (next st)) as H.
      rewrite Ho in H. specialize (H ltac:(by eexists)). lia. }
    destruct k; unfold held; simpl; exists o;
      rewrite ?lookup_alter_ne, ?lookup_insert_ne by done; done.
  - unfold createSession_reject.
    destruct (creates st !! c) as [k|]; [|done].
    destruct k; by apply (held_same s st).
  - unfold createSession_added.
    destruct (creates st !! c) as [k|]; [|done].
    destruct Hd as (o & Ho & Hf).
    assert (Hne : next st ≠ s).
    { intros <-. pose proof (wf_heap st Hwf (next st)) as H.
      rewrite Ho in H. specialize (H ltac:(by eexists)). lia. }
    destruct k; unfold held; simpl; exists o;
      rewrite ?lookup_insert_ne by done; done.
  - unfold acquire_then.
    destruct (creates st !! c) as [[| |r]|]; try done.
    by apply (held_alter_acquire s r st).
  - by apply (held_alter_acquire s s' st).
  - assert (Hne : s' ≠ s) by congruence.
    unfold session_release. destruct (heap st !! s'); [|done].
    unfold on_SESSION_RELEASE; simpl.
    assert (Hd1 : held s (set_heap (alter Session_release s' (heap st)) st)).
    { destruct Hd as (o & Ho & Hf). exists o. simpl.
      by rewrite lookup_alter_ne. }
    destruct (waiters st) as [|w rest]; [done|].
    by apply (held_alter_acquire s s'
                (set_heap (alter Session_release s' (heap st)) st)).
  - by apply held_session_delete.
  - by apply held_deleteSession.
  - unfold session_delete_settled.
    destruct (deletes st !! d) as [[s0 chained]|]; [|done].
    destruct (ok && chained); by apply (held_same s st).
  - unfold timer_fire.
    destruct (timers st !! w') as [[deadline timeout]|]; [|done].
    destruct (bool_decide (deadline <= now st)); [|done].
    by apply (held_same s st).
  - unfold tick. destruct (bool_decide _); [|done].
    by apply (held_same s st).
  - unfold keepAlive_fire. destruct (sessionKeepAliveId st); [|done].
    by apply (held_same s st).
  - unfold keepAlive_retry. destruct (heap st !! s'); [|done].
    destruct (keepAlive_sent _ _); [|done].
    by apply (held_same s st).
  - by apply held_destroy.
Qed.

Lemma held_run s st evs :
  wf st -> EvRelease s ∉ evs -> held s st -> held s (run st evs).
Proof.
  revert st. induction evs as [|ev evs IH]; intros st Hwf Hnin Hd; [done|].
  apply not_elem_of_cons in Hnin as [Hne Hnin].
  change (run st (ev :: evs)) with (run (step st ev) evs).
  apply IH; [by apply wf_step|done|]. apply held_step; [done|congruence|done].
Qed.

Lemma held_not_free s st :
  held s st -> session_isFree st s = false /\ acquire_decision st ≠ UseFree s.
Proof.
  intros (o & Ho & Hf).
  assert (Hnf : session_isFree st s = false).
  { unfold session_isFree, Session_isFree. by rewrite Ho, Hf. }
  split; [done|].
  unfold acquire_decision, find_free.
  destruct (list_find _ (sessions st)) as [[i x]|] eqn:Hfind; simpl.
  - intros [= ->]. apply list_find_Some in Hfind as (_ & Hx & _). congruence.
  - by destruct (bool_decide _).
Qed.

Lemma alter_settle_resolved (m : gmap nat Promise) o w p s n :
  alter (settle o) w m !! p =
    Some {| outcome := Resolved s; settleCalls := n |} ->
  (exists n', m !! p = Some {| outcome := Resolved s; settleCalls := n' |}) \/
  (p = w /\ o = Resolved s /\
   exists k, m !! p = Some {| outcome := Pending; settleCalls := k |}).
Proof.
  destruct (decide (w = p)) as [->|Hne].
  - rewrite lookup_alter_eq.
    destruct (m !! p) as [[o' k]|]; [|done].
    unfold settle; simpl. destruct o' as [|sx|e]; simpl.
    + intros [= -> _]. right. split; [done|]. split; [done|]. by exists k.
    + intros [= -> _]. left. by exists k.
    + done.
  - rewrite lookup_alter_ne by done. intros H. left. by exists n.
Qed.

(** Which promises a step can resolve with a session [s] that is taken and
    not released by the step: none but the promise of an [acquire] whose
    [.then] for [s] was still due. *)
Lemma resolved_with_step st ev s p n :
  wf st -> held s st -> ev ≠ EvRelease s ->
  promises (step st ev) !! p =
    Some {| outcome := Resolved s; settleCalls := n |} ->
  (exists n', promises st !! p =
                Some {| outcome := Resolved s; settleCalls := n' |}) \/
  creates st !! p = Some (ThenPending s).
Proof.
  intros Hwf Hh Hev.
  assert (Hlt : (s < next st)%nat).
  { destruct Hh as (o & Ho & _). apply (wf_heap st Hwf). by eexists. }
  assert (Hfr : forall st', queue_of st' = queue_of st ->
    promises st' !! p = Some {| outcome := Resolved s; settleCalls := n |} ->
    (exists n', promises st !! p =
                  Some {| outcome := Resolved s; settleCalls := n' |}) \/
    creates st !! p = Some (ThenPending s)).
  { intros st' Hq Hp.
    assert (Hq2 : promises st' = promises st)
      by (unfold queue_of in Hq; congruence).
    rewrite Hq2 in Hp. left. by exists n. }
  destruct ev as [timeout|c sid ep|c err|c sid ep|c|s'|s'|s'|s'|d ok|w'| | |s'|];
    cbn [step].
  - unfold acquire.
    destruct (acquire_decision st) as [s'| |] eqn:Hd; simpl.
    + destruct (decide (next st = p)) as [<-|Hne].
      * rewrite lookup_insert_eq. intros [= -> _].
        by destruct (held_not_free s st Hh) as [_ Hx].
      * rewrite lookup_insert_ne by done. intros H. left. by exists n.
    + destruct (decide (next st = p)) as [<-|Hne].
      * by rewrite lookup_insert_eq.
      * rewrite lookup_insert_ne by done. intros H. left. by exists n.
    + destruct (decide (next st = p)) as [<-|Hne].
      * by rewrite lookup_insert_eq.
      * rewrite lookup_insert_ne by done. intros H. left. by exists n.
  - unfold createSession_resume.
    destruct (creates st !! c) as [k|] eqn:Hc; [|by apply Hfr].
    destruct k; simpl; [by apply Hfr| |by apply Hfr].
    intros Hp. apply alter_settle_resolved in Hp as [Hp|(_ & Heq & _)];
      [by left|]. inversion Heq. lia.
  - unfold createSession_reject.
    destruct (creates st !! c) as [k|] eqn:Hc; [|by apply Hfr].
    destruct k; simpl; [by apply Hfr| |by apply Hfr].
    intros Hp. apply alter_settle_resolved in Hp as [Hp|(_ & Heq & _)];
      [by left|done].
  - unfold createSession_added.
    destruct (creates st !! c) as [k|] eqn:Hc; [|by apply Hfr].
    destruct k; simpl; intros H; left; by exists n.
  - unfold acquire_then.
    destruct (creates st !! c) as [[| |r]|] eqn:Hc; try by apply Hfr.
    simpl. intros Hp.
    apply alter_settle_resolved in Hp as [Hp|(-> & Heq & _)]; [by left|].
    inversion Heq; subst. by right.
  - by apply Hfr.
  - assert (Hne : s' ≠ s) by congruence.
    unfold session_release. destruct (heap st !! s'); [|by apply Hfr].
    unfold on_SESSION_RELEASE; simpl.
    destruct (waiters st) as [|w0 rest]; [by apply Hfr|]. simpl.
    intros Hp. apply alter_settle_resolved in Hp as [Hp|(_ & Heq & _)];
      [by left|]. inversion Heq. done.
  - apply Hfr, session_delete_frame.
  - apply Hfr, deleteSession_frame.
  - apply Hfr. unfold session_delete_settled.
    destruct (deletes st !! d) as [[s0 chained]|]; [|done].
    by destruct (ok && chained).
  - unfold timer_fire.
    destruct (timers st !! w') as [[deadline T]|]; [|by apply Hfr].
    destruct (bool_decide (deadline <= now st)); [|by apply Hfr]. simpl.
    intros Hp. apply alter_settle_resolved in Hp as [Hp|(_ & Heq & _)];
      [by left|done].
  - unfold tick. destruct (bool_decide _); simpl; intros H; left; by exists n.
  - apply Hfr. unfold keepAlive_fire. by destruct (sessionKeepAliveId st).
  - apply Hfr. unfold keepAlive_retry. destruct (heap st !! s'); [|done].
    by destruct (keepAlive_sent _ _).
  - apply Hfr, destroy_frame.
Qed.

(** A [.then] that is due for an existing session was due before the
    step: a new one is due only for the session the step has just added. *)
Lemma then_pending_step st ev s c :
  wf st -> is_Some (heap st !! s) ->
  creates (step st ev) !! c = Some (ThenPending s) ->
  creates st !! c = Some (ThenPending s).
Proof.
  intros Hwf Hs.
  assert (Hlt : (s < next st)%nat) by by apply (wf_heap st Hwf).
  assert (Hfr : forall st', queue_of st' = queue_of st ->
    creates st' !! c = Some (ThenPending s) ->
    creates st !! c = Some (ThenPending s)).
  { intros st' Hq Hp.
    assert (Hq4 : creates st' = creates st)
      by (unfold queue_of in Hq; congruence).
    by rewrite Hq4 in Hp. }
  assert (Hdel : forall c', delete c' (creates st) !! c = Some (ThenPending s) ->
                            creates st !! c = Some (ThenPending s)).
  { intros c' H. destruct (decide (c' = c)) as [->|Hne].
    - by rewrite lookup_delete_eq in H.
    - by rewrite lookup_delete_ne in H. }
  destruct ev as [timeout|c' sid ep|c' err|c' sid ep|c'|s'|s'|s'|s'|d ok|w'| | |s'|];
    cbn [step].
  - unfold acquire. destruct (acquire_decision st) as [s'| |]; simpl; try done.
    destruct (decide (next st = c)) as [<-|Hne].
    + by rewrite lookup_insert_eq.
    + by rewrite lookup_insert_ne.
  - unfold createSession_resume.
    destruct (creates st !! c') as [[| |r]|]; simpl; try done; apply Hdel.
  - unfold createSession_reject.
    destruct (creates st !! c') as [[| |r]|]; simpl; try done; apply Hdel.
  - unfold createSession_added.
    destruct (creates st !! c') as [[| |r]|]; simpl; try done; [apply Hdel|].
    destruct (decide (c' = c)) as [->|Hne].
    + rewrite lookup_insert_eq. intros [= Heq]. lia.
    + by rewrite lookup_insert_ne.
  - unfold acquire_then.
    destruct (creates st !! c') as [[| |r]|]; simpl; try done; apply Hdel.
  - done.
  - unfold session_release. destruct (heap st !! s'); [|done].
    unfold on_SESSION_RELEASE; simpl. by destruct (waiters st).
  - apply Hfr, session_delete_frame.
  - apply Hfr, deleteSession_frame.
  - apply Hfr. unfold session_delete_settled.
    destruct (deletes st !! d) as [[s0 chained]|]; [|done].
    by destruct (ok && chained).
  - unfold timer_fire.
    destruct (timers st !! w') as [[deadline T]|]; [|done].
    by destruct (bool_decide (deadline <= now st)).
  - unfold tick. by destruct (bool_decide _).
  - apply Hfr. unfold keepAlive_fire. by destruct (sessionKeepAliveId st).
  - apply Hfr. unfold keepAlive_retry. destruct (heap st !! s'); [|done].
    by destruct (keepAlive_sent _ _).
  - apply Hfr, destroy_frame.
Qed.

Lemma resolved_with_run st evs s :
  wf st -> held s st -> EvRelease s ∉ evs ->
  (forall p n,
     promises (run st evs) !! p =
       Some {| outcome := Resolved s; settleCalls := n |} ->
     (exists n', promises st !! p =
                   Some {| outcome := Resolved s; settleCalls := n' |}) \/
     creates st !! p = Some (ThenPending s)) /\
  (forall c, creates (run st evs) !! c = Some (ThenPending s) ->
             creates st !! c = Some (ThenPending s)).
Proof.
  intros Hwf Hh Hnin.
  induction evs as [|ev evs IH] using rev_ind.
  - split; [|done]. intros p n Hp. left. by exists n.
  - assert (Hnin' : EvRelease s ∉ evs).
    { intros Hin. apply Hnin. apply elem_of_app. by left. }
    assert (Hev : ev ≠ EvRelease s).
    { intros ->. apply Hnin. apply elem_of_app. right. by left. }
    destruct (IH Hnin') as [IHp IHc].
    pose proof (held_run s st evs Hwf Hnin' Hh) as Hh'.
    pose proof (wf_run st evs Hwf) as Hwf'.
    rewrite run_snoc. split.
    + intros p n Hp.
      destruct (resolved_with_step _ ev s p n Hwf' Hh' Hev Hp) as [[n' Hp']|Hc].
      * by apply (IHp p n').
      * right. by apply IHc.
    + intros c Hc. apply IHc.
      apply (then_pending_step _ ev s c Hwf'); [|done].
      destruct Hh' as (o & Ho & _). by eexists.
Qed.

(** A session handed out by the free-session scan of [acquire] is taken
    until it is released: whatever else happens in the pool, as long as
    [release] is not called on it, no later [acquire] finds it free or
    hands it out, and no promise made later resolves with it.  The one
    other promise that can still resolve with it is that of the [acquire]
    that created the session, when its [.then] was still due at the time
    of the scan: [createSession] puts the session into the set free, and
    the [.then] takes it without looking at the flag. *)
Theorem acquired_session_is_exclusive minL maxL t0 evs0 timeout s evs :
  let st := run (new_SessionPool minL maxL t0) evs0 in
  acquire_decision st = UseFree s ->
  EvRelease s ∉ evs ->
  let st' := run (acquire timeout st).1 evs in
  session_isFree st' s = false /\
  acquire_decision st' ≠ UseFree s /\
  (forall w n, (next (acquire timeout st).1 <= w)%nat ->
     promises st' !! w ≠ Some {| outcome := Resolved s; settleCalls := n |}) /\
  (forall p n,
     promises st' !! p = Some {| outcome := Resolved s; settleCalls := n |} ->
     p = (acquire timeout st).2 \/
     (exists n', promises st !! p =
                   Some {| outcome := Resolved s; settleCalls := n' |}) \/
     creates st !! p = Some (ThenPending s)) /\
  (forall c, creates st' !! c = Some (ThenPending s) ->
             creates st !! c = Some (ThenPending s)).
Proof.
  intros st Hdec Hnin st'.
  assert (Hwf : wf st) by apply wf_reachable.
  assert (Hwf1 : wf (acquire timeout st).1) by by apply wf_acquire.
  assert (Hs : is_Some (heap st !! s)).
  { unfold acquire_decision, find_free in Hdec.
    destruct (list_find _ (sessions st)) as [[i x]|] eqn:Hfind; simpl in Hdec;
      [|by destruct (bool_decide _)].
    inversion Hdec; subst.
    apply list_find_Some in Hfind as (_ & Hx & _).
    unfold session_isFree in Hx. by destruct (heap st !! s). }
  assert (Hheld : held s (acquire timeout st).1).
  { destruct Hs as [o Ho]. unfold acquire. rewrite Hdec. simpl.
    exists (Session_acquire o). simpl. by rewrite lookup_alter_eq, Ho. }
  destruct (resolved_with_run _ evs s Hwf1 Hheld Hnin) as [Hres Hthen].
  fold st' in Hres, Hthen.
  assert (Hcr : creates (acquire timeout st).1 = creates st).
  { unfold acquire. by rewrite Hdec. }
  split; [by apply held_not_free, held_run|].
  split; [by apply held_not_free, held_run|].
  split; [|split].
  - intros w n Hw Hp. destruct (Hres w n Hp) as [[n' Hp']|Hc].
    + assert (Hlt : (w < next (acquire timeout st).1)%nat).
      { apply (wf_promises _ Hwf1). by eexists. }
      lia.
    + assert (Hlt : (w < next (acquire timeout st).1)%nat).
      { apply (wf_creates _ Hwf1). by eexists. }
      lia.
  - intros p n Hp. destruct (Hres p n Hp) as [[n' Hp']|Hc].
    + revert Hp'. unfold acquire. rewrite Hdec. simpl.
      destruct (decide (next st = p)) as [<-|Hne]; [by left|].
      rewrite lookup_insert_ne by done. intros Hp'.
      right; left. by exists n'.
    + right; right. by rewrite <- Hcr.
  - intros c Hc. rewrite <- Hcr. by apply Hthen.
Qed.

(** ** A waiter without timeout *)

Lemma untimed_waiter_run st evs :
  wf st -> acquire_decision st = Enqueue ->
  let w := (acquire 0 st).2 in
  let st' := run (acquire 0 st).1 evs in
  (queued w st' /\ timers st' !! w = None) \/
  (exists s, settled_once w (Resolved s) st').
Proof.
  intros Hwf Hdec.
  assert (Hwf1 : wf (acquire 0 st).1) by by apply wf_acquire.
  rewrite (acquire_enqueue 0 st Hdec) in *. cbn [fst snd] in *.
  set (st1 := set_next _ _) in *.
  induction evs as [|ev evs IH] using rev_ind.
  - left. unfold queued, st1; simpl.
    rewrite lookup_insert_eq.
    split; [split; [apply elem_of_app; right; by left|split; [done|]]|].
    + destruct (creates st !! next st) as [k|] eqn:Hk; [|done].
      destruct (wf_creates st Hwf (next st)) as [Hlt _]; [by eexists|lia].
    + destruct (timers st !! next st) as [dt|] eqn:Ht; [|done].
      destruct (wf_timers st Hwf _ _ Ht) as [Hin _].
      apply (wf_waiters st Hwf) in Hin. lia.
  - cbv zeta. rewrite run_snoc.
    pose proof (wf_run st1 evs Hwf1) as Hwf'.
    destruct IH as [[Hq Ht] | [s Hset]].
    + destruct (step_queued (run st1 evs) ev (next st) Hwf' Hq)
        as [[Hq' Ht'] | [(s & -> & Hs & Hh & Hset) | (d' & T' & -> & Ht' & _)]].
      * left. split; [done|]. by rewrite Ht'.
      * right. by exists s.
      * congruence.
    + right. exists s. by apply step_settled.
Qed.

(** [acquire(0)] that has to wait waits without limit: its promise is never
    rejected, whatever timers fire and however long it takes; it stays in
    the queue until a released session is handed to it. *)
Theorem untimed_waiter_never_rejected minL maxL t0 evs0 evs :
  let st := run (new_SessionPool minL maxL t0) evs0 in
  acquire_decision st = Enqueue ->
  let w := (acquire 0 st).2 in
  let st' := run (acquire 0 st).1 evs in
  (forall err n,
     promises st' !! w ≠ Some {| outcome := Rejected err; settleCalls := n |}) /\
  ((w ∈ waiters st' /\ promises st' !! w = Some new_Promise) \/
   (exists s, (w ∉ waiters st') /\
      promises st' !! w = Some {| outcome := Resolved s; settleCalls := 1 |})).
Proof.
  intros st Hdec w st'.
  assert (Hwf : wf st) by apply wf_reachable.
  destruct (untimed_waiter_run st evs Hwf Hdec)
    as [[(Hin & Hp & _) _] | [s (Hnin & _ & _ & _ & Hp)]];
    fold w st' in Hin, Hp || fold w st' in Hnin, Hp.
  - split; [intros err n; by rewrite Hp|]. by left.
  - split; [intros err n; by rewrite Hp|]. right. by exists s.
Qed.

Lemma untimed_waiter_never_rejected_witness :
  let st := run (new_SessionPool 0 0 0) [EvAcquire 0] in
  let st' := run (acquire 0 st).1 (replicate 50 EvTick ++ [EvTimer 1%nat]) in
  (1%nat ∈ waiters st' /\ promises st' !! 1%nat = Some new_Promise) \/
  (exists s, (1%nat ∉ waiters st') /\
     promises st' !! 1%nat = Some {| outcome := Resolved s; settleCalls := 1 |}).
Proof.
  destruct (untimed_waiter_never_rejected 0 0 0 [EvAcquire 0]
              (replicate 50 EvTick ++ [EvTimer 1%nat]) eq_refl) as [_ H].
  exact H.
Defined.

(** ** The session set *)

Lemma heap_persists_session_delete s chained st r :
  is_Some (heap st !! r) -> is_Some (heap (session_delete s chained st) !! r).
Proof.
  intros Hr. unfold session_delete.
  destruct (heap st !! s) as [o|] eqn:Ho; [|done].
  destruct (Session_delete o) as [o' [|rq]]; [by destruct chained|]. simpl.
  destruct (decide (s = r)) as [->|Hne];
    [by rewrite lookup_insert_eq|by rewrite lookup_insert_ne].
Qed.

Lemma heap_persists_deleteSession s st r :
  is_Some (heap st !! r) -> is_Some (heap (deleteSession s st).1 !! r).
Proof.
  intros Hr. unfold deleteSession.
  destruct (heap st !! s) as [o|] eqn:Ho; [|done].
  destruct (Session_isDeleted o); [done|]. simpl.
  by apply heap_persists_session_delete.
Qed.

Lemma sessions_session_delete s chained st :
  sessions (session_delete s chained st) = sessions st \/
  sessions (session_delete s chained st) = set_delete s (sessions st).
Proof.
  unfold session_delete.
  destruct (heap st !! s) as [o|]; [|by left].
  destruct (Session_delete o) as [o' [|rq]]; [destruct chained|]; auto.
Qed.

Lemma sessions_ok_shrink st st' :
  sessions_ok st ->
  (sessions st' = sessions st \/
   exists s, sessions st' = set_delete s (sessions st)) ->
  (forall r, is_Some (heap st !! r) -> is_Some (heap st' !! r)) ->
  sessions_ok st'.
Proof.
  intros [Hnd Hin] Hs Hh. unfold sessions_ok. destruct Hs as [-> | [s ->]].
  - split; [done|]. intros r Hr. by apply Hh, Hin.
  - unfold set_delete. split; [by apply NoDup_filter|].
    intros r Hr. apply list_elem_of_filter in Hr as [_ Hr]. by apply Hh, Hin.
Qed.

Lemma sessions_ok_session_delete s chained st :
  sessions_ok st -> sessions_ok (session_delete s chained st).
Proof.
  intros Hok. apply (sessions_ok_shrink st); [done| |].
  - destruct (sessions_session_delete s chained st); eauto.
  - intros r. apply heap_persists_session_delete.
Qed.

Lemma sessions_ok_deleteSession s st :
  sessions_ok st -> sessions_ok (deleteSession s st).1.
Proof.
  intros Hok. unfold deleteSession.
  destruct (heap st !! s) as [o|]; [|done].
  destruct (Session_isDeleted o); [done|]. simpl.
  apply sessions_ok_session_delete. by apply (sessions_ok_shrink st); auto.
Qed.

Lemma sessions_ok_destroy st : sessions_ok st -> sessions_ok (destroy st).1.
Proof.
  intros Hok. unfold destroy.
  assert (Hgen : forall l acc, sessions_ok acc.1 ->
    sessions_ok
      (foldl (λ (acc : SessionPool * Awaited) s0,
                let '(st', a) := deleteSession s0 acc.1 in (st', acc.2 ++ a))
             acc l).1).
  { induction l as [|x l IH]; intros acc Hacc; [done|].
    simpl. apply IH.
    pose proof (sessions_ok_deleteSession x acc.1 Hacc) as H.
    by destruct (deleteSession x acc.1). }
  apply Hgen. simpl. by apply (sessions_ok_shrink st); auto.
Qed.

Lemma sessions_ok_step st ev :
  wf st -> sessions_ok st -> sessions_ok (step st ev).
Proof.
  intros Hwf Hok. pose proof Hok as [Hnd Hin].
  destruct ev as [timeout|c sid ep|c err|c sid ep|c|s|s|s|s|d ok|w'| | |s|];
    cbn [step].
  - unfold acquire. destruct (acquire_decision st) as [s| |]; simpl.
    + apply (sessions_ok_shrink st); [done|by left|].
      simpl. intros r Hr. by apply is_Some_alter.
    + by apply (sessions_ok_shrink st); auto.
    + by apply (sessions_ok_shrink st); auto.
  - unfold createSession_resume.
    destruct (creates st !! c) as [k|]; [|done].
    assert (Hfresh : next st ∉ sessions st).
    { intros H. apply Hin, (wf_heap st Hwf) in H. lia. }
    assert (Hadd : set_add (next st) (sessions st) = sessions st ++ [next st]).
    { unfold set_add. by rewrite decide_False. }
    assert (Hnd' : NoDup (sessions st ++ [next st])).
    { apply NoDup_app. split; [done|]. split; [|apply NoDup_singleton].
      intros x Hx Hx'. apply list_elem_of_singleton in Hx'. by subst. }
    assert (Hall : forall r, r ∈ sessions st ++ [next st] ->
              is_Some (<[next st := new_Session ep sid]> (heap st) !! r)).
    { intros r Hr. apply elem_of_app in Hr as [Hr|Hr].
      - apply Hin in Hr. destruct (decide (next st = r)) as [->|Hne];
          [by rewrite lookup_insert_eq|by rewrite lookup_insert_ne].
      - apply list_elem_of_singleton in Hr. subst.
        by rewrite lookup_insert_eq. }
    destruct k as [| |r']; [| |done]; split; simpl; rewrite Hadd; try done.
    intros r Hr. by apply is_Some_alter, Hall.
  - unfold createSession_reject.
    destruct (creates st !! c) as [[| |r']|];
      by apply (sessions_ok_shrink st); auto.
  - unfold createSession_added.
    destruct (creates st !! c) as [k|]; [|done].
    assert (Hfresh : next st ∉ sessions st).
    { intros H. apply Hin, (wf_heap st Hwf) in H. lia. }
    assert (Hadd : set_add (next st) (sessions st) = sessions st ++ [next st]).
    { unfold set_add. by rewrite decide_False. }
    assert (Hnd' : NoDup (sessions st ++ [next st])).
    { apply NoDup_app. split; [done|]. split; [|apply NoDup_singleton].
      intros x Hx Hx'. apply list_elem_of_singleton in Hx'. by subst. }
    assert (Hall : forall r, r ∈ sessions st ++ [next st] ->
              is_Some (<[next st := new_Session ep sid]> (heap st) !! r)).
    { intros r Hr. apply elem_of_app in Hr as [Hr|Hr].
      - apply Hin in Hr. destruct (decide (next st = r)) as [->|Hne];
          [by rewrite lookup_insert_eq|by rewrite lookup_insert_ne].
      - apply list_elem_of_singleton in Hr. subst.
        by rewrite lookup_insert_eq. }
    destruct k as [| |r']; [| |done]; split; simpl; rewrite Hadd; done.
  - unfold acquire_then.
    destruct (creates st !! c) as [[| |r']|]; try done.
    apply (sessions_ok_shrink st); [done|by left|].
    simpl. intros r Hr. by apply is_Some_alter.
  - apply (sessions_ok_shrink st); [done|by left|].
    simpl. intros r Hr. by apply is_Some_alter.
  - unfold session_release. destruct (heap st !! s); [|done].
    unfold on_SESSION_RELEASE; simpl.
    destruct (waiters st) as [|w rest]; (apply (sessions_ok_shrink st);
      [done|by left|]); simpl; intros r Hr; by rewrite ?is_Some_alter.
  - by apply sessions_ok_session_delete.
  - by apply sessions_ok_deleteSession.
  - unfold session_delete_settled.
    destruct (deletes st !! d) as [[s chained]|]; [|done].
    destruct (ok && chained); (apply (sessions_ok_shrink st); [done| |done]);
      simpl; eauto.
  - unfold timer_fire.
    destruct (timers st !! w') as [[deadline timeout]|]; [|done].
    destruct (bool_decide (deadline <= now st)); [|done].
    by apply (sessions_ok_shrink st); auto.
  - unfold tick. destruct (bool_decide _); [|done].
    by apply (sessions_ok_shrink st); auto.
  - unfold keepAlive_fire. destruct (sessionKeepAliveId st); [|done].
    by apply (sessions_ok_shrink st); auto.
  - unfold keepAlive_retry. destruct (heap st !! s); [|done].
    destruct (keepAlive_sent _ _); [|done].
    by apply (sessions_ok_shrink st); auto.
  - by apply sessions_ok_destroy.
Qed.

Lemma creates_prepopulate n st0 :
  creates st0 = ∅ -> next st0 = 0%nat ->
  let st := Nat.iter n (λ st, (createSession ForPrepopulate st).1) st0 in
  next st = n /\
  (forall c, creates st !! c =
             if bool_decide (c < n)%nat then Some ForPrepopulate else None) /\
  sessions st = sessions st0 /\ heap st = heap st0 /\
  promises st = promises st0 /\ waiters st = waiters st0 /\
  timers st = timers st0 /\ deletes st = deletes st0 /\
  newSessionsRequested st = newSessionsRequested st0 /\
  sessionsBeingDeleted st = sessionsBeingDeleted st0 /\
  maxLimit st = maxLimit st0 /\ rpcLog st = rpcLog st0.
Proof.
  intros Hc Hn. cbv zeta. induction n as [|n IH].
  - simpl. split; [done|]. split; [|done]. intros c. by rewrite Hc.
  - change (Nat.iter (S n) (λ st, (createSession ForPrepopulate st).1) st0)
      with ((createSession ForPrepopulate
               (Nat.iter n (λ st, (createSession ForPrepopulate st).1) st0)).1).
    set (stn := Nat.iter n (λ st, (createSession ForPrepopulate st).1) st0) in *.
    destruct IH as (I1 & I2 & I3). unfold createSession. simpl.
    split; [by rewrite I1|].
    split; [|done]. intros c. rewrite I1.
    destruct (decide (n = c)) as [->|Hne].
    + rewrite lookup_insert_eq. by rewrite bool_decide_eq_true_2 by lia.
    + rewrite lookup_insert_ne by done. rewrite I2.
      destruct (bool_decide (c < n)%nat) eqn:E.
      * apply bool_decide_eq_true in E. by rewrite bool_decide_eq_true_2 by lia.
      * apply bool_decide_eq_false in E. by rewrite bool_decide_eq_false_2 by lia.
Qed.

Lemma sessions_ok_reachable minL maxL t0 evs :
  sessions_ok (run (new_SessionPool minL maxL t0) evs).
Proof.
  induction evs as [|ev evs IH] using rev_ind.
  - destruct (creates_prepopulate (Z.abs_nat minL)
                (mkSessionPool minL maxL ∅ [] 0 0 false [] ∅ ∅ ∅ ∅ [] t0 0)
                eq_refl eq_refl) as (_ & _ & Hs & _).
    cbv zeta in Hs.
    unfold sessions_ok, run, new_SessionPool, prepopulateSessions.
    cbn [minLimit]. set (stn := Nat.iter (Z.abs_nat minL) _ _) in *.
    simpl. rewrite Hs. simpl. split; [apply NoDup_nil_2|].
    intros r Hr. by apply elem_of_nil in Hr.
  - rewrite run_snoc. apply sessions_ok_step; [apply wf_reachable|done].
Qed.

(** The constructor starts |minLimit| creations and nothing else: no
    session exists yet, no capacity is reserved for the creations in
    flight, and the first [acquire] creates a further session whenever
    [maxLimit >= 0], whatever [minLimit] is. *)
Theorem constructor_prepopulates minL maxL t0 :
  let st := new_SessionPool minL maxL t0 in
  sessions st = [] /\ heap st = ∅ /\ waiters st = [] /\
  newSessionsRequested st = 0 /\ sessionsBeingDeleted st = 0 /\
  sessionKeepAliveId st = true /\
  next st = Z.abs_nat minL /\
  (forall c, creates st !! c =
     if bool_decide (c < Z.abs_nat minL)%nat then Some ForPrepopulate else None) /\
  acquire_decision st = if bool_decide (0 <= maxL) then CreateNew else Enqueue.
Proof.
  destruct (creates_prepopulate (Z.abs_nat minL)
              (mkSessionPool minL maxL ∅ [] 0 0 false [] ∅ ∅ ∅ ∅ [] t0 0)
              eq_refl eq_refl)
    as (H1 & H2 & H3 & H4 & H5 & H6 & H7 & H8 & H9 & H10 & H11 & H12).
  cbv zeta in *.
  unfold acquire_decision, find_free, new_SessionPool, prepopulateSessions.
  cbn [minLimit]. set (stn := Nat.iter (Z.abs_nat minL) _ _) in *.
  simpl in *. rewrite H3, H4, H6, H9, H10, H11. simpl.
  repeat (split; [done|]). done.
Qed.

(** ** withSession *)

(** What [withSession] does once [acquire] has handed over session [s]. *)
Lemma withSession_resume_spec {R : Type} (callback : Callback R)
    (s : nat) (st : SessionPool) :
  let st1 := (callback s st).1 in
  let out := (callback s st).2 in
  let st2 := (withSession_resume callback s st).1 in
  let res := (withSession_resume callback s st).2 in
  res = out /\
  (forall result o, out = inl result -> heap st1 !! s = Some o ->
     st2 = session_release s st1 /\
     rpcLog st2 = rpcLog st1 /\ deletes st2 = deletes st1 /\
     sessions st2 = sessions st1 /\
     sessionsBeingDeleted st2 = sessionsBeingDeleted st1 /\
     exists o', heap st2 !! s = Some o' /\
       beingDeleted o' = beingDeleted o /\
       match waiters st1 with
       | [] => free o' = true /\ waiters st2 = []
       | w :: rest =>
           free o' = false /\ waiters st2 = rest /\ timers st2 !! w = None /\
           promises st2 !! w = settle (Resolved s) <$> promises st1 !! w
       end) /\
  (forall error o, out = inr error -> heap st1 !! s = Some o ->
     st2 = (deleteSession s st1).1 /\
     waiters st2 = waiters st1 /\ promises st2 = promises st1 /\
     sessions st2 = sessions st1 /\
     rpcLog st2 = rpcLog st1 ++
       (if Session_isDeleted o then [] else [DeleteSessionRpc (sessionId o)]) /\
     exists o', heap st2 !! s = Some o' /\
       Session_isDeleted o' = true /\ free o' = free o /\
       Session_isFree o' = false).
Proof.
  intros st1 out st2 res. subst st1 out st2 res.
  unfold withSession_resume.
  destruct (callback s st) as [st1 out]. cbn [fst snd].
  split; [by destruct out|]. split.
  - intros result o -> Ho. cbn [withSession_finish fst snd].
    split; [done|].
    unfold session_release. rewrite Ho. unfold on_SESSION_RELEASE; simpl.
    destruct (waiters st1) as [|w rest] eqn:Hws; simpl.
    + repeat split; try done.
      exists (Session_release o). rewrite lookup_alter_eq, Ho. done.
    + repeat split; try done.
      exists (Session_acquire (Session_release o)).
      rewrite lookup_delete_eq, lookup_alter_eq. rewrite !lookup_alter_eq, Ho.
      done.
  - intros error o -> Ho. cbn [withSession_finish fst snd].
    split; [done|].
    destruct (Session_isDeleted o) eqn:Hd.
    + rewrite (deleteSession_deleted s o st1 Ho Hd).
      rewrite app_nil_r. repeat split; try done.
      exists o. unfold Session_isFree. rewrite Hd.
      repeat split; try done. by destruct (free o).
    + rewrite (deleteSession_live s o st1 Ho Hd). simpl.
      repeat split; try done.
      eexists. rewrite lookup_insert_eq. split; [done|].
      unfold Session_isFree; simpl. repeat split; try done. by destruct (free o).
Qed.

Lemma heap_persists_destroy st r :
  is_Some (heap st !! r) -> is_Some (heap (destroy st).1 !! r).
Proof.
  intros Hr. unfold destroy.
  assert (Hgen : forall l acc, is_Some (heap acc.1 !! r) ->
    is_Some (heap
      (foldl (λ (acc : SessionPool * Awaited) s0,
                let '(st', a) := deleteSession s0 acc.1 in (st', acc.2 ++ a))
             acc l).1 !! r)).
  { induction l as [|x l IH]; intros acc Hacc; [done|].
    simpl. apply IH.
    pose proof (heap_persists_deleteSession x acc.1 r Hacc) as H.
    by destruct (deleteSession x acc.1). }
  by apply Hgen.
Qed.

(** Session objects are never dropped from the heap. *)
Lemma heap_persists_step st ev r :
  is_Some (heap st !! r) -> is_Some (heap (step st ev) !! r).
Proof.
  intros Hr.
  assert (Hins : forall k v, is_Some (<[k := v]> (heap st) !! r)).
  { intros k v. destruct (decide (k = r)) as [->|Hne];
      [by rewrite lookup_insert_eq|by rewrite lookup_insert_ne]. }
  destruct ev as [timeout|c sid ep|c err|c sid ep|c|s|s|s|s|d ok|w'| | |s|];
    cbn [step].
  - unfold acquire.
    destruct (acquire_decision st); simpl; [by apply is_Some_alter|done|done].
  - unfold createSession_resume.
    destruct (creates st !! c) as [[| |r']|]; simpl;
      rewrite ?is_Some_alter; try done; apply Hins.
  - unfold createSession_reject.
    by destruct (creates st !! c) as [[| |r']|].
  - unfold createSession_added.
    destruct (creates st !! c) as [[| |r']|]; simpl;
      try done; apply Hins.
  - unfold acquire_then.
    destruct (creates st !! c) as [[| |r']|]; simpl; try done.
    by apply is_Some_alter.
  - simpl. by apply is_Some_alter.
  - unfold session_release. destruct (heap st !! s) as [o|] eqn:Ho; [|done].
    unfold on_SESSION_RELEASE; simpl.
    destruct (waiters st); simpl; rewrite ?is_Some_alter; done.
  - by apply heap_persists_session_delete.
  - by apply heap_persists_deleteSession.
  - unfold session_delete_settled.
    destruct (deletes st !! d) as [[s chained]|]; [|done].
    by destruct (ok && chained).
  - unfold timer_fire.
    destruct (timers st !! w') as [[deadline timeout]|]; [|done].
    by destruct (bool_decide (deadline <= now st)).
  - unfold tick. by destruct (bool_decide _).
  - unfold keepAlive_fire. by destruct (sessionKeepAliveId st).
  - unfold keepAlive_retry. destruct (heap st !! s); [|done].
    by destruct (keepAlive_sent _ _).
  - by apply heap_persists_destroy.
Qed.

(** Promises are never dropped either. *)
Lemma promise_persists_step st ev p :
  is_Some (promises st !! p) -> is_Some (promises (step st ev) !! p).
Proof.
  intros Hp.
  assert (Hins : forall k v, is_Some (<[k := v]> (promises st) !! p)).
  { intros k v. destruct (decide (k = p)) as [->|Hne];
      [by rewrite lookup_insert_eq|by rewrite lookup_insert_ne]. }
  assert (Hfr : forall st', queue_of st' = queue_of st ->
                            is_Some (promises st' !! p)).
  { intros st' Hq.
    assert (Hq2 : promises st' = promises st)
      by (unfold queue_of in Hq; congruence).
    by rewrite Hq2. }
  destruct ev as [timeout|c sid ep|c err|c sid ep|c|s|s|s|s|d ok|w'| | |s|];
    cbn [step].
  - unfold acquire.
    destruct (acquire_decision st); simpl; apply Hins.
  - unfold createSession_resume.
    destruct (creates st !! c) as [[| |r']|]; simpl; try done.
    by apply is_Some_alter.
  - unfold createSession_reject.
    destruct (creates st !! c) as [[| |r']|]; simpl; try done.
    by apply is_Some_alter.
  - unfold createSession_added.
    by destruct (creates st !! c) as [[| |r']|].
  - unfold acquire_then.
    destruct (creates st !! c) as [[| |r']|]; simpl; try done.
    by apply is_Some_alter.
  - done.
  - unfold session_release. destruct (heap st !! s) as [o|] eqn:Ho; [|done].
    unfold on_SESSION_RELEASE; simpl.
    destruct (waiters st); simpl; rewrite ?is_Some_alter; done.
  - apply Hfr, session_delete_frame.
  - apply Hfr, deleteSession_frame.
  - unfold session_delete_settled.
    destruct (deletes st !! d) as [[s chained]|]; [|done].
    by destruct (ok && chained).
  - unfold timer_fire.
    destruct (timers st !! w') as [[deadline timeout]|]; [|done].
    destruct (bool_decide (deadline <= now st)); [|done]. simpl.
    by apply is_Some_alter.
  - unfold tick. by destruct (bool_decide _).
  - unfold keepAlive_fire. by destruct (sessionKeepAliveId st).
  - unfold keepAlive_retry. destruct (heap st !! s); [|done].
    by destruct (keepAlive_sent _ _).
  - apply Hfr, destroy_frame.
Qed.

Lemma promise_persists_run st evs p :
  is_Some (promises st !! p) -> is_Some (promises (run st evs) !! p).
Proof.
  revert st. induction evs as [|ev evs IH]; intros st Hp; [done|].
  change (run st (ev :: evs)) with (run (step st ev) evs).
  by apply IH, promise_persists_step.
Qed.

Lemma UseFree_in_heap st s :
  acquire_decision st = UseFree s -> is_Some (heap st !! s).
Proof.
  unfold acquire_decision, find_free. intros Hdec.
  destruct (list_find _ (sessions st)) as [[i x]|] eqn:Hfind; simpl in Hdec;
    [|by destruct (bool_decide _)].
  inversion Hdec; subst.
  apply list_find_Some in Hfind as (_ & Hx & _).
  unfold session_isFree in Hx. by destruct (heap st !! s).
Qed.

Lemma alter_settle_outcome (m : gmap nat Promise) o w p pr s :
  alter (settle o) w m !! p = Some pr -> outcome pr = Resolved s ->
  (exists pr', m !! p = Some pr' /\ outcome pr' = Resolved s) \/
  (p = w /\ o = Resolved s /\
   exists k, m !! p = Some {| outcome := Pending; settleCalls := k |}).
Proof.
  destruct (decide (w = p)) as [->|Hne].
  - rewrite lookup_alter_eq. destruct (m !! p) as [[o' k]|]; [|done]. simpl.
    intros [= <-]. simpl. destruct o'; simpl; intros H.
    + right. split; [done|]. split; [done|]. by exists k.
    + left. eexists. split; [done|]. done.
    + done.
  - rewrite lookup_alter_ne by done. intros H1 H2. left. by exists pr.
Qed.

(** A step resolves a promise only with a session that exists, and that
    is taken when the step is over. *)
Lemma resolving_step st ev p pr s :
  wf st -> resolved_ok st ->
  promises (step st ev) !! p = Some pr -> outcome pr = Resolved s ->
  (exists pr', promises st !! p = Some pr' /\ outcome pr' = Resolved s) \/
  held s (step st ev).
Proof.
  intros Hwf [Hp Hc].
  assert (Hfr : forall st', queue_of st' = queue_of st ->
    promises st' !! p = Some pr -> outcome pr = Resolved s ->
    (exists pr', promises st !! p = Some pr' /\ outcome pr' = Resolved s) \/
    held s st').
  { intros st' Hq H1 H2.
    assert (Hq2 : promises st' = promises st)
      by (unfold queue_of in Hq; congruence).
    rewrite Hq2 in H1. left. by exists pr. }
  destruct ev as [timeout|c sid ep|c err|c sid ep|c|s'|s'|s'|s'|d ok|w'| | |s'|];
    cbn [step].
  - unfold acquire.
    destruct (acquire_decision st) as [s'| |] eqn:Hd; simpl.
    + destruct (decide (next st = p)) as [<-|Hne].
      * rewrite lookup_insert_eq. intros [= <-]. simpl. intros [= ->].
        right. destruct (UseFree_in_heap st s Hd) as [o Ho].
        exists (Session_acquire o). simpl. by rewrite lookup_alter_eq, Ho.
      * rewrite lookup_insert_ne by done. intros H1 H2. left. by exists pr.
    + destruct (decide (next st = p)) as [<-|Hne].
      * rewrite lookup_insert_eq. by intros [= <-].
      * rewrite lookup_insert_ne by done. intros H1 H2. left. by exists pr.
    + destruct (decide (next st = p)) as [<-|Hne].
      * rewrite lookup_insert_eq. by intros [= <-].
      * rewrite lookup_insert_ne by done. intros H1 H2. left. by exists pr.
  - unfold createSession_resume.
    destruct (creates st !! c) as [k|] eqn:Hk; [|by apply Hfr].
    destruct k; simpl;
      [intros H1 H2; left; by exists pr| |by apply Hfr].
    intros H1 H2.
    destruct (alter_settle_outcome _ _ _ _ _ _ H1 H2) as [H|(_ & Heq & _)];
      [by left|].
    inversion Heq; subst. right. eexists. simpl.
    rewrite lookup_alter_eq, lookup_insert_eq. simpl. done.
  - unfold createSession_reject.
    destruct (creates st !! c) as [k|] eqn:Hk; [|by apply Hfr].
    destruct k; simpl;
      [intros H1 H2; left; by exists pr| |by apply Hfr].
    intros H1 H2.
    destruct (alter_settle_outcome _ _ _ _ _ _ H1 H2) as [H|(_ & Heq & _)];
      [by left|done].
  - unfold createSession_added.
    destruct (creates st !! c) as [k|] eqn:Hk; [|by apply Hfr].
    destruct k; simpl; intros H1 H2; left; by exists pr.
  - unfold acquire_then.
    destruct (creates st !! c) as [[| |r]|] eqn:Hk; try by apply Hfr.
    simpl. intros H1 H2.
    destruct (alter_settle_outcome _ _ _ _ _ _ H1 H2) as [H|(_ & Heq & _)];
      [by left|].
    inversion Heq; subst. right.
    destruct (Hc c s Hk) as [o Ho].
    exists (Session_acquire o). simpl. by rewrite lookup_alter_eq, Ho.
  - by apply Hfr.
  - unfold session_release.
    destruct (heap st !! s') as [o|] eqn:Ho; [|by apply Hfr].
    unfold on_SESSION_RELEASE; simpl.
    destruct (waiters st) as [|w0 rest]; [by apply Hfr|]. simpl.
    intros H1 H2.
    destruct (alter_settle_outcome _ _ _ _ _ _ H1 H2) as [H|(_ & Heq & _)];
      [by left|].
    inversion Heq; subst. right.
    exists (Session_acquire (Session_release o)). simpl.
    by rewrite !lookup_alter_eq, Ho.
  - apply Hfr, session_delete_frame.
  - apply Hfr, deleteSession_frame.
  - apply Hfr. unfold session_delete_settled.
    destruct (deletes st !! d) as [[s0 chained]|]; [|done].
    by destruct (ok && chained).
  - unfold timer_fire.
    destruct (timers st !! w') as [[deadline T]|]; [|by apply Hfr].
    destruct (bool_decide (deadline <= now st)); [|by apply Hfr]. simpl.
    intros H1 H2.
    destruct (alter_settle_outcome _ _ _ _ _ _ H1 H2) as [H|(_ & Heq & _)];
      [by left|done].
  - unfold tick. destruct (bool_decide _); simpl;
      intros H1 H2; left; by exists pr.
  - apply Hfr. unfold keepAlive_fire. by destruct (sessionKeepAliveId st).
  - apply Hfr. unfold keepAlive_retry. destruct (heap st !! s'); [|done].
    by destruct (keepAlive_sent _ _).
  - apply Hfr, destroy_frame.
Qed.

(** A [.then] becomes due only for the session the step has just added. *)
Lemma then_due_step st ev c r :
  creates (step st ev) !! c = Some (ThenPending r) ->
  creates st !! c = Some (ThenPending r) \/ is_Some (heap (step st ev) !! r).
Proof.
  assert (Hfr : forall st', queue_of st' = queue_of st ->
    creates st' !! c = Some (ThenPending r) ->
    creates st !! c = Some (ThenPending r) \/ is_Some (heap st' !! r)).
  { intros st' Hq H.
    assert (Hq4 : creates st' = creates st)
      by (unfold queue_of in Hq; congruence).
    rewrite Hq4 in H. by left. }
  assert (Hdel : forall c' (h : gmap nat Session),
    delete c' (creates st) !! c = Some (ThenPending r) ->
    creates st !! c = Some (ThenPending r) \/ is_Some (h !! r)).
  { intros c' h H. left. destruct (decide (c' = c)) as [->|Hne].
    - by rewrite lookup_delete_eq in H.
    - by rewrite lookup_delete_ne in H. }
  destruct ev as [timeout|c' sid ep|c' err|c' sid ep|c'|s'|s'|s'|s'|d ok|w'| | |s'|];
    cbn [step].
  - unfold acquire. destruct (acquire_decision st) as [s'| |]; simpl; auto.
    destruct (decide (next st = c)) as [<-|Hne].
    + by rewrite lookup_insert_eq.
    + rewrite lookup_insert_ne by done. auto.
  - unfold createSession_resume.
    destruct (creates st !! c') as [[| |r']|]; simpl; auto; apply Hdel.
  - unfold createSession_reject.
    destruct (creates st !! c') as [[| |r']|]; simpl; auto; apply Hdel.
  - unfold createSession_added.
    destruct (creates st !! c') as [[| |r']|]; simpl; auto; [apply Hdel|].
    destruct (decide (c' = c)) as [->|Hne].
    + rewrite lookup_insert_eq. intros [= <-]. right.
      by rewrite lookup_insert_eq.
    + rewrite lookup_insert_ne by done. auto.
  - unfold acquire_then.
    destruct (creates st !! c') as [[| |r']|]; simpl; auto; apply Hdel.
  - simpl. auto.
  - unfold session_release. destruct (heap st !! s'); [|by auto].
    unfold on_SESSION_RELEASE; simpl. destruct (waiters st); simpl; auto.
  - apply Hfr, session_delete_frame.
  - apply Hfr, deleteSession_frame.
  - apply Hfr. unfold session_delete_settled.
    destruct (deletes st !! d) as [[s0 chained]|]; [|done].
    by destruct (ok && chained).
  - unfold timer_fire.
    destruct (timers st !! w') as [[deadline T]|]; [|by auto].
    destruct (bool_decide (deadline <= now st)); simpl; auto.
  - unfold tick. destruct (bool_decide _); simpl; auto.
  - apply Hfr. unfold keepAlive_fire. by destruct (sessionKeepAliveId st).
  - apply Hfr. unfold keepAlive_retry. destruct (heap st !! s'); [|done].
    by destruct (keepAlive_sent _ _).
  - apply Hfr, destroy_frame.
Qed.

Lemma resolved_ok_step st ev :
  wf st -> resolved_ok st -> resolved_ok (step st ev).
Proof.
  intros Hwf Hok. pose proof Hok as [Hp Hc]. split.
  - intros p pr s H1 H2.
    destruct (resolving_step st ev p pr s Hwf Hok H1 H2)
      as [(pr' & H3 & H4)|(o & Ho & _)]; [|by eexists].
    eapply heap_persists_step, Hp; eauto.
  - intros c r H1. destruct (then_due_step st ev c r H1) as [H|H]; [|done].
    eapply heap_persists_step, Hc; eauto.
Qed.

Lemma resolved_ok_run st evs :
  wf st -> resolved_ok st -> resolved_ok (run st evs).
Proof.
  revert st. induction evs as [|ev evs IH]; intros st Hwf Hok; [done|].
  change (run st (ev :: evs)) with (run (step st ev) evs).
  apply IH; [by apply wf_step|by apply resolved_ok_step].
Qed.

Lemma resolved_ok_reachable minL maxL t0 evs :
  resolved_ok (run (new_SessionPool minL maxL t0) evs).
Proof.
  apply resolved_ok_run; [apply wf_new_SessionPool|].
  destruct (creates_prepopulate (Z.abs_nat minL)
              (mkSessionPool minL maxL ∅ [] 0 0 false [] ∅ ∅ ∅ ∅ [] t0 0)
              eq_refl eq_refl) as (_ & Hcr & _ & _ & Hpr & _).
  cbv zeta in Hcr, Hpr.
  unfold resolved_ok, new_SessionPool, prepopulateSessions.
  cbn [minLimit]. set (stn := Nat.iter (Z.abs_nat minL) _ _) in *.
  simpl. split.
  - intros p pr s H. rewrite Hpr in H. simpl in H.
    by rewrite lookup_empty in H.
  - intros c r H. rewrite Hcr in H. by destruct (bool_decide _).
Qed.

(** C3.  [withSession(callback, timeout)] calls [acquire(timeout)] and
    waits for the promise it returns: with a free session in the pool the
    promise is resolved at once with that session, taken; otherwise it is
    pending until a later event settles it.  While it is pending the
    callback does not run; when [acquire] fails the callback does not run
    and the error of [acquire] is thrown.  When the promise resolves with a
    session, that session exists (and is taken at the end of the step that
    resolves the promise), and the callback runs on it.  If the callback
    returns, the session is released (its free flag is set and the
    SESSION_RELEASE listener runs: the session stays free in the pool, or
    goes to the waiter at the head of the queue), nothing is deleted, and
    the result is returned.  If it throws, the session is marked Deleted
    and not released: the free flag and the waiter queue are as the
    callback left them, one DeleteSession is sent unless the session was
    already deleted, and the same error is rethrown. *)
Theorem withSession_release_or_delete {R : Type} (callback : Callback R)
    minL maxL t0 evs0 timeout evs :
  let st := run (new_SessionPool minL maxL t0) evs0 in
  let st1 := (acquire timeout st).1 in
  let p := (acquire timeout st).2 in
  let st' := run st1 evs in
  let st3 := (withSession callback timeout st evs).1 in
  let res := (withSession callback timeout st evs).2 in
  (promises st !! p = None /\ is_Some (promises st1 !! p) /\
   is_Some (promises st' !! p)) /\
  (forall s, acquire_decision st = UseFree s ->
     promises st1 !! p = Some {| outcome := Resolved s; settleCalls := 1 |} /\
     held s st1) /\
  ((forall s, acquire_decision st ≠ UseFree s) ->
     promises st1 !! p = Some new_Promise) /\
  (forall k, promises st' !! p =
               Some {| outcome := Pending; settleCalls := k |} ->
     st3 = st' /\ res = None) /\
  (forall e k, promises st' !! p =
                 Some {| outcome := Rejected e; settleCalls := k |} ->
     st3 = st' /\ res = Some (inr e)) /\
  (forall s k, promises st' !! p =
                 Some {| outcome := Resolved s; settleCalls := k |} ->
     let st2 := (callback s st').1 in
     let out := (callback s st').2 in
     is_Some (heap st' !! s) /\
     (evs = [] -> held s st') /\
     (forall evs1 ev k', evs = evs1 ++ [ev] ->
        promises (run st1 evs1) !! p =
          Some {| outcome := Pending; settleCalls := k' |} ->
        held s st') /\
     res = Some out /\
     (forall result o, out = inl result -> heap st2 !! s = Some o ->
        st3 = session_release s st2 /\
        rpcLog st3 = rpcLog st2 /\ deletes st3 = deletes st2 /\
        sessions st3 = sessions st2 /\
        sessionsBeingDeleted st3 = sessionsBeingDeleted st2 /\
        exists o', heap st3 !! s = Some o' /\
          beingDeleted o' = beingDeleted o /\
          match waiters st2 with
          | [] => free o' = true /\ waiters st3 = []
          | w :: rest =>
              free o' = false /\ waiters st3 = rest /\
              timers st3 !! w = None /\
              promises st3 !! w = settle (Resolved s) <$> promises st2 !! w
          end) /\
     (forall error o, out = inr error -> heap st2 !! s = Some o ->
        st3 = (deleteSession s st2).1 /\
        waiters st3 = waiters st2 /\ promises st3 = promises st2 /\
        sessions st3 = sessions st2 /\
        rpcLog st3 = rpcLog st2 ++
          (if Session_isDeleted o then [] else [DeleteSessionRpc (sessionId o)]) /\
        exists o', heap st3 !! s = Some o' /\
          Session_isDeleted o' = true /\ free o' = free o /\
          Session_isFree o' = false)).
Proof.
  intros st st1 p st' st3 res.
  assert (Hwf : wf st) by apply wf_reachable.
  assert (Hwf1 : wf st1) by by apply wf_acquire.
  assert (Hok : resolved_ok st) by apply resolved_ok_reachable.
  assert (Hok1 : resolved_ok st1).
  { apply (resolved_ok_step st (EvAcquire timeout)); done. }
  assert (Hp : p = next st).
  { unfold p, acquire. by destruct (acquire_decision st). }
  assert (Hnone : promises st !! p = None).
  { destruct (promises st !! p) as [pr|] eqn:E; [|done].
    pose proof (wf_promises st Hwf p ltac:(by eexists)). lia. }
  assert (Hfree : forall s, acquire_decision st = UseFree s ->
     promises st1 !! p = Some {| outcome := Resolved s; settleCalls := 1 |} /\
     held s st1).
  { intros s Hdec. destruct (UseFree_in_heap st s Hdec) as [o Ho].
    unfold st1, p, acquire. rewrite Hdec. simpl.
    rewrite lookup_insert_eq. split; [done|].
    exists (Session_acquire o). simpl. by rewrite lookup_alter_eq, Ho. }
  assert (Hnew : (forall s, acquire_decision st ≠ UseFree s) ->
                 promises st1 !! p = Some new_Promise).
  { intros Hno. unfold st1, p, acquire.
    destruct (acquire_decision st) as [s| |] eqn:Hdec; simpl.
    - by destruct (Hno s).
    - by rewrite lookup_insert_eq.
    - by rewrite lookup_insert_eq. }
  assert (Hsome1 : is_Some (promises st1 !! p)).
  { destruct (acquire_decision st) as [s| |] eqn:Hdec.
    - destruct (Hfree s eq_refl) as [H _]. by eexists.
    - rewrite Hnew; [by eexists|]. intros s. done.
    - rewrite Hnew; [by eexists|]. intros s. done. }
  split.
  { split; [done|]. split; [done|]. by apply promise_persists_run. }
  split; [done|]. split; [done|].
  unfold st3, res, withSession.
  destruct (acquire timeout st) as [sa pa] eqn:Eacq.
  cbn [fst snd] in *. subst st1 p. fold st'.
  split; [|split].
  - intros k Hk. by rewrite Hk.
  - intros e k Hk. by rewrite Hk.
  - intros s k Hk. rewrite Hk. cbn [fmap option_fmap option_map outcome].
    assert (Hok' : resolved_ok st') by by apply resolved_ok_run.
    split; [by apply (proj1 Hok' pa _ s Hk)|].
    split.
    { intros ->. change (run sa []) with sa in *.
      destruct (acquire_decision st) as [s'| |] eqn:Hdec.
      - destruct (Hfree s' eq_refl) as [H1 H2].
        unfold st' in Hk. change (run sa []) with sa in Hk.
        rewrite H1 in Hk. inversion Hk; subst. exact H2.
      - unfold st' in Hk. change (run sa []) with sa in Hk.
        rewrite Hnew in Hk; [done|]. intros s'. done.
      - unfold st' in Hk. change (run sa []) with sa in Hk.
        rewrite Hnew in Hk; [done|]. intros s'. done. }
    split.
    { intros evs1 ev k' -> Hpend. unfold st' in *. rewrite run_snoc in *.
      destruct (resolving_step (run sa evs1) ev pa _ s
                  (wf_run _ _ Hwf1) (resolved_ok_run _ _ Hwf1 Hok1) Hk eq_refl)
        as [(pr' & H1 & H2)|H]; [|done].
      rewrite Hpend in H1. inversion H1; subst. done. }
    pose proof (withSession_resume_spec callback s st') as Hspec.
    cbv zeta in Hspec.
    destruct (withSession_resume callback s st') as [s2 out] eqn:Eres.
    cbn [fst snd] in *. destruct Hspec as (Hout & Hret & Hthrow).
    split; [by rewrite Hout|]. split; [exact Hret|exact Hthrow].
Qed.

(** Four runs of [withSession]: with a free session in the pool the
    callback runs at once, and the session is free again after a return
    and Deleted after a throw; with a session to create the callback runs
    once the creation has arrived; and a caller that has to wait gets the
    timeout error without the callback being run. *)
Lemma withSession_release_or_delete_witness :
  ((withSession returns7 0 one_session_pool []).2 = Some (inl 7) /\
   session_isFree (withSession returns7 0 one_session_pool []).1 1%nat = true /\
   rpcLog (withSession returns7 0 one_session_pool []).1 = []) /\
  ((withSession throws 0 one_session_pool []).2 = Some (inr "boom"%string) /\
   session_isFree (withSession throws 0 one_session_pool []).1 1%nat = false /\
   rpcLog (withSession throws 0 one_session_pool []).1 =
     [DeleteSessionRpc "s1"]) /\
  ((withSession returns7 0 (new_SessionPool 0 1 0)
      [EvSessionAdded 0%nat "s1" demo_endpoint; EvAcquireThen 0%nat]).2
     = Some (inl 7) /\
   session_isFree
     (withSession returns7 0 (new_SessionPool 0 1 0)
        [EvSessionAdded 0%nat "s1" demo_endpoint; EvAcquireThen 0%nat]).1
     1%nat = true) /\
  (withSession returns7 100 (run (new_SessionPool 0 0 0) [EvAcquire 0])
     (replicate 100 EvTick ++ [EvTimer 1%nat])).2
    = Some (inr "No session became available within timeout of 100 ms"%string).
Proof.
  split; [|split; [|split]].
  - destruct (withSession_release_or_delete returns7 1 1 0
                [EvCreated 0%nat "s1" demo_endpoint] 0 [])
      as (_ & _ & _ & _ & _ & H).
    destruct (H 1%nat 1%nat) as (_ & _ & _ & Hres & Hret & _);
      [vm_compute; reflexivity|].
    split; [exact Hres|].
    edestruct (Hret 7) as (Hst & Hlog & _);
      [reflexivity|vm_compute; reflexivity|].
    split; [|exact Hlog].
    unfold one_session_pool. rewrite Hst. vm_compute. reflexivity.
  - destruct (withSession_release_or_delete throws 1 1 0
                [EvCreated 0%nat "s1" demo_endpoint] 0 [])
      as (_ & _ & _ & _ & _ & H).
    destruct (H 1%nat 1%nat) as (_ & _ & _ & Hres & _ & Hthrow);
      [vm_compute; reflexivity|].
    split; [exact Hres|].
    edestruct (Hthrow "boom"%string) as (Hst & _ & _ & _ & Hlog & _);
      [reflexivity|vm_compute; reflexivity|].
    split; [|exact Hlog].
    unfold one_session_pool. rewrite Hst. vm_compute. reflexivity.
  - destruct (withSession_release_or_delete returns7 0 1 0 [] 0
                [EvSessionAdded 0%nat "s1" demo_endpoint; EvAcquireThen 0%nat])
      as (_ & _ & _ & _ & _ & H).
    destruct (H 1%nat 1%nat) as (_ & _ & _ & Hres & Hret & _);
      [vm_compute; reflexivity|].
    split; [exact Hres|].
    edestruct (Hret 7) as (Hst & _);
      [reflexivity|vm_compute; reflexivity|].
    change (run (new_SessionPool 0 1 0) []) with (new_SessionPool 0 1 0) in Hst.
    rewrite Hst. vm_compute. reflexivity.
  - destruct (withSession_release_or_delete returns7 0 0 0 [EvAcquire 0] 100
                (replicate 100 EvTick ++ [EvTimer 1%nat]))
      as (_ & _ & _ & _ & H & _).
    destruct (H "No session became available within timeout of 100 ms"%string
                1%nat) as [_ Hres]; [vm_compute; reflexivity|].
    exact Hres.
Defined.

(** ** acquire *)

(** [acquire] hands out the first free session in insertion order, and
    only then: the sessions before it are not free, its promise is
    resolved in the same turn, the session is marked taken, and nothing is
    created or queued. *)
Theorem acquire_takes_first_free timeout st s :
  acquire_decision st = UseFree s ->
  (exists i, sessions st !! i = Some s /\ session_isFree st s = true /\
     forall j r, sessions st !! j = Some r -> (j < i)%nat ->
                 session_isFree st r = false) /\
  let st' := (acquire timeout st).1 in
  let p := (acquire timeout st).2 in
  promises st' !! p = Some {| outcome := Resolved s; settleCalls := 1 |} /\
  session_isFree st' s = false /\
  sessions st' = sessions st /\ creates st' = creates st /\
  waiters st' = waiters st /\ timers st' = timers st /\
  newSessionsRequested st' = newSessionsRequested st.
Proof.
  intros Hdec.
  assert (Hfind : find_free st = Some s).
  { unfold acquire_decision in Hdec.
    destruct (find_free st) as [s'|]; [congruence|by destruct (bool_decide _)]. }
  unfold find_free in Hfind.
  destruct (list_find _ (sessions st)) as [[i x]|] eqn:Hf; [|done].
  simpl in Hfind. inversion Hfind; subst x.
  apply list_find_Some in Hf as (Hi & Hfree & Hbefore).
  split.
  - exists i. split; [done|]. split; [done|].
    intros j r Hj Hlt. specialize (Hbefore j r Hj Hlt).
    by destruct (session_isFree st r).
  - unfold acquire. rewrite Hdec. simpl.
    rewrite lookup_insert_eq. split; [done|]. split; [|done].
    unfold session_isFree in *. simpl.
    destruct (heap st !! s) as [o|] eqn:Ho; [|done].
    by rewrite lookup_alter_eq, Ho.
Qed.

Lemma acquire_takes_first_free_witness :
  promises (acquire 0 one_session_pool).1 !! (acquire 0 one_session_pool).2
    = Some {| outcome := Resolved 1; settleCalls := 1 |}.
Proof.
  apply (acquire_takes_first_free 0 one_session_pool 1%nat). reflexivity.
Defined.

Lemma SessionPool_ext (a b : SessionPool) :
  minLimit a = minLimit b -> maxLimit a = maxLimit b ->
  heap a = heap b -> sessions a = sessions b ->
  newSessionsRequested a = newSessionsRequested b ->
  sessionsBeingDeleted a = sessionsBeingDeleted b ->
  sessionKeepAliveId a = sessionKeepAliveId b ->
  waiters a = waiters b -> promises a = promises b ->
  timers a = timers b -> creates a = creates b ->
  deletes a = deletes b -> rpcLog a = rpcLog b ->
  now a = now b -> next a = next b -> a = b.
Proof. destruct a, b. simpl. intros. by subst. Qed.

Lemma find_free_None st :
  find_free st = None ->
  forall x, x ∈ sessions st -> session_isFree st x = false.
Proof.
  unfold find_free. intros H x Hx.
  destruct (list_find _ (sessions st)) as [[i y]|] eqn:Hf; [done|].
  rewrite list_find_None, Forall_forall in Hf. specialize (Hf x Hx).
  by destruct (session_isFree st x).
Qed.

(** A free session added at the back of a set without free session is the
    one the scan finds. *)
Lemma find_free_added st st' r o :
  sessions st' = sessions st ++ [r] ->
  (forall x, x ∈ sessions st -> heap st' !! x = heap st !! x) ->
  find_free st = None ->
  heap st' !! r = Some o -> Session_isFree o = true ->
  find_free st' = Some r.
Proof.
  intros Hs Hsame Hnone Hr Ho. unfold find_free. rewrite Hs.
  rewrite list_find_app_r.
  - simpl. rewrite decide_True; [done|].
    unfold session_isFree. by rewrite Hr.
  - apply list_find_None, Forall_forall. intros x Hx.
    pose proof (find_free_None st Hnone x Hx) as Hnf.
    unfold session_isFree in *. rewrite (Hsame x Hx). by rewrite Hnf.
Qed.

(** When [acquire] creates a session, the reservation in
    [newSessionsRequested] is taken and the promise is pending.  When the
    creation succeeds, [createSession] puts the new session into the set
    at the back, free, with the reservation still held and the promise
    still pending; the [.then] of [acquire] then gives the reservation
    back, takes the session and resolves the promise with it.  In between
    the scan of [acquire] finds the new session free: an [acquire] made
    then is handed it, and the [.then] resolves the first promise with the
    same session all the same.  When the creation fails the caller gets
    the same error, no session is added, and the reservation is not given
    back. *)
Theorem acquire_creates_session minL maxL t0 evs0 timeout :
  let st := run (new_SessionPool minL maxL t0) evs0 in
  acquire_decision st = CreateNew ->
  let st1 := (acquire timeout st).1 in
  let p := (acquire timeout st).2 in
  let r := next st1 in
  promises st1 !! p = Some new_Promise /\
  newSessionsRequested st1 = newSessionsRequested st + 1 /\
  sessions st1 = sessions st /\
  creates st1 !! p = Some ForAcquire /\
  (forall sid ep,
     let st2 := step st1 (EvSessionAdded p sid ep) in
     let st3 := step st2 (EvAcquireThen p) in
     (promises st2 !! p = Some new_Promise /\
      heap st2 !! r =
        Some {| sessionId := sid; endpoint := ep;
                beingDeleted := false; free := true |} /\
      sessions st2 = sessions st ++ [r] /\
      newSessionsRequested st2 = newSessionsRequested st + 1 /\
      creates st2 !! p = Some (ThenPending r) /\
      acquire_decision st2 = UseFree r) /\
     (promises st3 !! p =
        Some {| outcome := Resolved r; settleCalls := 1 |} /\
      heap st3 !! r =
        Some {| sessionId := sid; endpoint := ep;
                beingDeleted := false; free := false |} /\
      sessions st3 = sessions st ++ [r] /\
      newSessionsRequested st3 = newSessionsRequested st /\
      creates st3 !! p = None) /\
     step st1 (EvCreated p sid ep) = st3 /\
     (forall timeout',
        let q := (acquire timeout' st2).2 in
        let st4 := step (acquire timeout' st2).1 (EvAcquireThen p) in
        q ≠ p /\
        promises st4 !! q =
          Some {| outcome := Resolved r; settleCalls := 1 |} /\
        promises st4 !! p =
          Some {| outcome := Resolved r; settleCalls := 1 |} /\
        sessions st4 = sessions st ++ [r])) /\
  (forall err,
     let st2 := step st1 (EvCreateFailed p err) in
     promises st2 !! p = Some {| outcome := Rejected err; settleCalls := 1 |} /\
     sessions st2 = sessions st /\ heap st2 = heap st /\
     newSessionsRequested st2 = newSessionsRequested st + 1).
Proof.
  intros st Hdec st1 p r.
  assert (Hwf : wf st) by apply wf_reachable.
  assert (Hok : sessions_ok st) by apply sessions_ok_reachable.
  assert (Hfresh : forall x, x ∈ sessions st -> (x < next st)%nat).
  { intros x Hx. destruct Hok as [_ Hh]. by apply (wf_heap st Hwf), Hh. }
  assert (Hnone : find_free st = None).
  { by apply acquire_decision_spec in Hdec as [? _]. }
  assert (E1 : st1 =
    set_promises (<[next st := new_Promise]> (promises st))
      (set_next (S (next st))
        (set_creates (<[next st := ForAcquire]> (creates st))
          (set_newSessionsRequested (newSessionsRequested st + 1) st)))).
  { unfold st1, acquire. by rewrite Hdec. }
  assert (Ep : p = next st). { unfold p, acquire. by rewrite Hdec. }
  assert (Er : r = S (next st)). { unfold r. by rewrite E1. }
  assert (H1h : heap st1 = heap st) by by rewrite E1.
  assert (H1s : sessions st1 = sessions st) by by rewrite E1.
  assert (H1p : promises st1 !! p = Some new_Promise).
  { rewrite E1, Ep. simpl. by rewrite lookup_insert_eq. }
  assert (H1c : creates st1 !! p = Some ForAcquire).
  { rewrite E1, Ep. simpl. by rewrite lookup_insert_eq. }
  assert (H1n : newSessionsRequested st1 = newSessionsRequested st + 1)
    by by rewrite E1.
  assert (H1x : next st1 = r) by done.
  assert (Hadd : set_add r (sessions st) = sessions st ++ [r]).
  { unfold set_add. rewrite decide_False; [done|].
    intros Hin. apply Hfresh in Hin. lia. }
  clearbody st1 p r.
  split; [done|]. split; [done|]. split; [done|]. split; [done|]. split.
  - intros sid ep st2 st3.
    assert (E2 : st2 =
      set_next (S r)
        (set_creates (<[p := ThenPending r]> (creates st1))
          (set_sessions (sessions st ++ [r])
            (set_heap (<[r := new_Session ep sid]> (heap st)) st1)))).
    { unfold st2. cbn [step]. unfold createSession_added.
      rewrite H1c, H1x, H1s, H1h, Hadd. done. }
    assert (H2h : heap st2 = <[r := new_Session ep sid]> (heap st))
      by by rewrite E2.
    assert (H2s : sessions st2 = sessions st ++ [r]) by by rewrite E2.
    assert (H2p : promises st2 = promises st1) by by rewrite E2.
    assert (H2c : creates st2 !! p = Some (ThenPending r)).
    { rewrite E2. simpl. by rewrite lookup_insert_eq. }
    assert (H2n : newSessionsRequested st2 = newSessionsRequested st1)
      by by rewrite E2.
    assert (H2x : next st2 = S r) by by rewrite E2.
    assert (H2r : heap st2 !! r = Some (new_Session ep sid)).
    { by rewrite H2h, lookup_insert_eq. }
    assert (Hd2 : acquire_decision st2 = UseFree r).
    { unfold acquire_decision.
      rewrite (find_free_added st st2 r (new_Session ep sid)); try done.
      intros x Hx. rewrite H2h. apply lookup_insert_ne.
      apply Hfresh in Hx. lia. }
    assert (E3 : st3 =
      set_promises (alter (settle (Resolved r)) p (promises st2))
        (set_heap (alter Session_acquire r (heap st2))
          (set_newSessionsRequested (newSessionsRequested st2 - 1)
            (set_creates (delete p (creates st2)) st2)))).
    { unfold st3. cbn [step]. unfold acquire_then. by rewrite H2c. }
    clearbody st2 st3.
    split; [|split; [|split]].
    + rewrite H2p, H2n. done.
    + rewrite E3. simpl. rewrite !lookup_alter_eq, H2p, H1p, H2r.
      rewrite lookup_delete_eq, H2s, H2n, H1n.
      split; [done|]. split; [done|]. split; [done|]. split; [lia|done].
    + cbn [step]. unfold createSession_resume. rewrite H1c. cbv zeta.
      rewrite E3, E2, H1x, H1s, H1h, Hadd.
      apply SessionPool_ext; simpl; try done.
      by rewrite delete_insert_eq.
    + intros timeout' q st4.
      assert (E4 : acquire timeout' st2 =
        (set_next (S (next st2))
           (set_promises
              (<[next st2 := settle (Resolved r) new_Promise]> (promises st2))
              (set_heap (alter Session_acquire r (heap st2)) st2)),
         next st2)).
      { unfold acquire. by rewrite Hd2. }
      unfold st4, q. rewrite E4. cbn [fst snd step].
      unfold acquire_then. simpl. rewrite H2c. simpl. rewrite H2x.
      split; [lia|].
      rewrite lookup_alter_ne, lookup_insert_eq by lia.
      rewrite lookup_alter_eq, lookup_insert_ne, H2p, H1p by lia.
      done.
  - intros err st2. unfold st2. cbn [step]. unfold createSession_reject.
    rewrite H1c. simpl. rewrite lookup_alter_eq, H1p. done.
Qed.

(** A pool with room for one session, no prepopulation: the caller's
    session is created, and an [acquire] made between its arrival and the
    [.then] of the first caller gets the same session as the first caller. *)
Lemma acquire_creates_session_witness :
  let st1 := (acquire 0 (new_SessionPool 0 1 0)).1 in
  let st2 := step st1 (EvSessionAdded 0%nat "s1" demo_endpoint) in
  let st4 := step (acquire 0 st2).1 (EvAcquireThen 0%nat) in
  promises st1 !! 0%nat = Some new_Promise /\
  newSessionsRequested st1 = 1 /\
  acquire_decision st2 = UseFree 1%nat /\
  promises st4 !! 2%nat = Some {| outcome := Resolved 1; settleCalls := 1 |} /\
  promises st4 !! 0%nat = Some {| outcome := Resolved 1; settleCalls := 1 |}.
Proof.
  destruct (acquire_creates_session 0 1 0 [] 0 eq_refl)
    as (H1 & H2 & _ & _ & Hs & _).
  destruct (Hs "s1"%string demo_endpoint)
    as ((_ & _ & _ & _ & _ & Hd) & _ & _ & Hrace).
  destruct (Hrace 0) as (_ & Hq & Hp & _).
  vm_compute in H1, H2, Hd, Hq, Hp. vm_compute.
  split; [exact H1|]. split; [exact H2|]. split; [exact Hd|].
  split; [exact Hq|exact Hp].
Defined.

(** ** keepalive *)

Lemma keepalive_rpcs_app l1 l2 :
  keepalive_rpcs (l1 ++ l2) = keepalive_rpcs l1 ++ keepalive_rpcs l2.
Proof. unfold keepalive_rpcs. apply List.filter_app. Qed.

Lemma keepalive_off_session_delete s chained st :
  sessionKeepAliveId (session_delete s chained st) = sessionKeepAliveId st /\
  keepalive_rpcs (rpcLog (session_delete s chained st)) =
    keepalive_rpcs (rpcLog st).
Proof.
  unfold session_delete.
  destruct (heap st !! s) as [o|]; [|done].
  unfold Session_delete. destruct (Session_isDeleted o); [by destruct chained|].
  simpl. rewrite keepalive_rpcs_app. simpl. by rewrite app_nil_r.
Qed.

Lemma keepalive_off_deleteSession s st :
  sessionKeepAliveId (deleteSession s st).1 = sessionKeepAliveId st /\
  keepalive_rpcs (rpcLog (deleteSession s st).1) = keepalive_rpcs (rpcLog st).
Proof.
  unfold deleteSession.
  destruct (heap st !! s) as [o|]; [|done].
  destruct (Session_isDeleted o); [done|]. simpl.
  apply (keepalive_off_session_delete s true
           (set_sessionsBeingDeleted (sessionsBeingDeleted st + 1) st)).
Qed.

Lemma keepalive_rpcs_destroy st :
  keepalive_rpcs (rpcLog (destroy st).1) = keepalive_rpcs (rpcLog st).
Proof.
  unfold destroy.
  assert (Hgen : forall l acc,
    keepalive_rpcs (rpcLog
      (foldl (λ (acc : SessionPool * Awaited) s0,
                let '(st', a) := deleteSession s0 acc.1 in (st', acc.2 ++ a))
             acc l).1) = keepalive_rpcs (rpcLog acc.1)).
  { induction l as [|x l IH]; intros acc; [done|].
    cbn [foldl].
    pose proof (keepalive_off_deleteSession x acc.1) as [_ H].
    destruct (deleteSession x acc.1) as [st' a]. cbn [fst snd] in H.
    etrans; [apply IH|]. exact H. }
  apply (Hgen _ (set_sessionKeepAliveId false st, [])).
Qed.

Lemma keepAlive_sent_spec sid log :
  keepAlive_sent sid log = true <-> KeepAliveRpc sid ∈ keepalive_rpcs log.
Proof.
  unfold keepAlive_sent, keepalive_rpcs.
  rewrite existsb_exists, list_elem_of_In, filter_In. split.
  - intros (rq & Hin & Hrq). destruct rq as [sid'|sid']; [done|].
    apply String.eqb_eq in Hrq. by subst.
  - intros [Hin _]. exists (KeepAliveRpc sid).
    split; [done|]. apply String.eqb_refl.
Qed.

Lemma keepalive_off_step st ev :
  sessionKeepAliveId st = false ->
  sessionKeepAliveId (step st ev) = false /\
  (forall rq, rq ∈ keepalive_rpcs (rpcLog (step st ev)) ->
              rq ∈ keepalive_rpcs (rpcLog st)) /\
  ((forall s, ev ≠ EvKeepAliveRetry s) ->
   keepalive_rpcs (rpcLog (step st ev)) = keepalive_rpcs (rpcLog st)).
Proof.
  intros Hoff.
  assert (Hsame : forall st',
    sessionKeepAliveId st' = false /\
    keepalive_rpcs (rpcLog st') = keepalive_rpcs (rpcLog st) ->
    sessionKeepAliveId st' = false /\
    (forall rq, rq ∈ keepalive_rpcs (rpcLog st') ->
                rq ∈ keepalive_rpcs (rpcLog st)) /\
    ((forall s, ev ≠ EvKeepAliveRetry s) ->
     keepalive_rpcs (rpcLog st') = keepalive_rpcs (rpcLog st))).
  { intros st' [H1 H2]. split; [done|]. split; [by rewrite H2|done]. }
  destruct ev as [timeout|c sid ep|c err|c sid ep|c|s|s|s|s|d ok|w'| | |s|];
    cbn [step].
  - apply Hsame. unfold acquire. by destruct (acquire_decision st) as [s| |].
  - apply Hsame. unfold createSession_resume.
    by destruct (creates st !! c) as [[| |r]|].
  - apply Hsame. unfold createSession_reject.
    by destruct (creates st !! c) as [[| |r]|].
  - apply Hsame. unfold createSession_added.
    by destruct (creates st !! c) as [[| |r]|].
  - apply Hsame. unfold acquire_then.
    by destruct (creates st !! c) as [[| |r]|].
  - by apply Hsame.
  - apply Hsame. unfold session_release. destruct (heap st !! s); [|done].
    unfold on_SESSION_RELEASE; simpl. by destruct (waiters st).
  - apply Hsame. destruct (keepalive_off_session_delete s false st) as [H1 H2].
    by rewrite H1, H2.
  - apply Hsame. destruct (keepalive_off_deleteSession s st) as [H1 H2].
    by rewrite H1, H2.
  - apply Hsame. unfold session_delete_settled.
    destruct (deletes st !! d) as [[s chained]|]; [|done].
    by destruct (ok && chained).
  - apply Hsame. unfold timer_fire.
    destruct (timers st !! w') as [[deadline timeout]|]; [|done].
    by destruct (bool_decide (deadline <= now st)).
  - apply Hsame. unfold tick. by destruct (bool_decide _).
  - apply Hsame. unfold keepAlive_fire. by rewrite Hoff.
  - unfold keepAlive_retry.
    destruct (heap st !! s) as [o|]; [|by apply Hsame].
    destruct (keepAlive_sent _ _) eqn:Hsent; [|by apply Hsame].
    apply keepAlive_sent_spec in Hsent. simpl.
    split; [done|]. split.
    + intros rq. rewrite keepalive_rpcs_app. simpl.
      intros Hrq. apply elem_of_app in Hrq as [Hrq|Hrq]; [done|].
      apply list_elem_of_singleton in Hrq. by subst.
    + intros Hne. by destruct (Hne s).
  - apply Hsame.
    split; [apply destroy_awaits_nothing|apply keepalive_rpcs_destroy].
Qed.

(** After [destroy] the keepalive interval stays cancelled: whatever
    happens to the pool afterwards, the interval callback does not run any
    more, so no [keepAlive] call is started.  A KeepAlive request can still
    go out as a retry of a call started before: every such request repeats
    one that was sent before [destroy], and without retries the KeepAlive
    requests are those sent before [destroy]. *)
Theorem no_keepalive_after_destroy st evs :
  let st' := run (destroy st).1 evs in
  sessionKeepAliveId st' = false /\
  step st' EvKeepAlive = st' /\
  (forall rq, rq ∈ keepalive_rpcs (rpcLog st') ->
              rq ∈ keepalive_rpcs (rpcLog st)) /\
  ((forall s, EvKeepAliveRetry s ∉ evs) ->
   keepalive_rpcs (rpcLog st') = keepalive_rpcs (rpcLog st)).
Proof.
  cbv zeta.
  assert (Hgen : forall evs st0, sessionKeepAliveId st0 = false ->
    sessionKeepAliveId (run st0 evs) = false /\
    (forall rq, rq ∈ keepalive_rpcs (rpcLog (run st0 evs)) ->
                rq ∈ keepalive_rpcs (rpcLog st0)) /\
    ((forall s, EvKeepAliveRetry s ∉ evs) ->
     keepalive_rpcs (rpcLog (run st0 evs)) = keepalive_rpcs (rpcLog st0))).
  { clear. induction evs as [|ev evs IH]; intros st0 Hoff; [done|].
    change (run st0 (ev :: evs)) with (run (step st0 ev) evs).
    destruct (keepalive_off_step st0 ev Hoff) as (H1 & H2 & H3).
    destruct (IH (step st0 ev) H1) as (H4 & H5 & H6).
    split; [done|]. split; [by auto|].
    intros Hno. rewrite H6, H3; [done| |].
    - intros s ->. apply (Hno s). by left.
    - intros s Hin. apply (Hno s). by right. }
  destruct (Hgen evs (destroy st).1) as (H1 & H2 & H3);
    [apply destroy_awaits_nothing|].
  split; [done|]. split.
  { cbn [step]. unfold keepAlive_fire. by rewrite H1. }
  split.
  - intros rq Hrq. apply H2 in Hrq. by rewrite keepalive_rpcs_destroy in Hrq.
  - intros Hno. rewrite (H3 Hno). apply keepalive_rpcs_destroy.
Qed.

(** The interval fires once, then the pool is destroyed: a later firing
    sends nothing, a retry of the earlier call repeats its request. *)
Lemma no_keepalive_after_destroy_witness :
  let st := step one_session_pool EvKeepAlive in
  let st' := run (destroy st).1
               [EvKeepAlive; EvKeepAliveRetry 1%nat; EvTick] in
  sessionKeepAliveId st' = false /\
  keepalive_rpcs (rpcLog st) = [KeepAliveRpc "s1"] /\
  keepalive_rpcs (rpcLog st') = [KeepAliveRpc "s1"; KeepAliveRpc "s1"] /\
  KeepAliveRpc "s1" ∈ keepalive_rpcs (rpcLog st).
Proof.
  destruct (no_keepalive_after_destroy (step one_session_pool EvKeepAlive)
              [EvKeepAlive; EvKeepAliveRetry 1%nat; EvTick])
    as (H1 & _ & H3 & _).
  cbv zeta. split; [exact H1|].
  split; [vm_compute; reflexivity|]. split; [vm_compute; reflexivity|].
  apply H3. rewrite list_elem_of_In. vm_compute. by left.
Defined.

(** A call of [keepAlive] that is retried [n] times sends [n] more
    requests for its session. *)
Lemma keepAlive_retry_run st r o n :
  heap st !! r = Some o -> KeepAliveRpc (sessionId o) ∈ rpcLog st ->
  rpcLog (run st (replicate n (EvKeepAliveRetry r))) =
    rpcLog st ++ replicate n (KeepAliveRpc (sessionId o)).
Proof.
  revert st. induction n as [|n IH]; intros st Ho Hin.
  - simpl. by rewrite app_nil_r.
  - change (run st (replicate (S n) (EvKeepAliveRetry r)))
      with (run (step st (EvKeepAliveRetry r))
                (replicate n (EvKeepAliveRetry r))).
    assert (Hstep : step st (EvKeepAliveRetry r) =
                    set_rpcLog (rpcLog st ++ [KeepAliveRpc (sessionId o)]) st).
    { cbn [step]. unfold keepAlive_retry. rewrite Ho.
      assert (Hs : keepAlive_sent (sessionId o) (rpcLog st) = true).
      { apply keepAlive_sent_spec. unfold keepalive_rpcs.
        rewrite list_elem_of_In, filter_In. by rewrite <- list_elem_of_In. }
      by rewrite Hs. }
    rewrite Hstep, IH.
    + simpl. by rewrite <- app_assoc.
    + done.
    + simpl. apply elem_of_app. right. by left.
Qed.

(** While the interval is armed, each firing calls [keepAlive] once on
    every session of the set, in insertion order, whether the session is
    free, taken or being deleted; each call sends one KeepAlive at once.
    Any further KeepAlive comes from a retry of such a call: a retry sends
    one more request, and only for a session on which a KeepAlive has been
    sent before; so a call of the firing that is retried [n] times has
    sent the [n + 1] requests of [keepAlive] with [n] failed attempts. *)
Theorem keepalive_sends_one_per_session minL maxL t0 evs0 :
  let st := run (new_SessionPool minL maxL t0) evs0 in
  sessionKeepAliveId st = true ->
  (exists sent,
    rpcLog (step st EvKeepAlive) = rpcLog st ++ sent /\
    length sent = length (sessions st) /\
    forall i r, sessions st !! i = Some r ->
      exists o, heap st !! r = Some o /\
        sent !! i = Some (KeepAliveRpc (sessionId o)) /\
        forall n,
          rpcLog (run (step st EvKeepAlive)
                      (replicate n (EvKeepAliveRetry r))) =
            rpcLog st ++ sent ++ replicate n (KeepAliveRpc (sessionId o)) /\
          Session_keepAlive_retried o n =
            KeepAliveRpc (sessionId o) ::
              replicate n (KeepAliveRpc (sessionId o))) /\
  (forall s,
     rpcLog (step st (EvKeepAliveRetry s)) = rpcLog st \/
     exists o, heap st !! s = Some o /\
       KeepAliveRpc (sessionId o) ∈ rpcLog st /\
       rpcLog (step st (EvKeepAliveRetry s)) =
         rpcLog st ++ [KeepAliveRpc (sessionId o)]).
Proof.
  intros st Hon. split.
  2: { intros s. cbn [step]. unfold keepAlive_retry.
       destruct (heap st !! s) as [o|]; [|by left].
       destruct (keepAlive_sent _ _) eqn:Hsent; [|by left].
       right. exists o. split; [done|]. split; [|done].
       apply keepAlive_sent_spec in Hsent. unfold keepalive_rpcs in Hsent.
       rewrite list_elem_of_In in Hsent. apply filter_In in Hsent as [Hin _].
       by rewrite list_elem_of_In. }
  assert (Hfire : step st EvKeepAlive =
    set_rpcLog (rpcLog st ++
      omap (λ r, Session_keepAlive <$> heap st !! r) (sessions st)) st).
  { cbn [step]. unfold keepAlive_fire. by rewrite Hon. }
  rewrite Hfire. simpl.
  eexists. split; [reflexivity|].
  assert (Hok : sessions_ok st) by apply sessions_ok_reachable.
  destruct Hok as [_ Hin].
  assert (Hgen : forall l, (forall r, r ∈ l -> is_Some (heap st !! r)) ->
    length (omap (λ r, Session_keepAlive <$> heap st !! r) l) = length l /\
    forall i r, l !! i = Some r ->
      exists o, heap st !! r = Some o /\
        omap (λ r, Session_keepAlive <$> heap st !! r) l !! i
          = Some (KeepAliveRpc (sessionId o))).
  { induction l as [|x l IH]; intros Hl.
    - split; [done|]. intros i r Hi. by rewrite lookup_nil in Hi.
    - destruct (Hl x ltac:(by left)) as [o Ho].
      destruct IH as [IH1 IH2].
      { intros r Hr. apply Hl. by right. }
      simpl. rewrite Ho. simpl. split; [f_equal; exact IH1|].
      intros [|i] r Hi; simpl in Hi.
      + inversion Hi; subst. by exists o.
      + by apply IH2. }
  destruct (Hgen (sessions st) Hin) as [Hlen Hall].
  split; [done|].
  intros i r Hi. destruct (Hall i r Hi) as (o & Ho & Hsent).
  exists o. split; [done|]. split; [done|].
  intros n. split; [|done].
  rewrite (keepAlive_retry_run _ r o n); simpl.
  - by rewrite <- app_assoc.
  - done.
  - apply elem_of_app. right. by apply (list_elem_of_lookup_2 _ i).
Qed.

Lemma keepalive_sends_one_per_session_witness :
  exists sent,
    rpcLog (step one_session_pool EvKeepAlive) = rpcLog one_session_pool ++ sent /\
    length sent = length (sessions one_session_pool) /\
    rpcLog (run (step one_session_pool EvKeepAlive)
                (replicate 2 (EvKeepAliveRetry 1%nat))) =
      rpcLog one_session_pool ++ sent ++ replicate 2 (KeepAliveRpc "s1").
Proof.
  destruct (keepalive_sends_one_per_session 1 1 0
              [EvCreated 0%nat "s1" demo_endpoint] eq_refl)
    as ((sent & H1 & H2 & H3) & _).
  exists sent. split; [exact H1|]. split; [exact H2|].
  destruct (H3 0%nat 1%nat) as (o & Ho & _ & Hn); [reflexivity|].
  destruct (Hn 2%nat) as [Hlog _].
  assert (Eo : sessionId o = "s1"%string).
  { vm_compute in Ho. by inversion Ho. }
  rewrite Eo in Hlog. exact Hlog.
Defined.

(** ** Deletions in flight *)













(** [release] does not look at the Deleted flag: with a waiter queued, a
    session whose deletion has started is handed to the head waiter all
    the same, and the waiter's promise resolves with that session. *)
Theorem released_deleted_session_is_handed_over minL maxL t0 evs0 s w rest :
  let st := run (new_SessionPool minL maxL t0) evs0 in
  deletion_started s st ->
  waiters st = w :: rest -> promises st !! w = Some new_Promise ->
  let st' := step st (EvRelease s) in
  promises st' !! w = Some {| outcome := Resolved s; settleCalls := 1 |} /\
  waiters st' = rest /\ deletion_started s st' /\
  session_isFree st' s = false.
Proof.
  intros st Hd Hw Hp st'.
  assert (Hwf : wf st) by apply wf_reachable.
  pose proof (deletion_started_step s st (EvRelease s) Hwf Hd) as Hd'.
  fold st' in Hd'.
  split; [|split; [|split; [done|by apply deletion_started_not_free]]].
  - unfold st'. cbn [step]. unfold session_release.
    destruct Hd as (o & Ho & _). rewrite Ho.
    unfold on_SESSION_RELEASE; simpl. rewrite Hw. simpl.
    by rewrite lookup_alter_eq, Hp.
  - unfold st'. cbn [step]. unfold session_release.
    destruct Hd as (o & Ho & _). rewrite Ho.
    unfold on_SESSION_RELEASE; simpl. by rewrite Hw.
Qed.

Lemma released_deleted_session_is_handed_over_witness :
  let st := run (new_SessionPool 0 0 0)
              [EvAcquire 0; EvCreated 0%nat "s1" demo_endpoint;
               EvAcquire 0; EvSessionDelete 1%nat] in
  promises (step st (EvRelease 1%nat)) !! 2%nat
    = Some {| outcome := Resolved 1; settleCalls := 1 |}.
Proof.
  apply (released_deleted_session_is_handed_over 0 0 0
           [EvAcquire 0; EvCreated 0%nat "s1" demo_endpoint;
            EvAcquire 0; EvSessionDelete 1%nat] 1%nat 2%nat []).
  - vm_compute. eexists. split; reflexivity.
  - reflexivity.
  - reflexivity.
Defined.

Lemma acquired_session_is_exclusive_witness :
  let st' := run (acquire 0 one_session_pool).1
               [EvAcquire 0; EvTick; EvSessionDelete 1%nat; EvKeepAlive] in
  session_isFree st' 1%nat = false /\ acquire_decision st' ≠ UseFree 1%nat.
Proof.
  destruct (acquired_session_is_exclusive 1 1 0
              [EvCreated 0%nat "s1" demo_endpoint] 0 1%nat
              [EvAcquire 0; EvTick; EvSessionDelete 1%nat; EvKeepAlive])
    as (H1 & H2 & _).
  - reflexivity.
  - intros Hin. repeat (apply elem_of_cons in Hin as [Hin|Hin]; [discriminate Hin|]).
    by apply elem_of_nil in Hin.
  - split; [exact H1|exact H2].
Defined.

(* ===================================================================== *)
(** * Properties of the table description builder *)
(* ===================================================================== *)

Lemma withPrimaryKeys_spec {IType : Type} keys (d : TableDescription IType) :
  columns IType (withPrimaryKeys IType keys d) = columns IType d /\
  primaryKeys IType (withPrimaryKeys IType keys d) = primaryKeys IType d ++ keys.
Proof.
  unfold withPrimaryKeys. revert d.
  induction keys as [|k keys IH]; intros d; simpl.
  - by rewrite app_nil_r.
  - destruct (IH {| columns := columns IType d;
                    primaryKeys := primaryKeys IType d ++ [k] |}) as [H1 H2].
    rewrite H1, H2. simpl. by rewrite <- app_assoc.
Qed.

(** A description built by any chain of [withColumn], [withPrimaryKey] and
    [withPrimaryKeys] calls holds the columns in the order they were added
    and the key names in the order they were added, the two never mixing;
    [createTable] sends exactly these, under the path database/tablePath. *)
Theorem builder_chain_keeps_order {IType : Type} (s : Session)
    (tablePath : string) (d : TableDescription IType)
    (calls : list (BuilderCall IType)) :
  let d' := foldl (builder_apply IType) d calls in
  columns IType d' = columns IType d ++ calls_columns calls /\
  primaryKeys IType d' = primaryKeys IType d ++ calls_keys calls /\
  ct_columns IType (Session_createTable IType s tablePath d')
    = columns IType d ++ calls_columns calls /\
  ct_primaryKey IType (Session_createTable IType s tablePath d')
    = primaryKeys IType d ++ calls_keys calls /\
  ct_path IType (Session_createTable IType s tablePath d')
    = (database (endpoint s) +:+ "/" +:+ tablePath)%string.
Proof.
  cbv zeta.
  assert (H : columns IType (foldl (builder_apply IType) d calls)
                = columns IType d ++ calls_columns calls /\
              primaryKeys IType (foldl (builder_apply IType) d calls)
                = primaryKeys IType d ++ calls_keys calls).
  { revert d. induction calls as [|c calls IH]; intros d.
    - simpl. by rewrite !app_nil_r.
    - cbn [foldl]. destruct (IH (builder_apply IType d c)) as [H1 H2].
      rewrite H1, H2. destruct c as [col|k|ks]; simpl.
      + by rewrite <- app_assoc.
      + by rewrite <- app_assoc.
      + destruct (withPrimaryKeys_spec ks d) as [-> ->].
        by rewrite <- app_assoc. }
  destruct H as [H1 H2]. simpl. by rewrite H1, H2.
Qed.

(* ===================================================================== *)
(** * Properties of driver.ts *)
(* ===================================================================== *)

Import Driver.

Lemma creators_ok_step d ev : creators_ok d -> creators_ok (driver_step d ev).
Proof.
  intros Hok. destruct ev as [e|e]; simpl.
  - destruct (sessionCreators d !! e) as [c|] eqn:Hc; simpl; [done|].
    intros e' c' Hc'. simpl in Hc' |- *. destruct (decide (e = e')) as [->|Hne].
    + rewrite lookup_insert_eq in Hc'. inversion Hc'; subst. simpl.
      split; [done|lia].
    + rewrite lookup_insert_ne in Hc' by done.
      destruct (Hok e' c' Hc') as [? ?]. split; [done|lia].
  - intros e' c' Hc'. simpl in Hc'. destruct (decide (e = e')) as [->|Hne].
    + by rewrite lookup_delete_eq in Hc'.
    + rewrite lookup_delete_ne in Hc' by done. by apply Hok.
Qed.

Lemma creators_ok_run evs : creators_ok (driver_run new_Driver evs).
Proof.
  induction evs as [|ev evs IH] using rev_ind.
  - intros e c Hc. simpl in Hc. done.
  - unfold driver_run. rewrite foldl_app. simpl. by apply creators_ok_step.
Qed.

Lemma creator_persists d evs e c :
  sessionCreators d !! e = Some c -> Removed e ∉ evs ->
  sessionCreators (driver_run d evs) !! e = Some c.
Proof.
  revert d. induction evs as [|ev evs IH]; intros d Hc Hnin; [done|].
  apply not_elem_of_cons in Hnin as [Hne Hnin].
  change (driver_run d (ev :: evs)) with (driver_run (driver_step d ev) evs).
  apply IH; [|done]. destruct ev as [e'|e']; simpl.
  - destruct (sessionCreators d !! e') as [c'|] eqn:Hc'; simpl; [done|].
    rewrite lookup_insert_ne; [done|]. intros ->. congruence.
  - rewrite lookup_delete_ne; [done|]. intros ->. by apply Hne.
Qed.

(** [getSessionCreator] keeps one SessionService per endpoint: the service
    it returns is bound to the endpoint asked for; as long as the endpoint
    is not removed, later calls for it return that same object and build
    nothing; after the endpoint has been removed, the next call builds a
    new object. *)
Theorem session_creator_per_endpoint evs0 e evs :
  let d := driver_run new_Driver evs0 in
  let d1 := (getSessionCreator e d).1 in
  exists c,
    (getSessionCreator e d).2 = Some c /\ svc_endpoint c = e /\
    (Removed e ∉ evs ->
       getSessionCreator e (driver_run d1 evs) = (driver_run d1 evs, Some c)) /\
    (forall c', (getSessionCreator e (on_removed e (driver_run d1 evs))).2
                  = Some c' ->
       svc_endpoint c' = e /\ svc_id c' ≠ svc_id c /\
       constructed (getSessionCreator e (on_removed e (driver_run d1 evs))).1
         = S (constructed (driver_run d1 evs))).
Proof.
  intros d d1.
  assert (Hok : creators_ok d) by apply creators_ok_run.
  assert (Hok1 : creators_ok d1)
    by apply (creators_ok_step d (GetSessionCreator e) Hok).
  assert (Hc : exists c, sessionCreators d1 !! e = Some c /\
                         (getSessionCreator e d).2 = Some c).
  { unfold d1, getSessionCreator.
    destruct (sessionCreators d !! e) as [c|] eqn:Hc; simpl.
    - exists c. by rewrite Hc.
    - eexists. by rewrite lookup_insert_eq. }
  destruct Hc as (c & Hc1 & Hc2). exists c.
  destruct (Hok1 e c Hc1) as [He Hid].
  split; [done|]. split; [done|]. split.
  - intros Hnin. pose proof (creator_persists d1 evs e c Hc1 Hnin) as Hp.
    unfold getSessionCreator. rewrite Hp. cbv zeta. by rewrite Hp.
  - intros c'. unfold getSessionCreator, on_removed. simpl.
    rewrite lookup_delete_eq. simpl. rewrite lookup_insert_eq.
    intros [= <-]. simpl. split; [done|]. split; [|done].
    assert (Hmono : forall evs d0, (constructed d0 <= constructed (driver_run d0 evs))%nat).
    { clear. induction evs as [|ev evs IH]; intros d0; [done|].
      change (driver_run d0 (ev :: evs)) with (driver_run (driver_step d0 ev) evs).
      specialize (IH (driver_step d0 ev)).
      assert ((constructed d0 <= constructed (driver_step d0 ev))%nat).
      { destruct ev as [e|e]; simpl; [|done].
        destruct (sessionCreators d0 !! e); simpl; lia. }
      lia. }
    specialize (Hmono evs d1). lia.
Qed.
